(** * KATCP device server: codec, sensors, dispatch and sampling bookkeeping

    A shallow embedding of [katcp/katcp.py].  Python 2 byte strings are
    [string] (lists of 8-bit [ascii]); dictionaries are [gmap]s, sets are
    [gset]s; exceptions are values of an error type threaded through a
    small state-and-exception monad. *)

From stdpp Require Import gmap strings list fin_maps sorting.
From Stdlib Require Import Ascii String ZArith Lia DecimalString Floats.

Local Open Scope string_scope.

(** ** Wire codec: [Message] and [MessageParser] *)

Module Codec.

(** Message types: [REQUEST, REPLY, INFORM = range(3)]. *)
Inductive MessageType := REQUEST | REPLY | INFORM.

(** The three attributes [__init__] stores. *)
Record Message := mkMessage {
  mtype : MessageType;
  name : string;
  arguments : list string
}.

(** [KatcpSyntaxError], one constructor per [raise] site of the codec. *)
Inductive KatcpSyntaxError :=
| EmptyMessage
| BadTypeCharacter (c : ascii)
| UnescapedSpecial (c : ascii)
| EscapeSlashAtEnd
| InvalidEscapeCharacter (c : ascii)
| MissingCommandName
| NameNotAlphanumeric (n : string)
| NameNotAlphabeticStart (n : string).

(** The bytes the codec singles out. *)
Definition NUL : ascii := "000"%char.
Definition TAB : ascii := "009"%char.
Definition LF : ascii := "010"%char.
Definition CR : ascii := "013"%char.
Definition ESC : ascii := "027"%char.
Definition SPACE : ascii := " "%char.
Definition BACKSLASH : ascii := "\"%char.

(** [TYPE_SYMBOLS] and its inverse [TYPE_SYMBOL_LOOKUP]. *)
Definition TYPE_SYMBOLS (t : MessageType) : ascii :=
  match t with
  | REQUEST => "?"%char
  | REPLY => "!"%char
  | INFORM => "#"%char
  end.

Definition TYPE_SYMBOL_LOOKUP (c : ascii) : option MessageType :=
  if Ascii.eqb c "?" then Some REQUEST
  else if Ascii.eqb c "!" then Some REPLY
  else if Ascii.eqb c "#" then Some INFORM
  else None.

(** [ESCAPE_LOOKUP]: escape character to the string it stands for. *)
Definition ESCAPE_LOOKUP : list (ascii * string) :=
  [ (BACKSLASH, String BACKSLASH "");
    ("_"%char, String SPACE "");
    ("0"%char, String NUL "");
    ("n"%char, String LF "");
    ("r"%char, String CR "");
    ("e"%char, String ESC "");
    ("t"%char, String TAB "");
    ("@"%char, "") ].

Fixpoint dict_get {V} (d : list (ascii * V)) (k : ascii) : option V :=
  match d with
  | [] => None
  | (k', v) :: d' => if Ascii.eqb k k' then Some v else dict_get d' k
  end.

(** [REVERSE_ESCAPE_LOOKUP = dict((v, k) for k, v in ESCAPE_LOOKUP.items())],
    read at the one-character keys [ESCAPE_RE] can produce. *)
Definition REVERSE_ESCAPE_LOOKUP : list (string * ascii) :=
  map (fun kv => (snd kv, fst kv)) ESCAPE_LOOKUP.

Fixpoint rdict_get (d : list (string * ascii)) (k : string) : option ascii :=
  match d with
  | [] => None
  | (k', v) :: d' => if String.eqb k k' then Some v else rdict_get d' k
  end.

(** [ESCAPE_RE = [\\ \0\n\r\x1b\t]]: the bytes serialization escapes. *)
Definition ESCAPE_RE (c : ascii) : bool :=
  Ascii.eqb c BACKSLASH || Ascii.eqb c SPACE || Ascii.eqb c NUL ||
  Ascii.eqb c LF || Ascii.eqb c CR || Ascii.eqb c ESC || Ascii.eqb c TAB.

(** [SPECIAL_RE = [\0\n\r\x1b\t ]]: the bytes an argument may not hold raw. *)
Definition SPECIAL_RE (c : ascii) : bool :=
  Ascii.eqb c NUL || Ascii.eqb c LF || Ascii.eqb c CR ||
  Ascii.eqb c ESC || Ascii.eqb c TAB || Ascii.eqb c SPACE.

(** [WHITESPACE_RE = [ \t]+] matches runs of these. *)
Definition is_whitespace (c : ascii) : bool :=
  Ascii.eqb c SPACE || Ascii.eqb c TAB.

(** [str.isalpha] and [str.isalnum] on one byte (C locale: ASCII only). *)
Definition isdigit (c : ascii) : bool :=
  let n := nat_of_ascii c in (48 <=? n)%nat && (n <=? 57)%nat.

Definition isalpha (c : ascii) : bool :=
  let n := nat_of_ascii c in
  ((65 <=? n)%nat && (n <=? 90)%nat) || ((97 <=? n)%nat && (n <=? 122)%nat).

Definition isalnum (c : ascii) : bool := isalpha c || isdigit c.

Fixpoint forallb_string (p : ascii -> bool) (s : string) : bool :=
  match s with
  | EmptyString => true
  | String c s' => p c && forallb_string p s'
  end.

(** [s.isalnum()]: every byte alphanumeric and at least one byte. *)
Definition str_isalnum (s : string) : bool :=
  match s with
  | EmptyString => false
  | _ => forallb_string isalnum s
  end.

(** [s.replace("-", "")]. *)
Fixpoint remove_dashes (s : string) : string :=
  match s with
  | EmptyString => EmptyString
  | String c s' =>
      if Ascii.eqb c "-" then remove_dashes s' else String c (remove_dashes s')
  end.

(** [Message.__init__]: the name checks, in the order of the source.  The
    type test [mtype not in TYPE_SYMBOLS] cannot fail on [MessageType]. *)
Definition Message_init (t : MessageType) (n : string) (args : list string)
  : KatcpSyntaxError + Message :=
  match n with
  | EmptyString => inl MissingCommandName
  | String c0 _ =>
      if negb (str_isalnum (remove_dashes n)) then inl (NameNotAlphanumeric n)
      else if negb (isalpha c0) then inl (NameNotAlphabeticStart n)
      else inr (mkMessage t n args)
  end.

(** [_escape_match]: a backslash and the escape code of the matched byte.
    Every byte [ESCAPE_RE] matches is a key, so the lookup succeeds. *)
Definition _escape_match (c : ascii) : string :=
  match rdict_get REVERSE_ESCAPE_LOOKUP (String c "") with
  | Some k => String BACKSLASH (String k "")
  | None => String c ""
  end.

(** [ESCAPE_RE.sub(self._escape_match, x)]. *)
Fixpoint escape_sub (x : string) : string :=
  match x with
  | EmptyString => EmptyString
  | String c x' =>
      if ESCAPE_RE c then _escape_match c ++ escape_sub x'
      else String c (escape_sub x')
  end.

(** [x or "\\@"] after the substitution. *)
Definition escape_arg (x : string) : string :=
  match escape_sub x with
  | EmptyString => String BACKSLASH (String "@" "")
  | e => e
  end.

(** [" ".join(l)]. *)
Fixpoint join_space (l : list string) : string :=
  match l with
  | [] => EmptyString
  | [x] => x
  | x :: l' => x ++ String SPACE (join_space l')
  end.

(** [Message.__str__]. *)
Definition Message_str (m : Message) : string :=
  let arg_str :=
    match arguments m with
    | [] => EmptyString
    | args => String SPACE (join_space (map escape_arg args))
    end in
  String (TYPE_SYMBOLS (mtype m)) (name m ++ arg_str).

(** [UNESCAPE_RE.sub(self._unescape_match, arg)] with [UNESCAPE_RE = \\(.?)]:
    at a backslash the group is the next byte, or empty at the end of the
    string and before a line feed (which [.] does not match). *)
Fixpoint unescape_sub (arg : string) : KatcpSyntaxError + string :=
  match arg with
  | EmptyString => inr EmptyString
  | String c rest =>
      if Ascii.eqb c BACKSLASH then
        match rest with
        | EmptyString => inl EscapeSlashAtEnd
        | String e rest' =>
            if Ascii.eqb e LF then inl EscapeSlashAtEnd
            else
              match dict_get ESCAPE_LOOKUP e with
              | Some r =>
                  match unescape_sub rest' with
                  | inr u => inr (r ++ u)
                  | inl err => inl err
                  end
              | None => inl (InvalidEscapeCharacter e)
              end
        end
      else
        match unescape_sub rest with
        | inr u => inr (String c u)
        | inl err => inl err
        end
  end.

(** [SPECIAL_RE.search(arg)]: the first special byte, if any. *)
Fixpoint special_search (arg : string) : option ascii :=
  match arg with
  | EmptyString => None
  | String c rest => if SPECIAL_RE c then Some c else special_search rest
  end.

(** [MessageParser._parse_arg]. *)
Definition _parse_arg (arg : string) : KatcpSyntaxError + string :=
  match special_search arg with
  | Some c => inl (UnescapedSpecial c)
  | None => unescape_sub arg
  end.

(** [WHITESPACE_RE.split(line)]: the fields between maximal runs of spaces
    and tabs; [inws] tells that the previous byte belonged to a run. *)
Fixpoint whitespace_split_from (inws : bool) (line : string) : list string :=
  match line with
  | EmptyString => [EmptyString]
  | String c rest =>
      if is_whitespace c then
        if inws then whitespace_split_from true rest
        else EmptyString :: whitespace_split_from true rest
      else
        match whitespace_split_from false rest with
        | f :: fs => String c f :: fs
        | [] => [String c EmptyString]
        end
  end.

Definition whitespace_split (line : string) : list string :=
  whitespace_split_from false line.

(** [if not parts[-1]: del parts[-1]]. *)
Fixpoint del_empty_last (parts : list string) : list string :=
  match parts with
  | [] => []
  | [p] => match p with EmptyString => [] | _ => [p] end
  | p :: ps => p :: del_empty_last ps
  end.

(** [[self._parse_arg(x) for x in parts[1:]]]: the first failure is raised. *)
Fixpoint parse_args (xs : list string) : KatcpSyntaxError + list string :=
  match xs with
  | [] => inr []
  | x :: xs' =>
      match _parse_arg x with
      | inl err => inl err
      | inr a =>
          match parse_args xs' with
          | inl err => inl err
          | inr l => inr (a :: l)
          end
      end
  end.

(** [s[1:]]. *)
Definition drop_first (s : string) : string :=
  match s with
  | EmptyString => EmptyString
  | String _ s' => s'
  end.

(** [MessageParser.parse]. *)
Definition parse (line : string) : KatcpSyntaxError + Message :=
  match line with
  | EmptyString => inl EmptyMessage
  | String type_char _ =>
      match TYPE_SYMBOL_LOOKUP type_char with
      | None => inl (BadTypeCharacter type_char)
      | Some t =>
          let parts := del_empty_last (whitespace_split line) in
          let n := drop_first (hd EmptyString parts) in
          match parse_args (tl parts) with
          | inl err => inl err
          | inr args => Message_init t n args
          end
      end
  end.

Example parse_watchdog :
  parse "?watchdog" = inr (mkMessage REQUEST "watchdog" []).
Proof. reflexivity. Qed.

Example parse_sampling :
  parse "?sensor-sampling an.int period 500  " =
  inr (mkMessage REQUEST "sensor-sampling" ["an.int"; "period"; "500"]).
Proof. reflexivity. Qed.

Example parse_escapes :
  parse "#log a\_b \@ \\n" =
  inr (mkMessage INFORM "log" ["a b"; ""; "\n"]).
Proof. reflexivity. Qed.

Example str_escapes :
  Message_str (mkMessage REPLY "x" ["a b"; ""; "\"; String NUL "@"]) =
  "!x a\_b \@ \\ \0@".
Proof. reflexivity. Qed.

(** *** Facts about the character classes *)

Lemma ESCAPE_RE_cases c :
  ESCAPE_RE c = true ->
  c = BACKSLASH \/ c = SPACE \/ c = NUL \/ c = LF \/ c = CR \/ c = ESC \/ c = TAB.
Proof.
  unfold ESCAPE_RE. rewrite !orb_true_iff, !Ascii.eqb_eq. tauto.
Qed.

Lemma ESCAPE_RE_false c :
  ESCAPE_RE c = false ->
  Ascii.eqb c BACKSLASH = false /\ SPECIAL_RE c = false /\ is_whitespace c = false.
Proof.
  unfold ESCAPE_RE, SPECIAL_RE, is_whitespace.
  rewrite !orb_false_iff. intros H. decompose [and] H. repeat split; assumption.
Qed.

(** What [_escape_match] produces for a byte of [ESCAPE_RE]: a backslash
    and a code byte [k] that is itself harmless and decodes back to [c]. *)
Lemma _escape_match_spec c :
  ESCAPE_RE c = true ->
  exists k, _escape_match c = String BACKSLASH (String k "") /\
            SPECIAL_RE k = false /\ Ascii.eqb k LF = false /\
            dict_get ESCAPE_LOOKUP k = Some (String c "").
Proof.
  intros H. apply ESCAPE_RE_cases in H.
  repeat (destruct H as [H | H]); subst c; eexists; repeat split; reflexivity.
Qed.

Lemma isalnum_not_special c :
  isalnum c || Ascii.eqb c "-" = true ->
  is_whitespace c = false /\ SPECIAL_RE c = false.
Proof.
  destruct c as [[] [] [] [] [] [] [] []]; vm_compute; intros H;
    first [discriminate H | split; reflexivity].
Qed.

(** *** Splitting a serialized line *)

Definition no_whitespace (s : string) : bool :=
  forallb_string (fun c => negb (is_whitespace c)) s.

Definition no_special (s : string) : bool :=
  forallb_string (fun c => negb (SPECIAL_RE c)) s.

Lemma append_nil (t : string) : "" ++ t = t.
Proof. reflexivity. Qed.

Lemma append_cons c (s t : string) : String c s ++ t = String c (s ++ t).
Proof. reflexivity. Qed.

Lemma string_app_empty_r (s : string) : s ++ "" = s.
Proof.
  induction s as [|c s IH]; [reflexivity|]. now rewrite append_cons, IH.
Qed.

Lemma string_app_assoc (a b c : string) : (a ++ b) ++ c = a ++ (b ++ c).
Proof.
  induction a as [|x a IH]; [reflexivity|]. now rewrite !append_cons, IH.
Qed.

Lemma whitespace_split_from_nonempty b s : whitespace_split_from b s <> [].
Proof.
  revert b. induction s as [|c s IH]; intros b; simpl; [discriminate|].
  destruct (is_whitespace c).
  - destruct b; [apply IH | discriminate].
  - destruct (whitespace_split_from false s); discriminate.
Qed.

(** A field without whitespace is glued to the first field of what follows. *)
Lemma whitespace_split_prefix s t :
  no_whitespace s = true ->
  whitespace_split_from false (s ++ t) =
  match whitespace_split_from false t with
  | f :: fs => (s ++ f) :: fs
  | [] => [s]
  end.
Proof.
  induction s as [|c s IH]; intros H.
  - rewrite append_nil.
    destruct (whitespace_split_from false t) eqn:E; [|reflexivity].
    now apply whitespace_split_from_nonempty in E.
  - simpl in H. apply andb_true_iff in H as [Hc Hs]. apply negb_true_iff in Hc.
    rewrite append_cons. cbn [whitespace_split_from]. rewrite Hc, (IH Hs).
    destruct (whitespace_split_from false t); reflexivity.
Qed.

Lemma whitespace_split_whole s :
  no_whitespace s = true -> whitespace_split_from false s = [s].
Proof.
  intros H. rewrite <- (string_app_empty_r s) at 1.
  rewrite whitespace_split_prefix by exact H. simpl.
  now rewrite string_app_empty_r.
Qed.

(** After a run, a non-whitespace byte starts a field as at the start. *)
Lemma whitespace_split_resume c r :
  is_whitespace c = false ->
  whitespace_split_from true (String c r) = whitespace_split_from false (String c r).
Proof. intros Hc. cbn [whitespace_split_from]. now rewrite Hc. Qed.

Lemma whitespace_split_space c r :
  is_whitespace c = false ->
  whitespace_split_from false (String SPACE (String c r)) =
  "" :: whitespace_split_from false (String c r).
Proof.
  intros Hc. rewrite <- (whitespace_split_resume c r Hc). reflexivity.
Qed.

Lemma join_space_head x l :
  x <> "" -> no_whitespace x = true ->
  exists c r, join_space (x :: l) = String c r /\ is_whitespace c = false.
Proof.
  destruct x as [|c x]; [congruence|]. intros _ H. simpl in H.
  apply andb_true_iff in H as [Hc _]. apply negb_true_iff in Hc.
  destruct l; cbn [join_space]; rewrite ?append_cons; eauto.
Qed.

(** Fields that are non-empty and free of whitespace come back from the
    split of their join. *)
Lemma whitespace_split_join l :
  l <> [] ->
  Forall (fun x => x <> "" /\ no_whitespace x = true) l ->
  whitespace_split_from false (join_space l) = l.
Proof.
  induction l as [|x l IH]; [congruence|]. intros _ Hall.
  inversion Hall as [|? ? [Hx Hws] Hl]; subst.
  destruct l as [|y l].
  - cbn [join_space]. now apply whitespace_split_whole.
  - change (join_space (x :: y :: l)) with (x ++ String SPACE (join_space (y :: l))).
    rewrite whitespace_split_prefix by exact Hws.
    inversion Hl as [|? ? [Hy Hyws] _]; subst.
    destruct (join_space_head y l Hy Hyws) as (c & r & Hj & Hc).
    rewrite Hj, (whitespace_split_space c r Hc), <- Hj.
    rewrite IH by (first [discriminate | exact Hl]).
    now rewrite string_app_empty_r.
Qed.

Lemma del_empty_last_id l :
  Forall (fun x => x <> "") l -> del_empty_last l = l.
Proof.
  induction l as [|x l IH]; [reflexivity|]. intros H.
  inversion H as [|? ? Hx Hl]; subst.
  destruct l as [|y l].
  - simpl. destruct x; congruence.
  - change (del_empty_last (x :: y :: l)) with (x :: del_empty_last (y :: l)).
    now rewrite (IH Hl).
Qed.

(** *** Escaping and unescaping one argument *)

Lemma forallb_string_app p (s t : string) :
  forallb_string p (s ++ t) = forallb_string p s && forallb_string p t.
Proof.
  induction s as [|c s IH]; [reflexivity|].
  rewrite append_cons. cbn [forallb_string]. now rewrite IH, andb_assoc.
Qed.

Lemma escape_sub_empty x : escape_sub x = "" -> x = "".
Proof.
  destruct x as [|c x]; [reflexivity|]. cbn [escape_sub].
  destruct (ESCAPE_RE c) eqn:E; [|discriminate].
  destruct (_escape_match_spec c E) as (k & -> & _). discriminate.
Qed.

Lemma escape_sub_clean x :
  no_special (escape_sub x) = true /\ no_whitespace (escape_sub x) = true.
Proof.
  unfold no_special, no_whitespace.
  induction x as [|c x [IH1 IH2]]; [split; reflexivity|]. cbn [escape_sub].
  destruct (ESCAPE_RE c) eqn:E.
  - destruct (_escape_match_spec c E) as (k & -> & Hk & _ & _).
    assert (Hw : is_whitespace k = false).
    { unfold SPECIAL_RE in Hk. unfold is_whitespace.
      rewrite !orb_false_iff in *. tauto. }
    rewrite !forallb_string_app, IH1, IH2. cbn [forallb_string].
    rewrite Hk, Hw. split; reflexivity.
  - destruct (ESCAPE_RE_false c E) as (_ & Hs & Hw).
    cbn [forallb_string]. rewrite Hs, Hw, IH1, IH2. split; reflexivity.
Qed.

Lemma escape_arg_clean x :
  escape_arg x <> "" /\ no_special (escape_arg x) = true /\
  no_whitespace (escape_arg x) = true.
Proof.
  unfold escape_arg. destruct (escape_sub x) eqn:E.
  - split; [discriminate | split; reflexivity].
  - rewrite <- E. destruct (escape_sub_clean x) as [H1 H2].
    split; [rewrite E; discriminate | split; assumption].
Qed.

Lemma special_search_none s : no_special s = true -> special_search s = None.
Proof.
  induction s as [|c s IH]; [reflexivity|]. unfold no_special. simpl.
  intros H. apply andb_true_iff in H as [Hc Hs]. apply negb_true_iff in Hc.
  rewrite Hc. now apply IH.
Qed.

Lemma unescape_escape_sub x : unescape_sub (escape_sub x) = inr x.
Proof.
  induction x as [|c x IH]; [reflexivity|]. simpl.
  destruct (ESCAPE_RE c) eqn:E.
  - destruct (_escape_match_spec c E) as (k & -> & _ & Hlf & Hk).
    rewrite !append_cons, append_nil. cbn [unescape_sub].
    change (Ascii.eqb BACKSLASH BACKSLASH) with true. cbn iota.
    rewrite Hlf, Hk, IH. reflexivity.
  - destruct (ESCAPE_RE_false c E) as (Hb & _ & _).
    cbn [unescape_sub]. rewrite Hb, IH. reflexivity.
Qed.

Lemma _parse_arg_escape_arg x : _parse_arg (escape_arg x) = inr x.
Proof.
  unfold _parse_arg.
  destruct (escape_arg_clean x) as (_ & Hs & _).
  rewrite (special_search_none _ Hs).
  unfold escape_arg. destruct (escape_sub x) eqn:E.
  - apply escape_sub_empty in E. subst x. reflexivity.
  - rewrite <- E. apply unescape_escape_sub.
Qed.

Lemma parse_args_escape args : parse_args (map escape_arg args) = inr args.
Proof.
  induction args as [|a args IH]; [reflexivity|]. simpl.
  now rewrite _parse_arg_escape_arg, IH.
Qed.

(** *** Command names *)

(** A byte a command name may hold: alphanumeric or a dash. *)
Definition name_char (c : ascii) : bool := isalnum c || Ascii.eqb c "-".

(** The name rule of the data model: non-empty, alphabetic first byte,
    then alphanumerics and dashes only. *)
Definition valid_name (n : string) : bool :=
  match n with
  | EmptyString => false
  | String c _ => isalpha c && forallb_string name_char n
  end.

Lemma isalnum_remove_dashes n :
  forallb_string isalnum (remove_dashes n) = forallb_string name_char n.
Proof.
  induction n as [|c n IH]; [reflexivity|]. cbn [remove_dashes forallb_string].
  unfold name_char at 1. destruct (Ascii.eqb c "-") eqn:E.
  - now rewrite orb_true_r, IH.
  - cbn [forallb_string]. now rewrite orb_false_r, IH.
Qed.

Lemma isalpha_not_dash c : isalpha c = true -> Ascii.eqb c "-" = false.
Proof.
  destruct c as [[] [] [] [] [] [] [] []]; vm_compute; intros H;
    first [discriminate H | reflexivity].
Qed.

(** [Message.__init__] accepts exactly the valid names. *)
Lemma Message_init_valid t n args :
  Message_init t n args =
  if valid_name n then inr (mkMessage t n args)
  else match n with
       | EmptyString => inl MissingCommandName
       | String c0 _ =>
           if negb (str_isalnum (remove_dashes n)) then inl (NameNotAlphanumeric n)
           else inl (NameNotAlphabeticStart n)
       end.
Proof.
  destruct n as [|c n]; [reflexivity|]. unfold Message_init, valid_name.
  destruct (isalpha c) eqn:Ha.
  - pose proof (isalpha_not_dash c Ha) as Hd.
    assert (E : str_isalnum (remove_dashes (String c n)) =
                forallb_string name_char (String c n)).
    { rewrite <- isalnum_remove_dashes. cbn [remove_dashes]. now rewrite Hd. }
    rewrite E. cbn [andb negb]. destruct (forallb_string name_char (String c n)); reflexivity.
  - cbn [andb negb]. destruct (str_isalnum (remove_dashes (String c n))); reflexivity.
Qed.

Lemma Message_init_inr t n args m :
  Message_init t n args = inr m ->
  m = mkMessage t n args /\ valid_name n = true.
Proof.
  rewrite Message_init_valid. destruct (valid_name n).
  - intros [= <-]. split; reflexivity.
  - destruct n; [discriminate|].
    destruct (negb (str_isalnum (remove_dashes (String a n)))); discriminate.
Qed.

Lemma valid_name_no_whitespace n :
  valid_name n = true -> n <> "" /\ no_whitespace n = true.
Proof.
  destruct n as [|c n]; [discriminate|]. unfold valid_name.
  intros H. apply andb_true_iff in H as [_ H]. split; [discriminate|].
  unfold no_whitespace. revert H. generalize (String c n). clear.
  induction s as [|c s IH]; [reflexivity|]. cbn [forallb_string].
  intros H. apply andb_true_iff in H as [Hc Hs].
  destruct (isalnum_not_special c Hc) as [Hw _]. now rewrite Hw, IH.
Qed.

Lemma TYPE_SYMBOL_LOOKUP_SYMBOLS t : TYPE_SYMBOL_LOOKUP (TYPE_SYMBOLS t) = Some t.
Proof. destruct t; reflexivity. Qed.

Lemma TYPE_SYMBOLS_no_whitespace t : is_whitespace (TYPE_SYMBOLS t) = false.
Proof. destruct t; reflexivity. Qed.

Lemma escape_args_fields args :
  Forall (fun x => x <> "" /\ no_whitespace x = true) (map escape_arg args).
Proof.
  induction args as [|a args IH]; constructor; [|exact IH].
  destruct (escape_arg_clean a) as (H1 & _ & H3). now split.
Qed.

(** The fields of a serialized message: the symbol and name, then the
    escaped arguments. *)
Lemma whitespace_split_Message_str m :
  valid_name (name m) = true ->
  whitespace_split (Message_str m) =
  String (TYPE_SYMBOLS (mtype m)) (name m) :: map escape_arg (arguments m).
Proof.
  intros Hn. destruct (valid_name_no_whitespace _ Hn) as [_ Hws].
  unfold whitespace_split, Message_str. rewrite <- append_cons.
  rewrite whitespace_split_prefix
    by (cbn [no_whitespace forallb_string]; unfold no_whitespace in Hws;
        now rewrite TYPE_SYMBOLS_no_whitespace, Hws).
  destruct (arguments m) as [|a args] eqn:Ea.
  - cbn. now rewrite string_app_empty_r.
  - pose proof (escape_args_fields (a :: args)) as Hall.
    inversion Hall as [|? ? [Hx Hxw] _]; subst.
    destruct (join_space_head _ (map escape_arg args) Hx Hxw) as (c & r & Hj & Hc).
    change (map escape_arg (a :: args)) with (escape_arg a :: map escape_arg args) in *.
    rewrite Hj, (whitespace_split_space c r Hc), <- Hj.
    rewrite whitespace_split_join by (first [discriminate | exact Hall]).
    now rewrite string_app_empty_r.
Qed.

(** *** C1: the codec round trip *)

(** C1. Every message the constructor accepts (any of the three types, a
    valid name, any list of byte-string arguments) is read back field by
    field from its serialized form: [parse (str m) = m]. *)
Theorem parse_Message_str_roundtrip (m : Message) :
  Message_init (mtype m) (name m) (arguments m) = inr m ->
  parse (Message_str m) = inr m.
Proof.
  intros Hm. pose proof (Message_init_inr _ _ _ _ Hm) as [_ Hn].
  pose proof (whitespace_split_Message_str m Hn) as Hsplit.
  assert (E : exists rest, Message_str m = String (TYPE_SYMBOLS (mtype m)) rest)
    by (eexists; reflexivity).
  destruct E as [rest E]. rewrite E in Hsplit |- *.
  cbn [parse]. rewrite TYPE_SYMBOL_LOOKUP_SYMBOLS. cbv zeta. rewrite Hsplit.
  rewrite del_empty_last_id.
  - cbn [hd tl drop_first]. rewrite parse_args_escape. exact Hm.
  - constructor; [discriminate|].
    eapply Forall_impl; [apply escape_args_fields|]. now intros x [Hx _].
Qed.

(** A message with every escaped byte, an empty argument and a dash in
    its name. *)
Definition roundtrip_sample : Message :=
  mkMessage INFORM "sensor-status"
    [ ""; "a b"; String NUL (String LF (String CR (String ESC (String TAB "\@")))) ].

Lemma parse_Message_str_roundtrip_witness :
  parse (Message_str roundtrip_sample) = inr roundtrip_sample.
Proof. apply (parse_Message_str_roundtrip roundtrip_sample). reflexivity. Defined.

(** *** Malformed lines, in the words of the specification *)

(** [at_unescaped P s]: reading [s] from the left, a backslash taking the
    next byte with it, some unescaped position starts a suffix with [P]. *)
Inductive at_unescaped (P : string -> Prop) : string -> Prop :=
| unescaped_here s : P s -> at_unescaped P s
| unescaped_after_escape e s :
    at_unescaped P s -> at_unescaped P (String BACKSLASH (String e s))
| unescaped_after_plain c s :
    c <> BACKSLASH -> at_unescaped P s -> at_unescaped P (String c s).

(** The escape alphabet. *)
Definition escape_alphabet : list ascii :=
  [BACKSLASH; "_"; "0"; "n"; "r"; "e"; "t"; "@"]%char.

(** A backslash with nothing after it. *)
Definition lone_backslash (s : string) : Prop := s = String BACKSLASH "".

(** A backslash followed by a byte outside the escape alphabet. *)
Definition bad_escape (s : string) : Prop :=
  exists e r, s = String BACKSLASH (String e r) /\ ~ In e escape_alphabet.

(** A raw NUL, LF, CR, ESC, TAB or space. *)
Definition raw_special (s : string) : Prop :=
  exists c r, s = String c r /\ In c [NUL; LF; CR; ESC; TAB; SPACE].

Definition malformed_token (t : string) : Prop :=
  at_unescaped lone_backslash t \/ at_unescaped bad_escape t \/
  at_unescaped raw_special t.

Fixpoint string_In (c : ascii) (s : string) : Prop :=
  match s with
  | EmptyString => False
  | String c' s' => c = c' \/ string_In c s'
  end.

(** The name is empty, starts with a non-alphabetic byte, or holds a
    byte outside [A-Za-z0-9-]. *)
Definition bad_name (n : string) : Prop :=
  n = "" \/ (exists c r, n = String c r /\ isalpha c = false) \/
  (exists c, string_In c n /\ name_char c = false).

(** The tokens after the type symbol: the rest of the line split on runs
    of spaces and tabs, a trailing empty field dropped. *)
Definition line_tokens (line : string) : list string :=
  del_empty_last (whitespace_split (drop_first line)).

Definition command_name (line : string) : string := hd "" (line_tokens line).
Definition argument_tokens (line : string) : list string := tl (line_tokens line).

Definition malformed (line : string) : Prop :=
  line = "" \/
  (exists c r, line = String c r /\ c <> "?"%char /\ c <> "!"%char /\ c <> "#"%char) \/
  bad_name (command_name line) \/
  (exists t, In t (argument_tokens line) /\ malformed_token t).

Ltac case_eqb :=
  match goal with
  | |- context [Ascii.eqb ?a ?b] => destruct (Ascii.eqb_spec a b) as [->|?]
  end.

Lemma string_strong_ind (P : string -> Prop) :
  (forall s, (forall s', (String.length s' < String.length s)%nat -> P s') -> P s) ->
  forall s, P s.
Proof.
  intros H s. remember (String.length s) as n eqn:E.
  revert s E. induction (lt_wf n) as [n _ IH]. intros s ->.
  apply H. intros s' Hlt. eapply IH; [exact Hlt | reflexivity].
Qed.

Lemma SPECIAL_RE_In c : SPECIAL_RE c = true <-> In c [NUL; LF; CR; ESC; TAB; SPACE].
Proof.
  unfold SPECIAL_RE. rewrite !orb_true_iff, !Ascii.eqb_eq. simpl.
  intuition congruence.
Qed.

Lemma dict_get_alphabet e :
  dict_get ESCAPE_LOOKUP e = None <-> ~ In e escape_alphabet.
Proof.
  unfold ESCAPE_LOOKUP, escape_alphabet. cbn [dict_get In].
  repeat (case_eqb; [split; [discriminate | tauto]|]).
  split; [|reflexivity]. intros _ H. intuition congruence.
Qed.

Lemma special_not_alphabet e : SPECIAL_RE e = true -> ~ In e escape_alphabet.
Proof.
  intros H. apply SPECIAL_RE_In in H. simpl in H.
  repeat (destruct H as [<- | H]; [vm_compute; intuition discriminate|]). destruct H.
Qed.

(** A special byte anywhere makes the token malformed: raw where it is
    unescaped, a bad escape where a backslash precedes it. *)
Lemma special_search_malformed t c :
  special_search t = Some c -> malformed_token t.
Proof.
  revert c. induction t as [t IH] using string_strong_ind. intros c0.
  destruct t as [|c s]; [discriminate|]. cbn [special_search].
  destruct (SPECIAL_RE c) eqn:Ec.
  - intros _. right; right. apply unescaped_here. exists c, s. split; [reflexivity|].
    now apply SPECIAL_RE_In.
  - intros Hs. destruct (Ascii.eqb_spec c BACKSLASH) as [->|Hc].
    + destruct s as [|e s']; [discriminate|]. cbn [special_search] in Hs.
      destruct (SPECIAL_RE e) eqn:Ee.
      * right; left. apply unescaped_here. exists e, s'. split; [reflexivity|].
        now apply special_not_alphabet.
      * assert (Hm : malformed_token s') by (eapply IH; [simpl; lia | exact Hs]).
        destruct Hm as [Hm|[Hm|Hm]]; [left | right; left | right; right];
          now apply unescaped_after_escape.
    + assert (Hm : malformed_token s) by (eapply IH; [simpl; lia | exact Hs]).
      destruct Hm as [Hm|[Hm|Hm]]; [left | right; left | right; right];
        now apply unescaped_after_plain.
Qed.

Lemma unescape_sub_malformed t e :
  unescape_sub t = inl e -> malformed_token t.
Proof.
  revert e. induction t as [t IH] using string_strong_ind. intros err.
  destruct t as [|c s]; [discriminate|]. cbn [unescape_sub].
  destruct (Ascii.eqb_spec c BACKSLASH) as [->|Hc].
  - destruct s as [|e s']; [intros _; left; now apply unescaped_here|].
    destruct (Ascii.eqb_spec e LF) as [->|He].
    + intros _. right; left. apply unescaped_here. exists LF, s'.
      split; [reflexivity|]. vm_compute. intuition discriminate.
    + destruct (dict_get ESCAPE_LOOKUP e) eqn:Ed.
      * destruct (unescape_sub s') eqn:Eu; [|discriminate]. intros _.
        assert (Hm : malformed_token s') by (eapply IH; [simpl; lia | exact Eu]).
        destruct Hm as [Hm|[Hm|Hm]]; [left | right; left | right; right];
          now apply unescaped_after_escape.
      * intros _. right; left. apply unescaped_here. exists e, s'.
        split; [reflexivity|]. now apply dict_get_alphabet.
  - destruct (unescape_sub s) eqn:Eu; [|discriminate]. intros _.
    assert (Hm : malformed_token s) by (eapply IH; [simpl; lia | exact Eu]).
    destruct Hm as [Hm|[Hm|Hm]]; [left | right; left | right; right];
      now apply unescaped_after_plain.
Qed.

Lemma raw_special_search t :
  at_unescaped raw_special t -> exists c, special_search t = Some c.
Proof.
  induction 1 as [s (c & r & -> & Hc) | e s _ [c IH] | c s _ _ [c' IH]].
  - apply SPECIAL_RE_In in Hc. cbn [special_search]. rewrite Hc. eauto.
  - cbn [special_search]. change (SPECIAL_RE BACKSLASH) with false. cbn iota.
    destruct (SPECIAL_RE e); [eauto|]. rewrite IH. eauto.
  - cbn [special_search]. destruct (SPECIAL_RE c); [eauto|]. rewrite IH. eauto.
Qed.

Lemma lone_or_bad_unescape t :
  at_unescaped lone_backslash t \/ at_unescaped bad_escape t ->
  exists e, unescape_sub t = inl e.
Proof.
  intros H.
  assert (G : at_unescaped (fun s => lone_backslash s \/ bad_escape s) t).
  { destruct H as [H|H]; induction H;
      first [ apply unescaped_here; tauto
            | now apply unescaped_after_escape
            | now apply unescaped_after_plain ]. }
  clear H.
  induction G as [s [-> | (e & r & -> & He)] | e s _ [err IH] | c s Hc _ [err IH]].
  - cbn. eauto.
  - cbn [unescape_sub]. change (Ascii.eqb BACKSLASH BACKSLASH) with true. cbn iota.
    destruct (Ascii.eqb e LF); [eauto|].
    apply dict_get_alphabet in He. rewrite He. eauto.
  - cbn [unescape_sub]. change (Ascii.eqb BACKSLASH BACKSLASH) with true. cbn iota.
    destruct (Ascii.eqb e LF); [eauto|].
    destruct (dict_get ESCAPE_LOOKUP e); [|eauto]. rewrite IH. eauto.
  - cbn [unescape_sub]. destruct (Ascii.eqb_spec c BACKSLASH); [contradiction|].
    rewrite IH. eauto.
Qed.

(** [_parse_arg] raises exactly on the malformed tokens. *)
Lemma _parse_arg_fails_iff t :
  (exists e, _parse_arg t = inl e) <-> malformed_token t.
Proof.
  unfold _parse_arg. split.
  - intros [e H]. destruct (special_search t) eqn:Es.
    + eapply special_search_malformed; eauto.
    + eapply unescape_sub_malformed; eauto.
  - intros [H|[H|H]].
    + destruct (special_search t); [eauto|]. apply lone_or_bad_unescape. now left.
    + destruct (special_search t); [eauto|]. apply lone_or_bad_unescape. now right.
    + destruct (raw_special_search t H) as [c ->]. eauto.
Qed.

Lemma parse_args_fails_iff ts :
  (exists e, parse_args ts = inl e) <-> exists t, In t ts /\ malformed_token t.
Proof.
  induction ts as [|t ts IH].
  - split; [intros [e H]; discriminate | intros (t & [] & _)].
  - cbn [parse_args]. split.
    + intros [e H]. destruct (_parse_arg t) eqn:Et.
      * exists t. split; [now left|]. apply _parse_arg_fails_iff. eauto.
      * destruct (parse_args ts) eqn:Ets; [|discriminate].
        destruct (proj1 IH) as (t' & Hin & Hm); [eauto|].
        exists t'. split; [now right | exact Hm].
    + intros (t' & [<- | Hin] & Hm).
      * apply _parse_arg_fails_iff in Hm as [e ->]. eauto.
      * destruct (_parse_arg t); [eauto|].
        destruct (proj2 IH) as [e ->]; [eauto|]. eauto.
Qed.

Lemma forallb_string_false p s :
  forallb_string p s = false <-> exists c, string_In c s /\ p c = false.
Proof.
  induction s as [|c s IH]; cbn [forallb_string string_In].
  - split; [discriminate | intros (c & [] & _)].
  - rewrite andb_false_iff, IH. split.
    + intros [H | (c' & Hin & Hc')]; [exists c | exists c']; tauto.
    + intros (c' & [-> | Hin] & Hc'); [now left | right; eauto].
Qed.

Lemma valid_name_false_iff n : valid_name n = false <-> bad_name n.
Proof.
  unfold bad_name. destruct n as [|c s].
  - split; [now left | reflexivity].
  - unfold valid_name. rewrite andb_false_iff, forallb_string_false. split.
    + intros [H | H]; [right; left; eauto | right; right; exact H].
    + intros [H | [(c' & r & [= <- <-] & H) | H]]; [discriminate | now left | now right].
Qed.

Lemma Message_init_fails_iff t n args :
  (exists e, Message_init t n args = inl e) <-> bad_name n.
Proof.
  rewrite <- valid_name_false_iff, Message_init_valid.
  destruct (valid_name n).
  - split; [intros [e H]; discriminate | discriminate].
  - split; [reflexivity|]. intros _.
    destruct n; [eauto|]. destruct (negb _); eauto.
Qed.

Lemma TYPE_SYMBOL_LOOKUP_None c :
  TYPE_SYMBOL_LOOKUP c = None <-> c <> "?"%char /\ c <> "!"%char /\ c <> "#"%char.
Proof.
  unfold TYPE_SYMBOL_LOOKUP.
  repeat (case_eqb; [split; [discriminate | intuition congruence]|]).
  tauto.
Qed.

Lemma TYPE_SYMBOL_LOOKUP_no_whitespace c t :
  TYPE_SYMBOL_LOOKUP c = Some t -> is_whitespace c = false.
Proof.
  unfold TYPE_SYMBOL_LOOKUP.
  repeat (case_eqb; [reflexivity|]). discriminate.
Qed.

(** The fields the parser reads from the whole line are the symbol glued
    to the command name, then the argument tokens. *)
Lemma parts_of_line c r :
  is_whitespace c = false ->
  let parts := del_empty_last (whitespace_split (String c r)) in
  drop_first (hd "" parts) = command_name (String c r) /\
  tl parts = argument_tokens (String c r).
Proof.
  intros Hc. unfold command_name, argument_tokens, line_tokens, whitespace_split.
  cbn [drop_first whitespace_split_from]. rewrite Hc.
  destruct (whitespace_split_from false r) as [|f fs] eqn:E.
  - now apply whitespace_split_from_nonempty in E.
  - destruct fs as [|g fs].
    + cbn. destruct f; split; reflexivity.
    + change (del_empty_last (String c f :: g :: fs))
        with (String c f :: del_empty_last (g :: fs)).
      change (del_empty_last (f :: g :: fs)) with (f :: del_empty_last (g :: fs)).
      split; reflexivity.
Qed.

(** *** C2: what the parser rejects *)

(** C2. [parse] raises a syntax error exactly on the malformed lines (empty
    line; leading byte not [?], [!] or [#]; command name empty, not
    starting with a letter, or with a byte outside [A-Za-z0-9-]; an
    argument token ending in a lone backslash, holding a backslash before
    a byte outside the escape alphabet, or holding an unescaped NUL, LF,
    CR, ESC, TAB or space), and returns a message on every other line. *)
Theorem parse_fails_iff_malformed (line : string) :
  ((exists e, parse line = inl e) <-> malformed line) /\
  ((exists m, parse line = inr m) <-> ~ malformed line).
Proof.
  assert (H1 : (exists e, parse line = inl e) <-> malformed line).
  { unfold malformed. destruct line as [|c r].
    - split; [now left | intros _; cbn; eauto].
    - cbn [parse]. destruct (TYPE_SYMBOL_LOOKUP c) as [t|] eqn:Et.
      + pose proof (TYPE_SYMBOL_LOOKUP_no_whitespace c t Et) as Hc.
        destruct (parts_of_line c r Hc) as [Hn Ha]. cbv zeta in *.
        rewrite Hn, Ha. split.
        * intros [e H]. destruct (parse_args (argument_tokens (String c r))) eqn:Ep.
          -- right; right; right. apply parse_args_fails_iff. eauto.
          -- right; right; left. eapply Message_init_fails_iff. eauto.
        * intros [H | [(c' & r' & [= <- <-] & H) | [H | H]]].
          -- discriminate.
          -- apply TYPE_SYMBOL_LOOKUP_None in H. congruence.
          -- destruct (parse_args _); [eauto|]. eapply Message_init_fails_iff. exact H.
          -- apply parse_args_fails_iff in H as [e ->]. eauto.
      + split; [|eauto]. intros _. right; left. exists c, r.
        split; [reflexivity|]. now apply TYPE_SYMBOL_LOOKUP_None. }
  split; [exact H1|]. rewrite <- H1. destruct (parse line) as [e|m].
  - split; [intros [m H]; discriminate | intros H; exfalso; eauto].
  - split; [intros _ [e H]; discriminate | eauto].
Qed.

Example parse_rejects_lone_backslash :
  parse "?x a\" = inl EscapeSlashAtEnd.
Proof. reflexivity. Qed.

Example parse_rejects_bad_escape :
  parse "?x a\qb" = inl (InvalidEscapeCharacter "q").
Proof. reflexivity. Qed.

Example parse_rejects_raw_escape_byte :
  parse (String "?" (String "x" (String SPACE (String ESC "")))) =
  inl (UnescapedSpecial ESC).
Proof. reflexivity. Qed.

Example parse_rejects_dash_name :
  parse "?-x" = inl (NameNotAlphabeticStart "-x").
Proof. reflexivity. Qed.

End Codec.

(** ** Sensors and their observers *)

Module SensorModel.

Local Open Scope list_scope.

(** [INTEGER, FLOAT, BOOLEAN, LRU, DISCRETE, STRING, TIMESTAMP = range(7)]. *)
Inductive SensorType :=
  INTEGER | FLOAT | BOOLEAN | LRU | DISCRETE | STRING | TIMESTAMP.

(** [UNKNOWN, NOMINAL, WARN, ERROR, FAILURE = range(5)]. *)
Inductive Status := UNKNOWN | NOMINAL | WARN | ERROR | FAILURE.

Inductive LruValue := LRU_NOMINAL | LRU_ERROR.

(** Sensor values: Python integers are [Z], Python floats are binary64. *)
Inductive Value :=
| VInt (z : Z)
| VFloat (f : float)
| VBool (b : bool)
| VLru (l : LruValue)
| VStr (s : string).

(** The exceptions the sensor code can meet. *)
Inductive SensorError := ValueError | KeyError | IndexError.

(** Modelled from the spec: the type objects of [kattypes.py], which is
    not among the sources.  Numeric types carry an inclusive [min, max],
    DISCRETE an allowed-value set, the others nothing. *)
Inductive KatType :=
| Int (min max : Z)
| Float (min max : float)
| Bool
| Lru
| Discrete (values : list string)
| Str
| Timestamp.


(** Observers are objects; the model keeps their identities. *)
Definition Observer := nat.

(** The attributes of a [Sensor] the model follows. *)
Record Sensor := mkSensor {
  _sensor_type : SensorType;
  _observers : gset Observer;
  _timestamp : float;
  _status : Status;
  _value : Value;
  _kattype : KatType;
  name : string;
  description : string;
  units : string;
  params : list Value
}.





(** [attach]: [self._observers.add(observer)]. *)
Definition attach (o : Observer) (s : Sensor) : Sensor :=
  {| _sensor_type := _sensor_type s; _observers := {[o]} ∪ _observers s;
     _timestamp := _timestamp s; _status := _status s; _value := _value s;
     _kattype := _kattype s; name := name s; description := description s;
     units := units s; params := params s |}.

(** [detach]: [self._observers.discard(observer)]. *)
Definition detach (o : Observer) (s : Sensor) : Sensor :=
  {| _sensor_type := _sensor_type s; _observers := _observers s ∖ {[o]};
     _timestamp := _timestamp s; _status := _status s; _value := _value s;
     _kattype := _kattype s; name := name s; description := description s;
     units := units s; params := params s |}.

(** The assignment [self._timestamp, self._status, self._value = ...]. *)
Definition assign (ts : float) (st : Status) (v : Value) (s : Sensor) : Sensor :=
  {| _sensor_type := _sensor_type s; _observers := _observers s;
     _timestamp := ts; _status := st; _value := v;
     _kattype := _kattype s; name := name s; description := description s;
     units := units s; params := params s |}.

(** [read] and [value]. *)
Definition read (s : Sensor) : float * Status * Value :=
  (_timestamp s, _status s, _value s).

Definition value (s : Sensor) : Value := snd (read s).


(** What an [update] callback may do to the sensor that notifies it. *)
Inductive Action := DoAttach (o : Observer) | DoDetach (o : Observer).

Definition apply_action (s : Sensor) (a : Action) : Sensor :=
  match a with
  | DoAttach o => attach o s
  | DoDetach o => detach o s
  end.

Section Observers.

(** The observers' side: a state of their own, and what [o.update(sensor)]
    does with it and to the sensor's observer set. *)
Variable World : Type.
Variable update : Observer -> Sensor -> World -> World * list Action.

(** Modelled from the spec: the decoders of [kattypes.py] ([Timestamp.decode]
    and the type's [unpack]); [None] stands for the error they raise. *)
Variable decode_timestamp : string -> option float.
Variable unpack : KatType -> string -> option Value.

(** A sensor, its observers' state, and the history of [update] calls. *)
Record State := mkState {
  sensor : Sensor;
  world : World;
  calls : list Observer
}.

Definition call_update (st : State) (o : Observer) : State :=
  let '(w, acts) := update o (sensor st) (world st) in
  {| sensor := fold_left apply_action acts (sensor st);
     world := w;
     calls := calls st ++ [o] |}.

(** [notify]: [for o in list(self._observers): o.update(self)]. *)
Definition notify (st : State) : State :=
  fold_left call_update (elements (_observers (sensor st))) st.

(** [set]. *)
Definition set (ts : float) (status : Status) (v : Value) (st : State) : State :=
  notify {| sensor := assign ts status v (sensor st);
            world := world st; calls := calls st |}.


(** [STATUS_NAMES]. *)
Definition STATUS_NAMES (raw : string) : option Status :=
  if String.eqb raw "unknown" then Some UNKNOWN
  else if String.eqb raw "nominal" then Some NOMINAL
  else if String.eqb raw "warn" then Some WARN
  else if String.eqb raw "error" then Some ERROR
  else if String.eqb raw "failure" then Some FAILURE
  else None.

(** [set_formatted]. *)
Definition set_formatted (raw_timestamp raw_status raw_value : string)
    (st : State) : State * option SensorError :=
  match decode_timestamp raw_timestamp with
  | None => (st, Some ValueError)
  | Some ts =>
      match STATUS_NAMES raw_status with
      | None => (st, Some KeyError)
      | Some status =>
          match unpack (_kattype (sensor st)) raw_value with
          | None => (st, Some ValueError)
          | Some v => (set ts status v st, None)
          end
      end
  end.











(** *** C5: how often an observer is updated *)


(** *** The value of a sensor *)

Lemma apply_actions_frame acts s :
  _value (fold_left apply_action acts s) = _value s /\
  _kattype (fold_left apply_action acts s) = _kattype s.
Proof.
  revert s. induction acts as [|a acts IH]; intros s; [split; reflexivity|].
  cbn [fold_left]. destruct (IH (apply_action s a)) as [-> ->].
  destruct a; split; reflexivity.
Qed.

Lemma fold_call_update_frame l st :
  _value (sensor (fold_left call_update l st)) = _value (sensor st) /\
  _kattype (sensor (fold_left call_update l st)) = _kattype (sensor st).
Proof.
  revert st. induction l as [|o l IH]; intros st; [split; reflexivity|].
  cbn [fold_left]. destruct (IH (call_update st o)) as [-> ->].
  unfold call_update. destruct (update o (sensor st) (world st)) as [w acts].
  cbn [sensor]. apply apply_actions_frame.
Qed.

(** The callbacks of a round leave the value and the type object alone. *)
Lemma set_stores ts status v st :
  _value (sensor (set ts status v st)) = v /\
  _kattype (sensor (set ts status v st)) = _kattype (sensor st).
Proof.
  unfold set, notify.
  match goal with |- context [fold_left call_update ?l ?s] =>
    destruct (fold_call_update_frame l s) as [-> ->] end.
  split; reflexivity.
Qed.





(** *** C4: the range of the stored value *)


(** What [set_formatted] stores: the value the type's [unpack] returns. *)
Lemma set_formatted_stores raw_ts raw_status raw_value st st' :
  set_formatted raw_ts raw_status raw_value st = (st', None) ->
  unpack (_kattype (sensor st)) raw_value = Some (_value (sensor st')).
Proof.
  unfold set_formatted.
  destruct (decode_timestamp raw_ts); [|discriminate].
  destruct (STATUS_NAMES raw_status); [|discriminate].
  destruct (unpack (_kattype (sensor st)) raw_value) as [v|]; [|discriminate].
  intros [= <-]. now destruct (set_stores f s v st) as [-> _].
Qed.

End Observers.


Definition an_int : Sensor :=
  {| _sensor_type := INTEGER; _observers := ∅; _timestamp := 12345%float;
     _status := NOMINAL; _value := VInt 3; _kattype := Int (-4) 3;
     name := "an.int"; description := "An integer."; units := "count";
     params := [VInt (-4); VInt 3] |}.




End SensorModel.

(** ** The device server: writer, dispatch, built-in requests, sampling *)

Module Server.

Import Codec.
Local Open Scope list_scope.

(** Client sockets, by file descriptor. *)
Definition Sock := nat.

(** The exceptions that travel through the dispatch layer.  [str(e)] of a
    [FailReply] is its reason. *)
Inductive Exception :=
| AsyncReply
| FailReply (reason : string)
| SyntaxError (e : KatcpSyntaxError)
| AssertionError
| KeyError
| ValueError (reason : string)
| OtherException (what : string).

(** The methods of the Python logger the server calls. *)
Inductive LogLevel := LOG_DEBUG | LOG_INFO | LOG_WARN | LOG_ERROR.

(** What one call of [sock.send] on a non-empty buffer meets: some bytes
    are taken (at least one), the socket would block ([EAGAIN]), or the
    call fails with another [socket.error]. *)
Inductive SendOutcome :=
| Sent (n : positive)
| Eagain
| SocketError (e : string).

(** Modelled from the spec: the sampling strategies of [sampling.py], which
    is not among the sources.  A strategy is an object (its identity is
    [sid]) holding its kind, its parameters, the sensor it reads and the
    emission callback, bound to a client's writer ([Some sock]) or doing
    nothing ([None]). *)
Inductive StrategyKind := NONE | AUTO | EVENT | DIFFERENTIAL | PERIOD.

Record Strategy := mkStrategy {
  sid : nat;
  kind : StrategyKind;
  strategy_params : list string;
  strategy_sensor : string;
  strategy_client : option Sock
}.

(** The state of a [DeviceServer] and of the sockets it writes to.  The
    inner dictionaries of [_strategies] are keyed by sensor object; a
    sensor is registered once, under its own name, and the name stands
    for the object here.  [allocated] counts the strategy objects made so
    far, [closed] holds the sockets [close] was called on, [wire] the
    bytes the sockets took and [pending] what their next [send]s meet. *)
Record Server := mkServer {
  _socks : list Sock;
  _waiting_chunks : gmap Sock string;
  _sock_locks : gmap Sock unit;
  _strategies : gmap Sock (gmap string Strategy);
  _sensors : gmap string SensorModel.Sensor;
  _reactor : gmap nat Strategy;
  _logger : list (LogLevel * string);
  allocated : nat;
  closed : gset Sock;
  wire : list (Sock * string);
  pending : gmap Sock (list SendOutcome)
}.

Definition with_socks (f : list Sock -> list Sock) (s : Server) : Server :=
  mkServer (f (_socks s)) (_waiting_chunks s) (_sock_locks s) (_strategies s)
    (_sensors s) (_reactor s) (_logger s) (allocated s) (closed s) (wire s) (pending s).

Definition with_waiting_chunks (f : gmap Sock string -> gmap Sock string)
    (s : Server) : Server :=
  mkServer (_socks s) (f (_waiting_chunks s)) (_sock_locks s) (_strategies s)
    (_sensors s) (_reactor s) (_logger s) (allocated s) (closed s) (wire s) (pending s).

Definition with_sock_locks (f : gmap Sock unit -> gmap Sock unit)
    (s : Server) : Server :=
  mkServer (_socks s) (_waiting_chunks s) (f (_sock_locks s)) (_strategies s)
    (_sensors s) (_reactor s) (_logger s) (allocated s) (closed s) (wire s) (pending s).

Definition with_strategies
    (f : gmap Sock (gmap string Strategy) -> gmap Sock (gmap string Strategy))
    (s : Server) : Server :=
  mkServer (_socks s) (_waiting_chunks s) (_sock_locks s) (f (_strategies s))
    (_sensors s) (_reactor s) (_logger s) (allocated s) (closed s) (wire s) (pending s).

Definition with_sensors
    (f : gmap string SensorModel.Sensor -> gmap string SensorModel.Sensor)
    (s : Server) : Server :=
  mkServer (_socks s) (_waiting_chunks s) (_sock_locks s) (_strategies s)
    (f (_sensors s)) (_reactor s) (_logger s) (allocated s) (closed s) (wire s) (pending s).

Definition with_reactor (f : gmap nat Strategy -> gmap nat Strategy)
    (s : Server) : Server :=
  mkServer (_socks s) (_waiting_chunks s) (_sock_locks s) (_strategies s)
    (_sensors s) (f (_reactor s)) (_logger s) (allocated s) (closed s) (wire s) (pending s).

Definition with_allocated (f : nat -> nat) (s : Server) : Server :=
  mkServer (_socks s) (_waiting_chunks s) (_sock_locks s) (_strategies s)
    (_sensors s) (_reactor s) (_logger s) (f (allocated s)) (closed s) (wire s) (pending s).

Definition with_closed (f : gset Sock -> gset Sock) (s : Server) : Server :=
  mkServer (_socks s) (_waiting_chunks s) (_sock_locks s) (_strategies s)
    (_sensors s) (_reactor s) (_logger s) (allocated s) (f (closed s)) (wire s) (pending s).

Definition with_pending
    (f : gmap Sock (list SendOutcome) -> gmap Sock (list SendOutcome))
    (s : Server) : Server :=
  mkServer (_socks s) (_waiting_chunks s) (_sock_locks s) (_strategies s)
    (_sensors s) (_reactor s) (_logger s) (allocated s) (closed s) (wire s) (f (pending s)).

(** A call of the logger. *)
Definition log (l : LogLevel) (text : string) (s : Server) : Server :=
  mkServer (_socks s) (_waiting_chunks s) (_sock_locks s) (_strategies s)
    (_sensors s) (_reactor s) (_logger s ++ [(l, text)]) (allocated s) (closed s)
    (wire s) (pending s).

(** Bytes a socket has taken. *)
Definition transmit (sock : Sock) (bytes : string) (s : Server) : Server :=
  mkServer (_socks s) (_waiting_chunks s) (_sock_locks s) (_strategies s)
    (_sensors s) (_reactor s) (_logger s) (allocated s) (closed s)
    (wire s ++ [(sock, bytes)]) (pending s).

(** Computations that change the server and return or raise. *)
Definition M (A : Type) : Type := Server -> (Exception + A) * Server.

Definition ret {A} (a : A) : M A := fun s => (inr a, s).
Definition raise {A} (e : Exception) : M A := fun s => (inl e, s).
Definition bind {A B} (m : M A) (k : A -> M B) : M B :=
  fun s => match m s with
           | (inl e, s') => (inl e, s')
           | (inr a, s') => k a s'
           end.
Definition modify (f : Server -> Server) : M unit := fun s => (inr tt, f s).

Notation "x <- m ;; k" := (bind m (fun x => k))
  (at level 100, m at next level, right associativity).
Notation "m ;;; k" := (bind m (fun _ => k))
  (at level 100, right associativity).

(** [Message.inform(name, *args)] and [Message.reply(name, *args)]: the
    constructor's syntax error is the only way they fail. *)
Definition construct (t : MessageType) (n : string) (args : list string) : M Message :=
  fun s => match Message_init t n args with
           | inl e => (inl (SyntaxError e), s)
           | inr m => (inr m, s)
           end.

Definition Message_inform := construct INFORM.
Definition Message_reply := construct REPLY.

(** ["\n".join(l)]. *)
Fixpoint join_lines (l : list string) : string :=
  match l with
  | [] => EmptyString
  | [x] => x
  | x :: l' => x +:+ String LF (join_lines l')
  end.

(** [s[:n]] and [s[n:]]. *)
Fixpoint string_take (n : nat) (s : string) : string :=
  match n, s with
  | S n', String c s' => String c (string_take n' s')
  | _, _ => EmptyString
  end.

Fixpoint string_drop (n : nat) (s : string) : string :=
  match n, s with
  | S n', String _ s' => string_drop n' s'
  | _, _ => s
  end.

(** The loop of [send_message]: [while totalsent < datalen] with the
    outcomes the socket has in store; a socket with nothing in store takes
    all that is left.  Returns the error when [send_failed], the bytes
    taken and the outcomes left.  The test [sent == 0] never holds: the
    buffer passed to [send] is not empty and [Sent] takes a byte or more. *)
Fixpoint send_loop (script : list SendOutcome) (data : string)
  : option string * string * list SendOutcome :=
  match data with
  | EmptyString => (None, EmptyString, script)
  | _ =>
      match script with
      | [] => (None, data, [])
      | Sent n :: script' =>
          let k := Pos.to_nat n in
          let '(failed, taken, rest) := send_loop script' (string_drop k data) in
          (failed, string_take k data +:+ taken, rest)
      | Eagain :: script' => send_loop script' data
      | SocketError e :: script' => (Some e, EmptyString, script')
      end
  end.

(** [list.remove(x)]: the first occurrence goes. *)
Fixpoint list_remove (x : Sock) (l : list Sock) : list Sock :=
  match l with
  | [] => []
  | y :: l' => if decide (x = y) then l' else y :: list_remove x l'
  end.

(** [remove_socket]. *)
Definition remove_socket (sock : Sock) (s : Server) : Server :=
  let s := with_closed (fun c => {[sock]} ∪ c) s in
  if decide (sock ∈ _socks s) then
    with_sock_locks (delete sock)
      (with_waiting_chunks (delete sock)
         (with_socks (list_remove sock) s))
  else s.

(** [add_socket]. *)
Definition add_socket (sock : Sock) (s : Server) : Server :=
  with_sock_locks (insert sock tt)
    (with_waiting_chunks (insert sock EmptyString)
       (with_socks (fun l => l ++ [sock]) s)).

(** [get_sockets]. *)
Definition get_sockets (s : Server) : list Sock := _socks s.

(** Modelled from the spec: [detach], which deregisters the strategy from
    the observers of its sensor. *)
Definition strategy_detach (st : Strategy) (s : Server) : Server :=
  with_sensors (alter (SensorModel.detach (sid st)) (strategy_sensor st)) s.

(** Modelled from the spec: [SampleReactor.remove_strategy], which calls
    [s.detach()] and drops [s] from the set of armed strategies. *)
Definition remove_strategy (st : Strategy) (s : Server) : Server :=
  with_reactor (delete (sid st)) (strategy_detach st s).

(** The first half of [DeviceServer.on_client_disconnect]: the client's
    strategies leave the server's map and the reactor. *)
Definition drop_strategies (sock : Sock) (s : Server) : Server :=
  match _strategies s !! sock with
  | Some strategies =>
      fold_left (fun s' kv => remove_strategy (snd kv) s')
        (map_to_list strategies)
        (with_strategies (delete sock) s)
  | None => s
  end.

(** *** The invariant of the sampling bookkeeping *)

(** What ties the server's strategy map, the reactor and the observers
    of the sensors together: every strategy of the map is armed in the
    reactor and belongs to the pair it is filed under; every armed
    strategy is filed in the map under its own pair; and the observers
    of a sensor are the armed strategies that read it. *)
Definition sampling_invariant (s : Server) : Prop :=
  (forall sock strategies n st,
      _strategies s !! sock = Some strategies -> strategies !! n = Some st ->
      _reactor s !! sid st = Some st /\ strategy_client st = Some sock /\
      strategy_sensor st = n) /\
  (forall id st,
      _reactor s !! id = Some st ->
      sid st = id /\ id < allocated s /\
      exists sock strategies,
        strategy_client st = Some sock /\ _strategies s !! sock = Some strategies /\
        strategies !! strategy_sensor st = Some st) /\
  (forall n sensor id,
      _sensors s !! n = Some sensor ->
      (id ∈ SensorModel._observers sensor <->
       exists st, _reactor s !! id = Some st /\ strategy_sensor st = n)).

(** The strategies armed in the reactor for a client and a sensor. *)
Definition armed_for (s : Server) (sock : Sock) (n : string) (st : Strategy) : Prop :=
  _reactor s !! sid st = Some st /\ strategy_client st = Some sock /\
  strategy_sensor st = n.

Definition same_sampling (s s' : Server) : Prop :=
  _strategies s' = _strategies s /\ _reactor s' = _reactor s /\
  _sensors s' = _sensors s /\ allocated s' = allocated s.

Lemma sampling_invariant_ext s s' :
  same_sampling s s' -> sampling_invariant s -> sampling_invariant s'.
Proof.
  intros (H1 & H2 & H3 & H4). unfold sampling_invariant.
  now rewrite H1, H2, H3, H4.
Qed.

Definition remove_all (l : list (string * Strategy)) (s : Server) : Server :=
  fold_left (fun s' kv => remove_strategy (snd kv) s') l s.

Lemma remove_all_fields l s :
  _strategies (remove_all l s) = _strategies s /\
  allocated (remove_all l s) = allocated s /\
  _reactor (remove_all l s) =
    fold_left (fun r kv => delete (sid (snd kv)) r) l (_reactor s) /\
  _sensors (remove_all l s) =
    fold_left (fun m kv =>
                 alter (SensorModel.detach (sid (snd kv))) (strategy_sensor (snd kv)) m)
      l (_sensors s).
Proof.
  unfold remove_all. revert s. induction l as [|kv l IH]; intros s; [auto|].
  cbn [fold_left]. destruct (IH (remove_strategy (snd kv) s)) as (-> & -> & -> & ->).
  auto.
Qed.

Lemma lookup_fold_delete (l : list (string * Strategy)) (r : gmap nat Strategy) id st :
  fold_left (fun r kv => delete (sid (snd kv)) r) l r !! id = Some st <->
  r !! id = Some st /\ ~ exists kv, kv ∈ l /\ sid (snd kv) = id.
Proof.
  revert r. induction l as [|kv l IH]; intros r; cbn [fold_left].
  - split; [|tauto]. intros H. split; [exact H|]. intros (kv & Hin & _). inversion Hin.
  - rewrite IH, lookup_delete_Some. split.
    + intros [[Hne Hr] Hno]. split; [exact Hr|].
      intros (kv' & Hin & Heq). apply elem_of_cons in Hin as [-> | Hin].
      * contradiction.
      * apply Hno. eauto.
    + intros [Hr Hno]. split; [split; [|exact Hr]|].
      * intros Heq. apply Hno. exists kv. split; [left | exact Heq].
      * intros (kv' & Hin & Heq). apply Hno. exists kv'. split; [now right | exact Heq].
Qed.

Lemma lookup_fold_detach (l : list (string * Strategy))
    (m : gmap string SensorModel.Sensor) n sensor' :
  fold_left (fun m kv =>
               alter (SensorModel.detach (sid (snd kv))) (strategy_sensor (snd kv)) m)
    l m !! n = Some sensor' ->
  exists sensor, m !! n = Some sensor /\
    forall id, id ∈ SensorModel._observers sensor' <->
               id ∈ SensorModel._observers sensor /\
               ~ exists kv, kv ∈ l /\ strategy_sensor (snd kv) = n /\ sid (snd kv) = id.
Proof.
  revert m sensor'. induction l as [|kv l IH]; intros m sensor'; cbn [fold_left].
  - intros H. exists sensor'. split; [exact H|]. intros id. split; [|tauto].
    intros Hid. split; [exact Hid|]. intros (kv & Hin & _). inversion Hin.
  - intros H. apply IH in H as (sensor1 & H1 & Hobs).
    destruct (decide (strategy_sensor (snd kv) = n)) as [Heq|Hne].
    + subst n. rewrite lookup_alter_eq in H1.
      destruct (m !! strategy_sensor (snd kv)) as [sensor|] eqn:Hm; [|discriminate].
      cbn in H1. injection H1 as <-. exists sensor. split; [reflexivity|].
      intros id. rewrite Hobs. cbn. rewrite elem_of_difference, elem_of_singleton.
      split.
      * intros [[Hin Hne] Hno]. split; [exact Hin|].
        intros (kv' & Hin' & Hs & Hi). apply elem_of_cons in Hin' as [-> | Hin'].
        -- now apply Hne.
        -- apply Hno. exists kv'. auto.
      * intros [Hin Hno]. split; [split; [exact Hin|]|].
        -- intros ->. apply Hno. exists kv. split; [left|]. auto.
        -- intros (kv' & Hin' & Hs & Hi). apply Hno. exists kv'.
           split; [now right|]. auto.
    + rewrite lookup_alter_ne in H1 by exact Hne. exists sensor1.
      split; [exact H1|]. intros id. rewrite Hobs. split.
      * intros [Hin Hno]. split; [exact Hin|].
        intros (kv' & Hin' & Hs & Hi). apply elem_of_cons in Hin' as [-> | Hin'].
        -- contradiction.
        -- apply Hno. eauto.
      * intros [Hin Hno]. split; [exact Hin|].
        intros (kv' & Hin' & Hs & Hi). apply Hno. exists kv'.
        split; [now right|]. auto.
Qed.

Lemma lookup_fold_detach_None (l : list (string * Strategy))
    (m : gmap string SensorModel.Sensor) n :
  fold_left (fun m kv =>
               alter (SensorModel.detach (sid (snd kv))) (strategy_sensor (snd kv)) m)
    l m !! n = None -> m !! n = None.
Proof.
  revert m. induction l as [|kv l IH]; intros m; cbn [fold_left]; [auto|].
  intros H. apply IH in H.
  destruct (decide (strategy_sensor (snd kv) = n)) as [<-|Hne].
  - rewrite lookup_alter_eq in H. now destruct (m !! _).
  - now rewrite lookup_alter_ne in H.
Qed.

(** Dropping a client's strategies keeps the invariant and leaves none of
    them armed. *)
Lemma drop_strategies_invariant sock s :
  sampling_invariant s ->
  sampling_invariant (drop_strategies sock s) /\
  _strategies (drop_strategies sock s) !! sock = None /\
  (forall id st, _reactor (drop_strategies sock s) !! id = Some st ->
                 _reactor s !! id = Some st /\ strategy_client st <> Some sock) /\
  allocated (drop_strategies sock s) = allocated s.
Proof.
  intros (I1 & I2 & I3). unfold drop_strategies.
  destruct (_strategies s !! sock) as [strategies|] eqn:Hs.
  2:{ split; [exact (conj I1 (conj I2 I3))|]. split; [exact Hs|]. split; [|reflexivity].
      intros id st Hr. split; [exact Hr|]. intros Hc.
      destruct (I2 id st Hr) as (_ & _ & sock' & strategies' & Hc' & Hs' & _).
      congruence. }
  fold (remove_all (map_to_list strategies) (with_strategies (delete sock) s)).
  destruct (remove_all_fields (map_to_list strategies)
              (with_strategies (delete sock) s)) as (Es & Ea & Er & Esens).
  cbn in Es, Ea, Er, Esens.
  set (s' := remove_all _ _) in *.
  assert (Hl : forall kv, kv ∈ map_to_list strategies ->
                 strategies !! fst kv = Some (snd kv)).
  { intros [n st] Hin. now apply elem_of_map_to_list in Hin. }
  assert (Hr : forall id st, _reactor s' !! id = Some st <->
                 _reactor s !! id = Some st /\ strategy_client st <> Some sock).
  { intros id st. rewrite Er, lookup_fold_delete. cbn. split.
    - intros [Hr Hd]. split; [exact Hr|]. intros Hc. apply Hd.
      destruct (I2 id st Hr) as (Hid & _ & sock' & strategies' & Hc' & Hs' & Hst).
      assert (sock' = sock) by congruence. subst sock'.
      assert (strategies' = strategies) by congruence. subst strategies'.
      exists (strategy_sensor st, st). split; [|exact Hid].
      now apply elem_of_map_to_list.
    - intros [Hr Hc]. split; [exact Hr|]. intros (kv & Hin & <-). apply Hl in Hin.
      destruct (I1 _ _ _ _ Hs Hin) as (Hr' & Hc' & _). congruence. }
  split; [|split; [|split]].
  - split; [|split].
    + intros sock' strategies' n st. rewrite Es. intros Hs' Hst.
      apply lookup_delete_Some in Hs' as [Hne Hs'].
      destruct (I1 _ _ _ _ Hs' Hst) as (Hr' & Hc' & Hn). split; [|auto].
      apply Hr. split; [exact Hr'|congruence].
    + intros id st Hrs. apply Hr in Hrs as [Hrs Hc].
      destruct (I2 id st Hrs) as (Hid & Hlt & sock' & strategies' & Hc' & Hs' & Hst).
      split; [exact Hid|]. split; [now rewrite Ea|].
      exists sock', strategies'. split; [exact Hc'|]. split; [|exact Hst].
      rewrite Es. apply lookup_delete_Some. split; [congruence | exact Hs'].
    + intros n sensor' id. rewrite Esens. intros Hsens.
      apply lookup_fold_detach in Hsens as (sensor & Hsens & Hobs).
      rewrite Hobs, (I3 n sensor id Hsens). split.
      * intros [(st & Hrs & Hn) Hno]. exists st. split; [|exact Hn].
        apply Hr. split; [exact Hrs|]. intros Hc. apply Hno.
        destruct (I2 id st Hrs) as (Hid & _ & sock' & strategies' & Hc' & Hs' & Hst).
        assert (sock' = sock) by congruence. subst sock'.
        assert (strategies' = strategies) by congruence. subst strategies'.
        exists (strategy_sensor st, st). split; [now apply elem_of_map_to_list|].
        auto.
      * intros (st & Hrs & Hn). apply Hr in Hrs as [Hrs Hc]. split; [eauto|].
        intros (kv & Hin & _ & Hid). apply Hl in Hin.
        destruct (I1 _ _ _ _ Hs Hin) as (Hr' & Hc' & _).
        rewrite Hid in Hr'. congruence.
  - rewrite Es. apply lookup_delete_eq.
  - intros id st Hrs. now apply Hr.
  - exact Ea.
Qed.
(** [s'] comes after [s]: the invariant holds, nothing new is armed and
    no client's strategy map has changed other than by being dropped. *)
Definition after (s s' : Server) : Prop :=
  sampling_invariant s' /\
  (forall id st, _reactor s' !! id = Some st -> _reactor s !! id = Some st) /\
  (forall sock strategies,
      _strategies s' !! sock = Some strategies ->
      _strategies s !! sock = Some strategies) /\
  allocated s' = allocated s.

Lemma after_refl s : sampling_invariant s -> after s s.
Proof. intros H. split; [exact H|]. auto. Qed.

Lemma after_trans s1 s2 s3 : after s1 s2 -> after s2 s3 -> after s1 s3.
Proof.
  intros (_ & R1 & S1 & A1) (I & R2 & S2 & A2).
  split; [exact I|]. split; [auto|]. split; [auto | congruence].
Qed.

Lemma after_same s s' : same_sampling s s' -> sampling_invariant s -> after s s'.
Proof.
  intros Hsame HI. split; [eapply sampling_invariant_ext; eauto|].
  destruct Hsame as (-> & -> & _ & ->). auto.
Qed.

Lemma drop_strategies_after sock s :
  sampling_invariant s -> after s (drop_strategies sock s).
Proof.
  intros HI. destruct (drop_strategies_invariant sock s HI) as (HI' & _ & Hr & Ha).
  split; [exact HI'|]. split; [intros id st H; now apply Hr|]. split; [|exact Ha].
  intros sock' strategies. unfold drop_strategies.
  destruct (_strategies s !! sock) as [strategies0|] eqn:Hs; [|auto].
  fold (remove_all (map_to_list strategies0) (with_strategies (delete sock) s)).
  destruct (remove_all_fields (map_to_list strategies0)
              (with_strategies (delete sock) s)) as (-> & _).
  cbn. intros H. now apply lookup_delete_Some in H as [_ H].
Qed.

(** The state in which a new strategy is installed for a client and a
    sensor: the previous one removed from the reactor, the new one filed,
    armed and attached. *)
Definition removed_old (strategies : gmap string Strategy) (n : string)
    (s : Server) : Server :=
  match strategies !! n with
  | Some old_strategy => remove_strategy old_strategy s
  | None => s
  end.

Definition installed (sock : Sock) (n : string) (new_strategy : Strategy)
    (strategies : gmap string Strategy) (s : Server) : Server :=
  with_sensors (alter (SensorModel.attach (sid new_strategy)) n)
    (with_reactor (insert (sid new_strategy) new_strategy)
       (with_strategies (insert sock (<[n := new_strategy]> strategies))
          (removed_old strategies n (with_allocated S s)))).

Definition uninstalled (sock : Sock) (n : string)
    (strategies : gmap string Strategy) (s : Server) : Server :=
  match strategies !! n with
  | Some _ =>
      with_strategies (insert sock (delete n strategies))
        (removed_old strategies n (with_allocated S s))
  | None => with_allocated S s
  end.

Lemma removed_old_fields strategies n s sock :
  sampling_invariant s -> _strategies s !! sock = Some strategies ->
  let s' := removed_old strategies n s in
  _strategies s' = _strategies s /\ allocated s' = allocated s /\
  (forall id st, _reactor s' !! id = Some st <->
                 _reactor s !! id = Some st /\ strategies !! n <> Some st) /\
  (forall n', n' <> n -> _sensors s' !! n' = _sensors s !! n') /\
  (forall sensor', _sensors s' !! n = Some sensor' ->
     exists sensor, _sensors s !! n = Some sensor /\
       forall id, id ∈ SensorModel._observers sensor' <->
                  id ∈ SensorModel._observers sensor /\
                  forall old, strategies !! n = Some old -> sid old <> id).
Proof.
  intros (I1 & I2 & I3) Hs. unfold removed_old. cbv zeta.
  destruct (strategies !! n) as [old|] eqn:Hold.
  - destruct (I1 _ _ _ _ Hs Hold) as (Hr & Hc & Hn).
    cbn. split; [reflexivity|]. split; [reflexivity|]. split; [|split].
    + intros id st. rewrite lookup_delete_Some. split.
      * intros [Hne H]. split; [exact H|]. intros [= ->].
        destruct (I2 _ _ H) as (Hid & _). congruence.
      * intros [H Hne]. split; [|exact H]. intros <-. congruence.
    + intros n' Hne. rewrite Hn. now rewrite lookup_alter_ne.
    + intros sensor'. rewrite Hn, lookup_alter_eq.
      destruct (_sensors s !! n) as [sensor|]; [|discriminate].
      cbn. intros [= <-]. exists sensor. split; [reflexivity|]. intros id.
      cbn. rewrite elem_of_difference, elem_of_singleton. split.
      * intros [Hin Hne]. split; [exact Hin|]. intros old' [= <-]. congruence.
      * intros [Hin Hne]. split; [exact Hin|]. intros ->. now apply (Hne old).
  - split; [reflexivity|]. split; [reflexivity|]. split; [|split].
    + intros id st. split; [|tauto]. intros H. split; [exact H | discriminate].
    + reflexivity.
    + intros sensor' H. exists sensor'. split; [exact H|]. intros id.
      split; [|tauto]. intros Hin. split; [exact Hin | discriminate].
Qed.

Lemma with_allocated_invariant s :
  sampling_invariant s -> sampling_invariant (with_allocated S s).
Proof.
  intros (I1 & I2 & I3). split; [exact I1|]. split; [|exact I3].
  intros id st H. destruct (I2 id st H) as (Hid & Hlt & Hex). cbn.
  split; [exact Hid|]. split; [lia | exact Hex].
Qed.
Lemma installed_invariant sock n new_strategy strategies s :
  sampling_invariant s -> _strategies s !! sock = Some strategies ->
  sid new_strategy = allocated s ->
  strategy_client new_strategy = Some sock ->
  strategy_sensor new_strategy = n ->
  let s' := installed sock n new_strategy strategies s in
  sampling_invariant s' /\
  _strategies s' !! sock = Some (<[n := new_strategy]> strategies) /\
  _reactor s' !! sid new_strategy = Some new_strategy /\
  (forall old, strategies !! n = Some old -> _reactor s' !! sid old = None).
Proof.
  intros HI Hs Hid Hc Hn.
  pose proof (with_allocated_invariant s HI) as HI1.
  destruct HI as (I1 & I2 & I3).
  destruct (removed_old_fields strategies n (with_allocated S s) sock HI1 Hs)
    as (Es & Ea & Er & Eother & Esame).
  unfold installed. cbv zeta. cbn in Es, Ea, Er, Eother, Esame |- *.
  set (s2 := removed_old strategies n (with_allocated S s)) in *.
  assert (Hfresh : forall st, _reactor s !! sid st = Some st -> sid st <> sid new_strategy).
  { intros st H. destruct (I2 _ _ H) as (_ & Hlt & _). lia. }
  split; [|split; [|split]].
  - split; [|split].
    + intros sock' strategies' n' st. cbn. rewrite Es.
      destruct (decide (sock' = sock)) as [->|Hne].
      * rewrite lookup_insert_eq. intros [= <-].
        destruct (decide (n' = n)) as [->|Hnn].
        -- rewrite lookup_insert_eq. intros H. injection H as H. subst st.
           rewrite lookup_insert_eq. auto.
        -- rewrite lookup_insert_ne by congruence. intros Hst.
           destruct (I1 _ _ _ _ Hs Hst) as (Hr & Hc' & Hn').
           split; [|auto]. rewrite lookup_insert_ne by (apply not_eq_sym; auto).
           apply Er. split; [exact Hr|]. intros Hold.
           destruct (I1 _ _ _ _ Hs Hold) as (_ & _ & Hn''). congruence.
      * rewrite lookup_insert_ne by congruence. intros Hs' Hst.
        destruct (I1 _ _ _ _ Hs' Hst) as (Hr & Hc' & Hn').
        split; [|auto]. rewrite lookup_insert_ne by (apply not_eq_sym; auto).
        apply Er. split; [exact Hr|]. intros Hold.
        destruct (I1 _ _ _ _ Hs Hold) as (_ & Hc'' & _). congruence.
    + intros id st. cbn. rewrite Ea. cbn.
      destruct (decide (id = sid new_strategy)) as [->|Hne].
      * rewrite lookup_insert_eq. intros H. injection H as H. subst st.
        split; [reflexivity|].
        split; [lia|]. exists sock, (<[n := new_strategy]> strategies).
        rewrite Es, lookup_insert_eq, Hn, lookup_insert_eq. auto.
      * rewrite lookup_insert_ne by congruence. intros Hr.
        apply Er in Hr as [Hr Hnold].
        destruct (I2 _ _ Hr) as (Hsid & Hlt & sock' & strategies' & Hc' & Hs' & Hst).
        split; [exact Hsid|]. split; [lia|]. rewrite Es.
        destruct (decide (sock' = sock)) as [->|Hnes].
        -- exists sock, (<[n := new_strategy]> strategies).
           rewrite lookup_insert_eq. split; [exact Hc'|]. split; [reflexivity|].
           assert (strategies' = strategies) by congruence. subst strategies'.
           rewrite lookup_insert_ne; [exact Hst|]. intros Heq. apply Hnold.
           rewrite Heq. exact Hst.
        -- exists sock', strategies'. rewrite lookup_insert_ne by congruence. auto.
    + intros n' sensor' id. cbn.
      destruct (decide (n' = n)) as [->|Hnn].
      * rewrite lookup_alter_eq.
        destruct (_sensors s2 !! n) as [sensor2|] eqn:H2; [|discriminate].
        cbn. intros [= <-]. destruct (Esame _ eq_refl) as (sensor & Hsens & Hobs).
        cbn. rewrite elem_of_union, elem_of_singleton, Hobs, (I3 _ _ id Hsens).
        split.
        -- intros [-> | [(st & Hr & Hst) Hnold]].
           ++ exists new_strategy. rewrite lookup_insert_eq. auto.
           ++ exists st. split; [|exact Hst].
              destruct (I2 _ _ Hr) as (Hsid & _). subst id.
              rewrite lookup_insert_ne by (apply not_eq_sym; auto).
              apply Er. split; [exact Hr|]. intros Hold. now apply (Hnold st).
        -- intros (st & Hr & Hst).
           destruct (decide (id = sid new_strategy)) as [->|Hne]; [now left|].
           right. rewrite lookup_insert_ne in Hr by congruence.
           apply Er in Hr as [Hr Hnold]. split; [eauto|].
           intros old Hold Hsid. destruct (I1 _ _ _ _ Hs Hold) as (Hr' & _).
           rewrite Hsid in Hr'. congruence.
      * rewrite lookup_alter_ne by congruence. rewrite (Eother n' Hnn).
        intros Hsens. rewrite (I3 _ _ id Hsens). split.
        -- intros (st & Hr & Hst). exists st. split; [|exact Hst].
           destruct (I2 _ _ Hr) as (Hsid & _). subst id.
           rewrite lookup_insert_ne by (apply not_eq_sym; auto).
           apply Er. split; [exact Hr|]. intros Hold.
           destruct (I1 _ _ _ _ Hs Hold) as (_ & _ & Hn'). congruence.
        -- intros (st & Hr & Hst).
           destruct (decide (id = sid new_strategy)) as [->|Hne].
           ++ rewrite lookup_insert_eq in Hr. injection Hr as Hr. subst st. congruence.
           ++ rewrite lookup_insert_ne in Hr by congruence.
              apply Er in Hr as [Hr _]. eauto.
  - cbn. rewrite lookup_insert_eq. reflexivity.
  - cbn. apply lookup_insert_eq.
  - intros old Hold. cbn. destruct (I1 _ _ _ _ Hs Hold) as (Hr & _).
    rewrite lookup_insert_ne by (apply not_eq_sym; auto).
    destruct (_reactor s2 !! sid old) as [st|] eqn:E; [|reflexivity].
    apply Er in E as [E Hne]. congruence.
Qed.

Lemma uninstalled_invariant sock n strategies s :
  sampling_invariant s -> _strategies s !! sock = Some strategies ->
  let s' := uninstalled sock n strategies s in
  sampling_invariant s' /\
  _strategies s' !! sock = Some (delete n strategies) /\
  (forall old, strategies !! n = Some old -> _reactor s' !! sid old = None).
Proof.
  intros HI Hs.
  pose proof (with_allocated_invariant s HI) as HI1.
  destruct (removed_old_fields strategies n (with_allocated S s) sock HI1 Hs)
    as (Es & Ea & Er & Eother & Esame).
  destruct HI as (I1 & I2 & I3).
  unfold uninstalled. cbv zeta. cbn in Es, Ea, Er, Eother, Esame |- *.
  destruct (strategies !! n) as [old|] eqn:Hold.
  2:{ split; [exact HI1|]. cbn. split; [|discriminate].
      rewrite Hs. f_equal. symmetry. now apply delete_id. }
  set (s2 := removed_old strategies n (with_allocated S s)) in *.
  split; [|split].
  - split; [|split].
    + intros sock' strategies' n' st. cbn. rewrite Es.
      destruct (decide (sock' = sock)) as [->|Hne].
      * rewrite lookup_insert_eq. intros [= <-]. rewrite lookup_delete_Some.
        intros [Hnn Hst]. destruct (I1 _ _ _ _ Hs Hst) as (Hr & Hc' & Hn').
        split; [|auto]. apply Er. split; [exact Hr|]. intros H.
        injection H as H. subst st.
        destruct (I1 _ _ _ _ Hs Hold) as (_ & _ & Hn''). congruence.
      * rewrite lookup_insert_ne by congruence. intros Hs' Hst.
        destruct (I1 _ _ _ _ Hs' Hst) as (Hr & Hc' & Hn').
        split; [|auto]. apply Er. split; [exact Hr|]. intros H.
        injection H as H. subst st.
        destruct (I1 _ _ _ _ Hs Hold) as (_ & Hc'' & _). congruence.
    + intros id st. cbn. rewrite Ea. cbn. intros Hr.
      apply Er in Hr as [Hr Hnold].
      destruct (I2 _ _ Hr) as (Hsid & Hlt & sock' & strategies' & Hc' & Hs' & Hst).
      split; [exact Hsid|]. split; [lia|]. rewrite Es.
      destruct (decide (sock' = sock)) as [->|Hnes].
      * exists sock, (delete n strategies).
        rewrite lookup_insert_eq. split; [exact Hc'|]. split; [reflexivity|].
        assert (strategies' = strategies) by congruence. subst strategies'.
        apply lookup_delete_Some. split; [|exact Hst].
        intros Heq. apply Hnold. rewrite <- Hold, Heq. exact Hst.
      * exists sock', strategies'. rewrite lookup_insert_ne by congruence. auto.
    + intros n' sensor' id. cbn.
      destruct (decide (n' = n)) as [->|Hnn].
      * intros H2. destruct (Esame _ H2) as (sensor & Hsens & Hobs).
        rewrite Hobs, (I3 _ _ id Hsens). split.
        -- intros [(st & Hr & Hst) Hnold]. exists st. split; [|exact Hst].
           apply Er. split; [exact Hr|]. intros H. injection H as H. subst st.
           destruct (I2 _ _ Hr) as (Hsid & _). now apply (Hnold old).
        -- intros (st & Hr & Hst). apply Er in Hr as [Hr Hnold]. split; [eauto|].
           intros old' [= <-] Hsid. destruct (I1 _ _ _ _ Hs Hold) as (Hr' & _).
           rewrite Hsid in Hr'. congruence.
      * rewrite (Eother n' Hnn). intros Hsens. rewrite (I3 _ _ id Hsens). split.
        -- intros (st & Hr & Hst). exists st. split; [|exact Hst].
           apply Er. split; [exact Hr|]. intros H. injection H as H. subst st.
           destruct (I1 _ _ _ _ Hs Hold) as (_ & _ & Hn'). congruence.
        -- intros (st & Hr & Hst). apply Er in Hr as [Hr _]. eauto.
  - cbn. rewrite lookup_insert_eq. reflexivity.
  - intros old' [= <-]. cbn.
    destruct (_reactor s2 !! sid old) as [st|] eqn:E; [|reflexivity].
    apply Er in E as [E Hne]. destruct (I1 _ _ _ _ Hs Hold) as (Hr & _). congruence.
Qed.
Section DeviceServer.

#[local] Set Default Proof Using "Type".

(** [self._tb_limit] and [traceback.format_exception] with that limit. *)
Variable _tb_limit : nat.
Variable format_exception : Exception -> nat -> list string.

(** [sock.getpeername()] as printed; [None] when it raises [socket.error]. *)
Variable getpeername : Sock -> option string.

(** [str(int(time.time() * 1000.0))] as read in a given state. *)
Variable time_ms : Server -> string.

(** Modelled from the spec: [Sensor.read_formatted] needs the encoders of
    [kattypes.py]; it gives the timestamp in ms, status name and value. *)
Variable read_formatted : SensorModel.Sensor -> string * string * string.

(** Modelled from the spec: the parameter checks [SampleStrategy.get_strategy]
    makes for a kind and a sensor ([false]: it raises [ValueError]). *)
Variable strategy_params_ok :
  StrategyKind -> SensorModel.Sensor -> list string -> bool.

(** The handler tables the metaclass fills: for each request name the
    docstring of its method, and the method bodies by name. *)
Variable _request_handlers : gmap string string.
Variable call_request : string -> Sock -> Message -> M Message.
Variable _inform_handlers : gset string.
Variable call_inform : string -> Sock -> Message -> M unit.
Variable _reply_handlers : gset string.
Variable call_reply : string -> Sock -> Message -> M unit.

Definition client_name (sock : Sock) : string :=
  match getpeername sock with
  | Some n => n
  | None => "<disconnected client>"
  end.

(** [send_message].  The per-socket lock is taken around the loop; the
    model runs one call at a time.  A failed send ends with
    [on_client_disconnect(sock, msg, False)], which for a [DeviceServer]
    is [drop_strategies] (no [#disconnect] inform: the socket is gone). *)
Definition send_message (sock : Sock) (msg : Message) (s : Server) : Server :=
  let data := Message_str msg +:+ String LF "" in
  let s := log LOG_DEBUG data s in
  match _sock_locks s !! sock with
  | None =>
      log LOG_WARN
        ("Attempt to send to a socket " +:+ client_name sock +:+
         " which is no longer a client.") s
  | Some _ =>
      let script := default [] (pending s !! sock) in
      let '(send_failed, taken, rest) := send_loop script data in
      let s := with_pending (insert sock rest) (transmit sock taken s) in
      match send_failed with
      | Some e =>
          let text := "Failed to send message to client " +:+ client_name sock +:+
                      " (" +:+ e +:+ ")" in
          drop_strategies sock (remove_socket sock (log LOG_ERROR text s))
      | None => s
      end
  end.

(** [inform]. *)
Definition inform (sock : Sock) (msg : Message) : M unit :=
  match mtype msg with
  | INFORM => modify (send_message sock msg)
  | _ => raise AssertionError
  end.

(** [mass_inform]; the listening socket is never among [_socks]. *)
Fixpoint inform_each (socks : list Sock) (msg : Message) : M unit :=
  match socks with
  | [] => ret tt
  | sock :: socks' => inform sock msg ;;; inform_each socks' msg
  end.

Definition mass_inform (msg : Message) : M unit :=
  match mtype msg with
  | INFORM => fun s => inform_each (_socks s) msg s
  | _ => raise AssertionError
  end.

(** [_log_msg]. *)
Definition _log_msg (level_name msg name : string) : M Message :=
  fun s => Message_inform "log" [level_name; time_ms s; name; msg] s.

(** [DeviceServer.on_client_disconnect]. *)
Definition on_client_disconnect (sock : Sock) (msg : string) (sock_valid : bool)
  : M unit :=
  modify (drop_strategies sock) ;;;
  if sock_valid then
    m <- Message_inform "disconnect" [msg] ;; inform sock m
  else ret tt.

(** [version()] and [build_state()] with the class defaults. *)
Definition version : string := "device_stub-0.1".
Definition build_state : string := "name-0.1".

(** [DeviceServer.on_client_connect]. *)
Definition on_client_connect (sock : Sock) : M unit :=
  modify (with_strategies (insert sock ∅)) ;;;
  v <- Message_inform "version" [version] ;;
  inform sock v ;;;
  b <- Message_inform "build-state" [build_state] ;;
  inform sock b.

(** [handle_request]. *)
Definition handle_request (sock : Sock) (msg : Message) : M unit :=
  fun s =>
    match _request_handlers !! name msg with
    | Some _ =>
        match call_request (name msg) sock msg s with
        | (inr reply, s1) =>
            match mtype reply, String.eqb (name reply) (name msg) with
            | REPLY, true =>
                (inr tt, send_message sock reply (log LOG_INFO (name msg +:+ " OK") s1))
            | _, _ =>
                let reason := join_lines (format_exception AssertionError _tb_limit) in
                let s2 := log LOG_ERROR
                            ("Request " +:+ name msg +:+ " FAIL: " +:+ reason) s1 in
                (r <- Message_reply (name msg) ["fail"; reason] ;;
                 modify (send_message sock r)) s2
            end
        | (inl AsyncReply, s1) =>
            (inr tt, log LOG_INFO (name msg +:+ " ASYNC OK") s1)
        | (inl (FailReply reason), s1) =>
            let s2 := log LOG_ERROR
                        ("Request " +:+ name msg +:+ " FAIL: " +:+ reason) s1 in
            (r <- Message_reply (name msg) ["fail"; reason] ;;
             modify (send_message sock r)) s2
        | (inl e, s1) =>
            let reason := join_lines (format_exception e _tb_limit) in
            let s2 := log LOG_ERROR
                        ("Request " +:+ name msg +:+ " FAIL: " +:+ reason) s1 in
            (r <- Message_reply (name msg) ["fail"; reason] ;;
             modify (send_message sock r)) s2
        end
    | None =>
        let s1 := log LOG_ERROR (name msg +:+ " INVALID: Unknown request.") s in
        (r <- Message_reply (name msg) ["invalid"; "Unknown request."] ;;
         modify (send_message sock r)) s1
    end.

(** [handle_inform]. *)
Definition handle_inform (sock : Sock) (msg : Message) : M unit :=
  fun s =>
    if decide (name msg ∈ _inform_handlers) then
      match call_inform (name msg) sock msg s with
      | (inr tt, s1) => (inr tt, s1)
      | (inl e, s1) =>
          let reason := join_lines (format_exception e _tb_limit) in
          (inr tt, log LOG_ERROR ("Inform " +:+ name msg +:+ " FAIL: " +:+ reason) s1)
      end
    else (inr tt, log LOG_WARN (name msg +:+ " INVALID: Unknown inform.") s).

(** [handle_reply]. *)
Definition handle_reply (sock : Sock) (msg : Message) : M unit :=
  fun s =>
    if decide (name msg ∈ _reply_handlers) then
      match call_reply (name msg) sock msg s with
      | (inr tt, s1) => (inr tt, s1)
      | (inl e, s1) =>
          let reason := join_lines (format_exception e _tb_limit) in
          (inr tt, log LOG_ERROR ("Reply " +:+ name msg +:+ " FAIL: " +:+ reason) s1)
      end
    else (inr tt, log LOG_WARN (name msg +:+ " INVALID: Unknown reply.") s).

(** [handle_message]; a [MessageType] has no fourth case. *)
Definition handle_message (sock : Sock) (msg : Message) : M unit :=
  modify (log LOG_DEBUG (Message_str msg)) ;;;
  match mtype msg with
  | REQUEST => handle_request sock msg
  | INFORM => handle_inform sock msg
  | REPLY => handle_reply sock msg
  end.

(** [chunk.replace("\r", "\n")]. *)
Fixpoint replace_cr (chunk : string) : string :=
  match chunk with
  | EmptyString => EmptyString
  | String c rest =>
      String (if Ascii.eqb c CR then LF else c) (replace_cr rest)
  end.

(** [chunk.split("\n")]. *)
Fixpoint split_lf (chunk : string) : list string :=
  match chunk with
  | EmptyString => [EmptyString]
  | String c rest =>
      if Ascii.eqb c LF then EmptyString :: split_lf rest
      else match split_lf rest with
           | f :: fs => String c f :: fs
           | [] => [String c EmptyString]
           end
  end.

(** The [try: parse ... except ... else ...] of [handle_chunk]: a line
    that fails to parse is reported to the client in a [#log error]
    inform, a line that parses is dispatched. *)
Definition feed_codec (sock : Sock) (full_line : string) : M unit :=
  match parse full_line with
  | inl e =>
      let reason := join_lines (format_exception (SyntaxError e) _tb_limit) in
      modify (log LOG_ERROR ("BAD COMMAND: " +:+ reason)) ;;;
      m <- _log_msg "error" reason "root" ;;
      inform sock m
  | inr msg => handle_message sock msg
  end.

(** The body of the loop of [handle_chunk]: [if full_line: ...]. *)
Definition handle_line (sock : Sock) (full_line : string) : M unit :=
  match full_line with
  | EmptyString => ret tt
  | _ => feed_codec sock full_line
  end.

(** [for line in lines[:-1]], with the running [waiting_chunk]. *)
Fixpoint handle_lines (sock : Sock) (lines : list string) (waiting_chunk : string)
  : M string :=
  match lines with
  | [] => ret waiting_chunk
  | line :: lines' =>
      handle_line sock (waiting_chunk +:+ line) ;;;
      handle_lines sock lines' EmptyString
  end.

(** [if sock in self._waiting_chunks: self._waiting_chunks[sock] = tail]. *)
Definition retain (sock : Sock) (tail : string) (s : Server) : Server :=
  match _waiting_chunks s !! sock with
  | Some _ => with_waiting_chunks (insert sock tail) s
  | None => s
  end.

(** [handle_chunk]. *)
Definition handle_chunk (sock : Sock) (chunk : string) : M unit :=
  fun s =>
    let lines := split_lf (replace_cr chunk) in
    let waiting_chunk := default EmptyString (_waiting_chunks s !! sock) in
    (waiting_chunk <- handle_lines sock (List.removelast lines) waiting_chunk ;;
     modify (retain sock (waiting_chunk +:+ List.last lines EmptyString))) s.

(** *** Built-in requests *)

Definition item_le (x y : string * string) : Prop :=
  String.leb (fst x) (fst y) = true.

#[local] Instance item_le_dec x y : Decision (item_le x y).
Proof. unfold item_le. apply _. Defined.

(** [sorted(d.items())] for a dictionary with string keys. *)
Definition sorted_items (d : gmap string string) : list (string * string) :=
  merge_sort item_le (map_to_list d).

(** [str(n)] for a length. *)
Definition str_of_nat (n : nat) : string := NilZero.string_of_uint (Nat.to_uint n).

(** The bytes [str.strip()] removes. *)
Definition isspace (c : ascii) : bool :=
  let n := nat_of_ascii c in ((9 <=? n)%nat && (n <=? 13)%nat) || (n =? 32)%nat.

Fixpoint lstrip (s : string) : string :=
  match s with
  | EmptyString => EmptyString
  | String c s' => if isspace c then lstrip s' else s
  end.

Fixpoint rstrip (s : string) : string :=
  match s with
  | EmptyString => EmptyString
  | String c s' =>
      match rstrip s' with
      | EmptyString => if isspace c then EmptyString else String c EmptyString
      | r => String c r
      end
  end.

Definition strip (s : string) : string := rstrip (lstrip s).

(** The loop of [request_help] over the sorted handlers. *)
Fixpoint inform_help_each (sock : Sock) (items : list (string * string)) : M unit :=
  match items with
  | [] => ret tt
  | (n, doc) :: items' =>
      (m <- Message_inform "help" [n; doc] ;; inform sock m) ;;;
      inform_help_each sock items'
  end.

(** [request_help]. *)
Definition request_help (sock : Sock) (msg : Message) : M Message :=
  match arguments msg with
  | [] =>
      inform_help_each sock (sorted_items _request_handlers) ;;;
      Message_reply "help" ["ok"; str_of_nat (size _request_handlers)]
  | n :: _ =>
      match _request_handlers !! n with
      | Some doc =>
          (m <- Message_inform "help" [n; strip doc] ;; inform sock m) ;;;
          Message_reply "help" ["ok"; "1"]
      | None => Message_reply "help" ["fail"; "Unknown request method."]
      end
  end.

(** [request_watchdog]. *)
Definition request_watchdog (sock : Sock) (msg : Message) : M Message :=
  Message_reply "watchdog" ["ok"].

(** Modelled from the spec: the names of the strategy kinds
    ([SampleStrategy.SAMPLING_LOOKUP] and [SAMPLING_LOOKUP_REV]). *)
Definition SAMPLING_LOOKUP (k : StrategyKind) : string :=
  match k with
  | NONE => "none"
  | AUTO => "auto"
  | EVENT => "event"
  | DIFFERENTIAL => "differential"
  | PERIOD => "period"
  end.

Definition SAMPLING_LOOKUP_REV (n : string) : option StrategyKind :=
  if String.eqb n "none" then Some NONE
  else if String.eqb n "auto" then Some AUTO
  else if String.eqb n "event" then Some EVENT
  else if String.eqb n "differential" then Some DIFFERENTIAL
  else if String.eqb n "period" then Some PERIOD
  else None.

(** Modelled from the spec: [SampleStrategy.get_strategy], the factory that
    rejects ill-formed parameters and otherwise makes a new strategy
    object for the sensor registered under [sensor_name]. *)
Definition get_strategy (k : StrategyKind) (callback : option Sock)
    (sensor_name : string) (sensor : SensorModel.Sensor) (params : list string)
  : M Strategy :=
  fun s =>
    if strategy_params_ok k sensor params then
      (inr (mkStrategy (allocated s) k params sensor_name callback),
       with_allocated S s)
    else (inl (ValueError "bad strategy parameters"), s).

(** Modelled from the spec: [get_sampling_formatted], the kind's name and
    the parameters. *)
Definition get_sampling_formatted (st : Strategy) : string * list string :=
  (SAMPLING_LOOKUP (kind st), strategy_params st).

(** Modelled from the spec: the emission of a strategy,
    [#sensor-status <ts_ms> 1 <name> <status> <value>] through its callback. *)
Definition emit (st : Strategy) : M unit :=
  fun s =>
    match _sensors s !! strategy_sensor st, strategy_client st with
    | Some sensor, Some sock =>
        let '(ts, status, value) := read_formatted sensor in
        (m <- Message_inform "sensor-status"
                [ts; "1"; SensorModel.name sensor; status; value] ;;
         inform sock m) s
    | _, _ => (inr tt, s)
    end.

(** Modelled from the spec: which kinds emit once when installed. *)
Definition emits_on_install (k : StrategyKind) : bool :=
  match k with
  | AUTO | EVENT | DIFFERENTIAL => true
  | NONE | PERIOD => false
  end.

(** Modelled from the spec: [attach], which registers the strategy as an
    observer of its sensor and performs the first emission. *)
Definition strategy_attach (st : Strategy) : M unit :=
  modify (with_sensors (alter (SensorModel.attach (sid st)) (strategy_sensor st))) ;;;
  if emits_on_install (kind st) then emit st else ret tt.

(** Modelled from the spec: [SampleReactor.add_strategy], which inserts
    the strategy and calls its [attach]. *)
Definition add_strategy (st : Strategy) : M unit :=
  modify (with_reactor (insert (sid st) st)) ;;;
  strategy_attach st.

(** [self._strategies[sock]]. *)
Definition client_strategies (sock : Sock) : M (gmap string Strategy) :=
  fun s => match _strategies s !! sock with
           | Some m => (inr m, s)
           | None => (inl KeyError, s)
           end.

(** The branch of [request_sensor_sampling] that sets the strategy. *)
Definition set_sampling (sock : Sock) (n : string) (sensor : SensorModel.Sensor)
    (strategy : string) (params : list string) : M unit :=
  match SAMPLING_LOOKUP_REV strategy with
  | None => raise (FailReply "Unknown strategy name.")
  | Some k =>
      new_strategy <- get_strategy k (Some sock) n sensor params ;;
      strategies <- client_strategies sock ;;
      match strategies !! n with
      | Some old_strategy => modify (remove_strategy old_strategy)
      | None => ret tt
      end ;;;
      match k with
      | NONE =>
          strategies <- client_strategies sock ;;
          match strategies !! n with
          | Some _ => modify (with_strategies (insert sock (delete n strategies)))
          | None => ret tt
          end
      | _ =>
          strategies <- client_strategies sock ;;
          modify (with_strategies (insert sock (<[n := new_strategy]> strategies))) ;;;
          add_strategy new_strategy
      end
  end.

(** [request_sensor_sampling]. *)
Definition request_sensor_sampling (sock : Sock) (msg : Message) : M Message :=
  match arguments msg with
  | [] => raise (FailReply "No sensor name given.")
  | n :: rest =>
      fun s =>
        match _sensors s !! n with
        | None => raise (FailReply "Unknown sensor name.") s
        | Some sensor =>
            (match rest with
             | strategy :: params => set_sampling sock n sensor strategy params
             | [] => ret tt
             end ;;;
             strategies <- client_strategies sock ;;
             current_strategy <-
               match strategies !! n with
               | Some c => ret c
               | None => get_strategy NONE None n sensor []
               end ;;
             let '(strategy, params) := get_sampling_formatted current_strategy in
             Message_reply "sensor-sampling" ("ok" :: n :: strategy :: params)) s
        end
  end.

(** *** C10: sending to a socket that is not a client *)

(** C10. [send_message] to a socket without a send lock returns, sends no
    bytes and leaves the server's data alone (clients, partial buffers,
    locks, strategies, reactor, sensors): it only logs the message at
    debug level and a warning. *)
Theorem send_message_not_client (sock : Sock) (msg : Message) (s : Server) :
  _sock_locks s !! sock = None ->
  let s' := send_message sock msg s in
  wire s' = wire s /\ pending s' = pending s /\ closed s' = closed s /\
  _socks s' = _socks s /\ _waiting_chunks s' = _waiting_chunks s /\
  _sock_locks s' = _sock_locks s /\ _strategies s' = _strategies s /\
  _reactor s' = _reactor s /\ _sensors s' = _sensors s /\
  allocated s' = allocated s /\
  _logger s' =
    _logger s ++
    [(LOG_DEBUG, Message_str msg +:+ String LF "");
     (LOG_WARN, "Attempt to send to a socket " +:+ client_name sock +:+
                " which is no longer a client.")].
Proof.
  intros Hlock. unfold send_message. cbn [log _sock_locks]. rewrite Hlock.
  cbn. rewrite <- app_assoc. repeat split.
Qed.

(** *** C3: the request dispatch contract *)



Lemma construct_valid t n args s :
  valid_name n = true -> construct t n args s = (inr (mkMessage t n args), s).
Proof.
  intros Hn. unfold construct. rewrite Message_init_valid, Hn. reflexivity.
Qed.



(** *** C9: the help enumeration *)

Lemma ascii_compare_eq x y : Ascii.compare x y = Eq -> x = y.
Proof. apply Ascii.compare_eq_iff. Qed.

Lemma string_compare_trans_le a b c :
  String.compare a b <> Gt -> String.compare b c <> Gt -> String.compare a c <> Gt.
Proof.
  revert b c. induction a as [|x a IH]; intros [|y b] [|z c]; cbn; try congruence.
  unfold Ascii.compare.
  destruct (N.compare_spec (N_of_ascii x) (N_of_ascii y)) as [Hxy|Hxy|Hxy];
    destruct (N.compare_spec (N_of_ascii y) (N_of_ascii z)) as [Hyz|Hyz|Hyz];
    try congruence.
  - rewrite Hxy, Hyz, N.compare_refl. apply IH.
  - intros _ _. rewrite Hxy. now apply N.compare_lt_iff in Hyz as ->.
  - intros _ _. rewrite <- Hyz. now apply N.compare_lt_iff in Hxy as ->.
  - intros _ _. assert (H : (N_of_ascii x < N_of_ascii z)%N) by lia.
    now apply N.compare_lt_iff in H as ->.
Qed.

Lemma string_leb_trans a b c :
  String.leb a b = true -> String.leb b c = true -> String.leb a c = true.
Proof.
  unfold String.leb. intros H1 H2.
  pose proof (string_compare_trans_le a b c) as H.
  destruct (String.compare a b); try discriminate;
    destruct (String.compare b c); try discriminate;
    destruct (String.compare a c); try reflexivity; exfalso; now apply H.
Qed.

#[local] Instance item_le_trans : Transitive item_le.
Proof. intros x y z. unfold item_le. apply string_leb_trans. Qed.

#[local] Instance item_le_total : Total item_le.
Proof. intros x y. unfold item_le. apply String.leb_total. Qed.

(** The sorted items: every registered handler once, names ascending. *)
Lemma sorted_items_spec (d : gmap string string) :
  StronglySorted item_le (sorted_items d) /\
  NoDup (map fst (sorted_items d)) /\
  (forall n doc, (n, doc) ∈ sorted_items d <-> d !! n = Some doc) /\
  List.length (sorted_items d) = size d.
Proof.
  unfold sorted_items.
  pose proof (merge_sort_Permutation item_le (map_to_list d)) as Hp.
  repeat split.
  - apply StronglySorted_merge_sort; apply _.
  - change (map fst) with (fmap (M:=list) (@fst string string)).
    rewrite Hp. apply NoDup_fst_map_to_list.
  - rewrite Hp. apply elem_of_map_to_list.
  - rewrite Hp. apply elem_of_map_to_list.
  - rewrite Hp. apply length_map_to_list.
Qed.

Definition help_inform (n doc : string) : Message := mkMessage INFORM "help" [n; doc].

Lemma inform_constructed sock n args s :
  valid_name n = true ->
  (m <- Message_inform n args ;; inform sock m) s =
  (inr tt, send_message sock (mkMessage INFORM n args) s).
Proof.
  intros Hn. unfold bind, Message_inform. rewrite construct_valid by exact Hn.
  reflexivity.
Qed.

Lemma inform_help_each_sends sock items s :
  inform_help_each sock items s =
  (inr tt,
   fold_left (fun s' item => send_message sock (help_inform (fst item) (snd item)) s')
     items s).
Proof.
  revert s. induction items as [|[n doc] items IH]; intros s; [reflexivity|].
  cbn [inform_help_each fold_left]. unfold bind at 1.
  rewrite inform_constructed by reflexivity. apply IH.
Qed.

Lemma request_help_all sock msg s :
  arguments msg = [] ->
  request_help sock msg s =
    (inr (mkMessage REPLY "help"
            ["ok"; str_of_nat (List.length (sorted_items _request_handlers))]),
     fold_left
       (fun s' item => send_message sock (help_inform (fst item) (snd item)) s')
       (sorted_items _request_handlers) s).
Proof.
  intros Hargs. unfold request_help. rewrite Hargs.
  destruct (sorted_items_spec _request_handlers) as (_ & _ & _ & Hlen).
  unfold bind. rewrite inform_help_each_sends, Hlen. reflexivity.
Qed.


(** The whole exchange: [handle_request] on [?help], with [request_help]
    registered under its name, sends the informs and then the reply. *)
Lemma handle_request_help sock msg s :
  name msg = "help" -> arguments msg = [] ->
  is_Some (_request_handlers !! "help") ->
  call_request "help" = request_help ->
  let items := sorted_items _request_handlers in
  handle_request sock msg s =
  (inr tt,
   send_message sock (mkMessage REPLY "help" ["ok"; str_of_nat (List.length items)])
     (log LOG_INFO "help OK"
        (fold_left
           (fun s' item => send_message sock (help_inform (fst item) (snd item)) s')
           items s))).
Proof.
  intros Hname Hargs [doc Hreg] Hcall items.
  unfold handle_request.
  rewrite Hname, Hreg, Hcall, (request_help_all _ _ _ Hargs). reflexivity.
Qed.
(** *** C8: framing of the inbound bytes *)

(** Every line of a list is handed to the codec. *)
Fixpoint feed_lines (sock : Sock) (lines : list string) : M unit :=
  match lines with
  | [] => ret tt
  | line :: lines' => feed_codec sock line ;;; feed_lines sock lines'
  end.

Definition partial_buffer (sock : Sock) (s : Server) : string :=
  default EmptyString (_waiting_chunks s !! sock).


Definition nonempty (line : string) : bool :=
  match line with
  | EmptyString => false
  | _ => true
  end.



Lemma split_lf_nonempty x : split_lf x <> [].
Proof.
  induction x as [|c x IH]; cbn [split_lf]; [discriminate|].
  destruct (Ascii.eqb c LF); [discriminate|].
  destruct (split_lf x); discriminate.
Qed.



Lemma handle_line_feed sock line s :
  handle_line sock line s =
  (if nonempty line then feed_codec sock line else ret tt) s.
Proof. destruct line; reflexivity. Qed.

Lemma handle_lines_feed sock lines s :
  handle_lines sock lines EmptyString s =
  (feed_lines sock (List.filter nonempty lines) ;;; ret EmptyString) s.
Proof.
  revert s. induction lines as [|l lines IH]; intros s; [reflexivity|].
  cbn [handle_lines List.filter]. rewrite append_nil. unfold bind at 1.
  rewrite handle_line_feed. destruct (nonempty l).
  - cbn [feed_lines]. unfold bind.
    destruct (feed_codec sock l s) as [[e|[]] s1]; [reflexivity|].
    specialize (IH s1). unfold bind in IH. exact IH.
  - cbn [ret]. apply IH.
Qed.

Lemma handle_lines_first sock l lines w s :
  handle_lines sock (l :: lines) w s =
  (feed_lines sock (List.filter nonempty ((w +:+ l) :: lines)) ;;; ret EmptyString) s.
Proof.
  cbn [handle_lines List.filter]. unfold bind at 1.
  rewrite handle_line_feed. destruct (nonempty (w +:+ l)).
  - cbn [feed_lines]. unfold bind.
    destruct (feed_codec sock (w +:+ l) s) as [[e|[]] s1]; [reflexivity|].
    pose proof (handle_lines_feed sock lines s1) as H. unfold bind in H. exact H.
  - cbn [ret]. apply handle_lines_feed.
Qed.




(** *** Sends and the sampling invariant *)

Lemma send_message_after sock m s :
  sampling_invariant s -> after s (send_message sock m s).
Proof.
  intros HI. unfold send_message. cbv zeta. cbn [log _sock_locks].
  destruct (_sock_locks s !! sock).
  - destruct (send_loop _ _) as [[[e|] taken] rest].
    + eapply after_trans; [|apply drop_strategies_after].
      * apply after_same; [|exact HI]. unfold remove_socket. cbv zeta.
        case_decide; repeat split.
      * eapply sampling_invariant_ext; [|exact HI]. unfold remove_socket. cbv zeta.
        case_decide; repeat split.
    + apply after_same; [|exact HI]. repeat split.
  - apply after_same; [|exact HI]. repeat split.
Qed.

Lemma inform_after sock m s :
  sampling_invariant s -> after s (snd (inform sock m s)).
Proof.
  intros HI. unfold inform.
  destruct (mtype m); cbn; first [now apply send_message_after | now apply after_refl].
Qed.

Lemma emit_after st s : sampling_invariant s -> after s (snd (emit st s)).
Proof.
  intros HI. unfold emit.
  destruct (_sensors s !! strategy_sensor st) as [sensor|]; [|now apply after_refl].
  destruct (strategy_client st) as [sock|]; [|now apply after_refl].
  destruct (read_formatted sensor) as [[ts status] value].
  rewrite inform_constructed by reflexivity. cbn. now apply send_message_after.
Qed.

(** What the setting branch of [request_sensor_sampling] does, outcome by
    outcome. *)
Lemma set_sampling_run sock n sensor strategy params s :
  set_sampling sock n sensor strategy params s =
  match SAMPLING_LOOKUP_REV strategy with
  | None => (inl (FailReply "Unknown strategy name."), s)
  | Some k =>
      if strategy_params_ok k sensor params then
        match _strategies s !! sock with
        | None => (inl KeyError, with_allocated S s)
        | Some strategies =>
            let new_strategy := mkStrategy (allocated s) k params n (Some sock) in
            match k with
            | NONE => (inr tt, uninstalled sock n strategies s)
            | _ =>
                (if emits_on_install k then emit new_strategy else ret tt)
                  (installed sock n new_strategy strategies s)
            end
        end
      else (inl (ValueError "bad strategy parameters"), s)
  end.
Proof.
  unfold set_sampling. destruct (SAMPLING_LOOKUP_REV strategy) as [k|]; [|reflexivity].
  unfold bind at 1. unfold get_strategy.
  destruct (strategy_params_ok k sensor params); [|reflexivity].
  unfold bind at 1. unfold client_strategies at 1. cbn [_strategies with_allocated].
  destruct (_strategies s !! sock) as [strategies|] eqn:Hs; [|reflexivity].
  cbv zeta. unfold uninstalled, installed, removed_old.
  destruct (strategies !! n) as [old|] eqn:Hold;
    destruct k; unfold bind, modify, client_strategies, add_strategy, strategy_attach,
      bind, modify, ret; cbn; rewrite ?Hs, ?Hold; reflexivity.
Qed.

Lemma set_sampling_invariant sock n sensor strategy params s :
  sampling_invariant s ->
  sampling_invariant (snd (set_sampling sock n sensor strategy params s)).
Proof.
  intros HI. rewrite set_sampling_run.
  destruct (SAMPLING_LOOKUP_REV strategy) as [k|]; [|exact HI].
  destruct (strategy_params_ok k sensor params); [|exact HI].
  destruct (_strategies s !! sock) as [strategies|] eqn:Hs;
    [|now apply with_allocated_invariant].
  cbv zeta.
  destruct (installed_invariant sock n (mkStrategy (allocated s) k params n (Some sock))
              strategies s HI Hs eq_refl eq_refl eq_refl) as (HI' & _).
  destruct (uninstalled_invariant sock n strategies s HI Hs) as (HI'' & _).
  destruct k; cbn [emits_on_install snd ret]; try assumption;
    now apply emit_after.
Qed.

Lemma get_strategy_invariant k cb n sensor params s :
  sampling_invariant s ->
  sampling_invariant (snd (get_strategy k cb n sensor params s)).
Proof.
  intros HI. unfold get_strategy.
  destruct (strategy_params_ok k sensor params); [|exact HI].
  now apply with_allocated_invariant.
Qed.

Lemma request_sensor_sampling_invariant sock msg s :
  sampling_invariant s ->
  sampling_invariant (snd (request_sensor_sampling sock msg s)).
Proof.
  intros HI. unfold request_sensor_sampling.
  destruct (arguments msg) as [|n rest]; [exact HI|].
  destruct (_sensors s !! n) as [sensor|]; [|exact HI].
  unfold bind at 1.
  remember (match rest with
            | [] => ret tt
            | strategy :: params => set_sampling sock n sensor strategy params
            end s) as r eqn:Er.
  assert (H1 : sampling_invariant (snd r)).
  { subst r. destruct rest; [exact HI | now apply set_sampling_invariant]. }
  clear Er. destruct r as [[e|[]] s1]; [exact H1|].
  cbn [snd] in H1. unfold bind at 1. unfold client_strategies.
  destruct (_strategies s1 !! sock) as [strategies|]; [|exact H1].
  unfold bind. destruct (strategies !! n) as [c|].
  - cbn [ret]. destruct (get_sampling_formatted c) as [kn ps].
    unfold Message_reply. rewrite construct_valid by reflexivity. exact H1.
  - pose proof (get_strategy_invariant NONE None n sensor [] s1 H1) as H2.
    destruct (get_strategy NONE None n sensor [] s1) as [[e|c] s2]; [exact H2|].
    destruct (get_sampling_formatted c) as [kn ps].
    unfold Message_reply. rewrite construct_valid by reflexivity. exact H2.
Qed.

Lemma on_client_disconnect_run sock reason sock_valid s :
  on_client_disconnect sock reason sock_valid s =
  (inr tt,
   if sock_valid
   then send_message sock (mkMessage INFORM "disconnect" [reason])
          (drop_strategies sock s)
   else drop_strategies sock s).
Proof.
  unfold on_client_disconnect. unfold bind at 1. unfold modify at 1.
  destruct sock_valid; [|reflexivity]. now rewrite inform_constructed.
Qed.

Lemma on_client_disconnect_invariant sock reason sock_valid s :
  sampling_invariant s ->
  let s' := snd (on_client_disconnect sock reason sock_valid s) in
  sampling_invariant s' /\ _strategies s' !! sock = None /\
  (forall id st, _reactor s' !! id = Some st ->
                 _reactor s !! id = Some st /\ strategy_client st <> Some sock).
Proof.
  intros HI. destruct (drop_strategies_invariant sock s HI) as (HI' & Hs & Hr & _).
  rewrite on_client_disconnect_run. cbn [snd]. destruct sock_valid; [|auto].
  destruct (send_message_after sock (mkMessage INFORM "disconnect" [reason])
              (drop_strategies sock s) HI') as (HI2 & Hr2 & Hs2 & _).
  split; [exact HI2|]. split.
  - destruct (_strategies (send_message sock
                  (mkMessage INFORM "disconnect" [reason])
                  (drop_strategies sock s)) !! sock) as [x|] eqn:E; [|reflexivity].
    apply Hs2 in E. congruence.
  - intros id st H. apply Hr. now apply Hr2.
Qed.

Lemma on_client_connect_run sock s :
  on_client_connect sock s =
  (inr tt,
   send_message sock (mkMessage INFORM "build-state" [build_state])
     (send_message sock (mkMessage INFORM "version" [version])
        (with_strategies (insert sock ∅) s))).
Proof.
  unfold on_client_connect. unfold bind at 1. unfold modify at 1.
  unfold bind at 1. unfold Message_inform at 1.
  rewrite construct_valid by reflexivity. unfold bind at 1. unfold inform at 1.
  cbn [mtype]. unfold modify at 1.
  now rewrite inform_constructed.
Qed.

Lemma on_client_connect_invariant sock s :
  sampling_invariant s -> _strategies s !! sock = None ->
  sampling_invariant (snd (on_client_connect sock s)).
Proof.
  intros (I1 & I2 & I3) Hs.
  assert (HI0 : sampling_invariant (with_strategies (insert sock ∅) s)).
  { split; [|split; [|exact I3]].
    - intros sock' strategies n st. cbn.
      destruct (decide (sock' = sock)) as [->|Hne].
      + rewrite lookup_insert_eq. intros [= <-]. now rewrite lookup_empty.
      + rewrite lookup_insert_ne by congruence. apply I1.
    - intros id st Hr. destruct (I2 id st Hr) as (Hid & Hlt & sock' & m & Hc & Hs' & Hst).
      split; [exact Hid|]. split; [exact Hlt|]. exists sock', m. cbn.
      rewrite lookup_insert_ne by congruence. auto. }
  rewrite on_client_connect_run. cbn [snd].
  destruct (send_message_after sock (mkMessage INFORM "version" [version]) _ HI0)
    as (H1 & _).
  now destruct (send_message_after sock (mkMessage INFORM "build-state" [build_state])
                  _ H1) as (H2 & _).
Qed.
Lemma first_emission_after k st s :
  sampling_invariant s ->
  after s (snd ((if emits_on_install k then emit st else ret tt) s)).
Proof.
  intros HI. destruct (emits_on_install k); [now apply emit_after|].
  now apply after_refl.
Qed.

Lemma not_armed_not_observing s n sensor (id : nat) :
  sampling_invariant s -> _reactor s !! id = None ->
  _sensors s !! n = Some sensor -> id ∉ SensorModel._observers sensor.
Proof.
  intros (_ & _ & I3) Hr Hsens Hin.
  apply (I3 _ _ _ Hsens) in Hin as (st & Hst & _).
  unfold SensorModel.Observer in *. rewrite Hr in Hst. discriminate.
Qed.

(** A successful [?sensor-sampling name strategy ...] over an installed
    strategy: the old one is gone from the reactor and from the sensor's
    observers, and the pair now has the new one, or none. *)
Lemma request_sensor_sampling_replaces sock msg n strategy params strategies old reply s s' :
  sampling_invariant s ->
  arguments msg = n :: strategy :: params ->
  _strategies s !! sock = Some strategies -> strategies !! n = Some old ->
  request_sensor_sampling sock msg s = (inr reply, s') ->
  _reactor s' !! sid old = None /\
  (forall sensor, _sensors s' !! n = Some sensor ->
                  sid old ∉ SensorModel._observers sensor) /\
  exists k, SAMPLING_LOOKUP_REV strategy = Some k /\
    match k with
    | NONE =>
        reply = mkMessage REPLY "sensor-sampling" ["ok"; n; "none"] /\
        exists strategies', _strategies s' !! sock = Some strategies' /\
                            strategies' !! n = None
    | _ =>
        let new_strategy := mkStrategy (allocated s) k params n (Some sock) in
        reply = mkMessage REPLY "sensor-sampling"
                  ("ok" :: n :: SAMPLING_LOOKUP k :: params) /\
        armed_for s' sock n new_strategy /\
        exists strategies', _strategies s' !! sock = Some strategies' /\
                            strategies' !! n = Some new_strategy
    end.
Proof.
  intros HI Hargs Hs Hold Hrun.
  pose proof (request_sensor_sampling_invariant sock msg s HI) as HI'.
  rewrite Hrun in HI'. cbn [snd] in HI'.
  assert (Hgoal : _reactor s' !! sid old = None ->
            (forall sensor, _sensors s' !! n = Some sensor ->
                            sid old ∉ SensorModel._observers sensor))
    by (intros Hr sensor Hsens; eapply not_armed_not_observing; eauto).
  revert Hrun. unfold request_sensor_sampling. rewrite Hargs.
  destruct (_sensors s !! n) as [sensor|]; [|discriminate].
  unfold bind at 1. rewrite set_sampling_run.
  destruct (SAMPLING_LOOKUP_REV strategy) as [k|]; [|discriminate].
  destruct (strategy_params_ok k sensor params); [|discriminate].
  rewrite Hs. cbv zeta.
  destruct (installed_invariant sock n (mkStrategy (allocated s) k params n (Some sock))
              strategies s HI Hs eq_refl eq_refl eq_refl) as (HIi & Hsi & Hri & Hoi).
  destruct (uninstalled_invariant sock n strategies s HI Hs) as (HIu & Hsu & Hou).
  assert (Hinst : k <> NONE ->
    forall r s1,
      (if emits_on_install k
       then emit (mkStrategy (allocated s) k params n (Some sock)) else ret tt)
        (installed sock n (mkStrategy (allocated s) k params n (Some sock)) strategies s)
      = (r, s1) ->
      match r with
      | inl e => (inl e, s1)
      | inr _ =>
          (strategies0 <- client_strategies sock ;;
           current_strategy <-
             match strategies0 !! n with
             | Some c => ret c
             | None => get_strategy NONE None n sensor []
             end ;;
           (let '(strategy0, params0) := get_sampling_formatted current_strategy in
            Message_reply "sensor-sampling" ("ok" :: n :: strategy0 :: params0))) s1
      end = (inr reply, s') ->
      _reactor s' !! sid old = None /\
      reply = mkMessage REPLY "sensor-sampling"
                ("ok" :: n :: SAMPLING_LOOKUP k :: params) /\
      armed_for s' sock n (mkStrategy (allocated s) k params n (Some sock)) /\
      exists strategies', _strategies s' !! sock = Some strategies' /\
        strategies' !! n = Some (mkStrategy (allocated s) k params n (Some sock))).
  { intros Hk r s1 Hemit.
    pose proof (first_emission_after k (mkStrategy (allocated s) k params n (Some sock))
                  _ HIi) as Hafter.
    rewrite Hemit in Hafter. cbn [snd] in Hafter.
    destruct Hafter as (HI1 & Hr1 & Hs1 & _).
    destruct r as [e|[]]; [discriminate|].
    unfold bind at 1. unfold client_strategies.
    destruct (_strategies s1 !! sock) as [X|] eqn:HX; [|discriminate].
    pose proof (Hs1 _ _ HX) as HX'. rewrite Hsi in HX'. injection HX' as <-.
    unfold bind. rewrite lookup_insert_eq. cbn [ret get_sampling_formatted kind
      strategy_params]. unfold Message_reply. rewrite construct_valid by reflexivity.
    intros [= <- <-].
    split.
    { destruct (_reactor s1 !! sid old) eqn:E; [|reflexivity].
      apply Hr1 in E. rewrite (Hoi old Hold) in E. discriminate. }
    split; [reflexivity|]. split.
    { destruct HI1 as (I1 & _).
      apply (I1 sock _ n _ HX). apply lookup_insert_eq. }
    exists (<[n := mkStrategy (allocated s) k params n (Some sock)]> strategies).
    split; [exact HX | apply lookup_insert_eq]. }
  assert (Hdec : k = NONE \/ k <> NONE) by (destruct k; auto; right; discriminate).
  destruct Hdec as [->|Hk].
  - (* NONE *)
    unfold bind at 1. unfold client_strategies. rewrite Hsu.
    unfold bind. rewrite lookup_delete_eq. unfold get_strategy.
    destruct (strategy_params_ok NONE sensor []); [|discriminate].
    cbn [get_sampling_formatted kind strategy_params SAMPLING_LOOKUP].
    unfold Message_reply. rewrite construct_valid by reflexivity.
    intros [= <- <-]. cbn [_reactor with_allocated _strategies] in *.
    split; [now apply Hou|]. split; [apply Hgoal; now apply Hou|].
    exists NONE. split; [reflexivity|]. split; [reflexivity|].
    exists (delete n strategies). split; [exact Hsu | apply lookup_delete_eq].
  - assert (Hm : forall (A : Type) (a b : A),
              match k with NONE => a | _ => b end = b)
      by (intros; destruct k; congruence).
    rewrite Hm. intros Hrun.
    destruct ((if emits_on_install k then emit _ else ret tt) _) as [r s1] eqn:E.
    destruct (Hinst Hk r s1 eq_refl Hrun) as (H1 & H2 & H3 & H4).
    split; [exact H1|]. split; [now apply Hgoal|]. exists k.
    split; [reflexivity|]. destruct k; [congruence| | | |]; cbv zeta; auto.
Qed.

(** *** C6: one strategy per client and sensor *)

(** C6. In a server that meets [sampling_invariant], at most one strategy
    is armed in the reactor for a client and a sensor, and it is the one
    filed under that pair; the invariant is kept by [?sensor-sampling],
    by client connect and disconnect and by every send; a successful
    [?sensor-sampling name strategy ...] over an installed strategy leaves
    the old strategy out of the reactor and of the sensor's observers;
    and after a client's disconnect none of its strategies is armed. *)
Theorem one_strategy_per_client_and_sensor (s : Server) :
  sampling_invariant s ->
  (forall sock n st1 st2,
      armed_for s sock n st1 -> armed_for s sock n st2 -> st1 = st2) /\
  (forall sock n st,
      armed_for s sock n st <->
      exists strategies,
        _strategies s !! sock = Some strategies /\ strategies !! n = Some st) /\
  (forall sock msg,
      sampling_invariant (snd (request_sensor_sampling sock msg s))) /\
  (forall sock msg n strategy params strategies old reply s',
      arguments msg = n :: strategy :: params ->
      _strategies s !! sock = Some strategies -> strategies !! n = Some old ->
      request_sensor_sampling sock msg s = (inr reply, s') ->
      ~ armed_for s' sock n old /\
      forall sensor, _sensors s' !! n = Some sensor ->
                     sid old ∉ SensorModel._observers sensor) /\
  (forall sock reason sock_valid,
      let s' := snd (on_client_disconnect sock reason sock_valid s) in
      sampling_invariant s' /\ _strategies s' !! sock = None /\
      forall n st, ~ armed_for s' sock n st) /\
  (forall sock, _strategies s !! sock = None ->
                sampling_invariant (snd (on_client_connect sock s))) /\
  (forall sock msg, sampling_invariant (send_message sock msg s)).
Proof.
  intros HI. pose proof HI as (I1 & I2 & I3).
  assert (Hfiled : forall sock n st,
            armed_for s sock n st <->
            exists strategies,
              _strategies s !! sock = Some strategies /\ strategies !! n = Some st).
  { intros sock n st. split.
    - intros (Hr & Hc & Hn).
      destruct (I2 _ _ Hr) as (_ & _ & sock' & strategies & Hc' & Hs & Hst).
      exists strategies. rewrite Hn in Hst. split; [congruence | exact Hst].
    - intros (strategies & Hs & Hst). exact (I1 _ _ _ _ Hs Hst). }
  split.
  { intros sock n st1 st2 H1 H2.
    apply Hfiled in H1 as (m1 & Hs1 & Hst1). apply Hfiled in H2 as (m2 & Hs2 & Hst2).
    congruence. }
  split; [exact Hfiled|].
  split; [intros; now apply request_sensor_sampling_invariant|].
  split.
  { intros sock msg n strategy params strategies old reply s' Hargs Hs Hold Hrun.
    destruct (request_sensor_sampling_replaces _ _ _ _ _ _ _ _ _ _ HI Hargs Hs Hold Hrun)
      as (Hr & Hobs & _).
    split; [|exact Hobs]. intros (Hr' & _). congruence. }
  split.
  { intros sock reason sock_valid.
    destruct (on_client_disconnect_invariant sock reason sock_valid s HI)
      as (HI' & Hs' & Hr').
    split; [exact HI'|]. split; [exact Hs'|].
    intros n st (Hr & Hc & _). apply Hr' in Hr as [_ Hne]. contradiction. }
  split; [intros; now apply on_client_connect_invariant|].
  intros sock msg. now destruct (send_message_after sock msg s HI).
Qed.
(** *** C7: the sampling query *)

(** C7. [?sensor-sampling name] for a registered sensor, without a
    strategy, replies with the strategy installed for the client and the
    sensor and its parameters, and with [none] and no parameters when none
    is installed; an unregistered sensor name fails with
    [Unknown sensor name.] and, for a registered sensor, an unknown
    strategy name fails with [Unknown strategy name.]. *)
Theorem sensor_sampling_query (sock : Sock) (msg : Message) (s : Server) :
  (forall n rest,
      arguments msg = n :: rest -> _sensors s !! n = None ->
      request_sensor_sampling sock msg s =
      (inl (FailReply "Unknown sensor name."), s)) /\
  (forall n strategy params sensor,
      arguments msg = n :: strategy :: params -> _sensors s !! n = Some sensor ->
      SAMPLING_LOOKUP_REV strategy = None ->
      request_sensor_sampling sock msg s =
      (inl (FailReply "Unknown strategy name."), s)) /\
  (forall n sensor strategies,
      arguments msg = [n] -> _sensors s !! n = Some sensor ->
      _strategies s !! sock = Some strategies ->
      (forall current,
          strategies !! n = Some current ->
          request_sensor_sampling sock msg s =
          (inr (mkMessage REPLY "sensor-sampling"
                  ("ok" :: n :: SAMPLING_LOOKUP (kind current) ::
                   strategy_params current)), s)) /\
      (strategies !! n = None -> strategy_params_ok NONE sensor [] = true ->
       request_sensor_sampling sock msg s =
       (inr (mkMessage REPLY "sensor-sampling" ["ok"; n; "none"]),
        with_allocated S s))).
Proof.
  unfold request_sensor_sampling. repeat apply conj.
  - intros n rest -> Hn. now rewrite Hn.
  - intros n strategy params sensor -> Hn Hk. rewrite Hn.
    unfold bind at 1. rewrite set_sampling_run, Hk. reflexivity.
  - intros n sensor strategies -> Hn Hs. rewrite Hn.
    unfold bind, ret, client_strategies. rewrite Hs. split.
    + intros current Hc. rewrite Hc. cbn [get_sampling_formatted].
      unfold Message_reply. now rewrite construct_valid.
    + intros Hc Hok. rewrite Hc. unfold get_strategy. rewrite Hok.
      cbn [get_sampling_formatted kind strategy_params SAMPLING_LOOKUP].
      unfold Message_reply. now rewrite construct_valid.
Qed.

(** The whole exchange for a failing [?sensor-sampling]: the reply the
    dispatcher sends for the raised [FailReply]. *)
Lemma handle_request_sampling_fails sock msg s reason :
  name msg = "sensor-sampling" ->
  is_Some (_request_handlers !! "sensor-sampling") ->
  call_request "sensor-sampling" = request_sensor_sampling ->
  request_sensor_sampling sock msg s = (inl (FailReply reason), s) ->
  handle_request sock msg s =
  (inr tt,
   send_message sock (mkMessage REPLY "sensor-sampling" ["fail"; reason])
     (log LOG_ERROR ("Request sensor-sampling FAIL: " +:+ reason) s)).
Proof.
  intros Hname [doc Hreg] Hcall Hrun. unfold handle_request.
  rewrite Hname, Hreg, Hcall, Hrun. unfold bind, Message_reply.
  rewrite construct_valid by reflexivity. reflexivity.
Qed.

End DeviceServer.

(** *** A device with one client and the sensor of the sampling tests *)

(** The last line of a traceback: the exception's class and text. *)
Definition test_format_exception (e : Exception) (limit : nat) : list string :=
  [ "Traceback (most recent call last):";
    match e with
    | AsyncReply => "AsyncReply"
    | FailReply reason => "FailReply: " +:+ reason
    | SyntaxError EmptyMessage => "KatcpSyntaxError: Empty message received."
    | SyntaxError _ => "KatcpSyntaxError"
    | AssertionError => "AssertionError"
    | KeyError => "KeyError"
    | ValueError reason => "ValueError: " +:+ reason
    | OtherException what => what
    end ].

Definition test_getpeername (sock : Sock) : option string :=
  Some "('127.0.0.1', 5000)".

Definition test_time_ms (s : Server) : string := "12345000".

Definition test_read_formatted (sensor : SensorModel.Sensor)
  : string * string * string :=
  ("12345000", "nominal", "3").

Definition test_params_ok (k : StrategyKind) (sensor : SensorModel.Sensor)
    (params : list string) : bool :=
  match k, params with
  | (NONE | AUTO | EVENT), [] => true
  | (PERIOD | DIFFERENTIAL), [p] => forallb_string isdigit p
  | _, _ => false
  end.

Definition test_request_handlers : gmap string string :=
  list_to_map
    [ ("help", "Return help on the available request methods.");
      ("sensor-sampling", "Configure or query the way a sensor is sampled.");
      ("watchdog", "Check that the server is still alive.") ].

Definition test_call_request (n : string) (sock : Sock) (msg : Message) : M Message :=
  if String.eqb n "help" then
    request_help test_getpeername test_request_handlers sock msg
  else if String.eqb n "sensor-sampling" then
    request_sensor_sampling test_getpeername test_read_formatted test_params_ok sock msg
  else if String.eqb n "watchdog" then request_watchdog sock msg
  else raise KeyError.

Definition test_call_none (n : string) (sock : Sock) (msg : Message) : M unit :=
  raise KeyError.


Definition test_handle_chunk : Sock -> string -> M unit :=
  handle_chunk 2 test_format_exception test_getpeername test_time_ms
    test_request_handlers test_call_request ∅ test_call_none ∅ test_call_none.


(** A server before any client, the same with the sensor [an.int], and
    after client 7 has connected. *)
Definition idle : Server := mkServer [] ∅ ∅ ∅ ∅ ∅ [] 0 ∅ [] ∅.

Definition test_device : Server :=
  with_sensors (insert "an.int" SensorModel.an_int) idle.

Definition connected : Server :=
  snd (on_client_connect test_getpeername 7 (add_socket 7 test_device)).

(** Client 7 after [?sensor-sampling an.int period 10]. *)
Definition sampled : Server :=
  snd (request_sensor_sampling test_getpeername test_read_formatted test_params_ok 7
         (mkMessage REQUEST "sensor-sampling" ["an.int"; "period"; "10"]) connected).

Definition line (text : string) : string := text +:+ String LF "".

Lemma sampling_invariant_idle : sampling_invariant idle.
Proof.
  unfold sampling_invariant, idle; cbn.
  split; [|split]; intros *; rewrite lookup_empty; discriminate.
Qed.

Lemma sampling_invariant_test_device : sampling_invariant test_device.
Proof.
  unfold sampling_invariant, test_device, idle, with_sensors; cbn.
  split; [|split]; intros *; try (rewrite lookup_empty; discriminate).
  intros Hs. split.
  - destruct (decide (n = "an.int")) as [->|Hn].
    + rewrite lookup_insert_eq in Hs. injection Hs as <-. cbn. set_solver.
    + rewrite lookup_insert_ne, lookup_empty in Hs by congruence. discriminate.
  - intros (st & Hst & _). rewrite lookup_empty in Hst. discriminate.
Qed.

Lemma sampling_invariant_connected : sampling_invariant connected.
Proof.
  apply on_client_connect_invariant; [|reflexivity].
  apply (sampling_invariant_ext test_device); [|apply sampling_invariant_test_device].
  repeat split.
Qed.

Lemma sampling_invariant_sampled : sampling_invariant sampled.
Proof.
  apply request_sensor_sampling_invariant, sampling_invariant_connected.
Qed.

(** What the client reads after its connection, a [?watchdog], an unknown
    request and the sampling requests of the specification. *)
Example connected_wire :
  wire connected =
  [ (7, line "#version device_stub-0.1"); (7, line "#build-state name-0.1") ].
Proof. vm_compute. reflexivity. Qed.

Example watchdog_wire :
  wire (snd (test_handle_chunk 7 (line "?watchdog") connected)) =
  wire connected ++ [ (7, line "!watchdog ok") ].
Proof. vm_compute. reflexivity. Qed.

Example unknown_request_wire :
  wire (snd (test_handle_chunk 7 (line "?nonesuch") connected)) =
  wire connected ++ [ (7, line "!nonesuch invalid Unknown\_request.") ].
Proof. vm_compute. reflexivity. Qed.

Example unknown_sensor_wire :
  wire (snd (test_handle_chunk 7 (line "?sensor-sampling nonesuch none") connected)) =
  wire connected ++ [ (7, line "!sensor-sampling fail Unknown\_sensor\_name.") ].
Proof. vm_compute. reflexivity. Qed.

Example unknown_strategy_wire :
  wire (snd (test_handle_chunk 7 (line "?sensor-sampling an.int random") connected)) =
  wire connected ++ [ (7, line "!sensor-sampling fail Unknown\_strategy\_name.") ].
Proof. vm_compute. reflexivity. Qed.

Example sampling_query_wire :
  wire (snd (test_handle_chunk 7 (line "?sensor-sampling an.int") connected)) =
    wire connected ++ [ (7, line "!sensor-sampling ok an.int none") ] /\
  wire (snd (test_handle_chunk 7 (line "?sensor-sampling an.int") sampled)) =
    wire sampled ++ [ (7, line "!sensor-sampling ok an.int period 10") ].
Proof. split; vm_compute; reflexivity. Qed.

Example help_wire :
  wire (snd (test_handle_chunk 7 (line "?help") connected)) =
  wire connected ++
  [ (7, line "#help help Return\_help\_on\_the\_available\_request\_methods.");
    (7, line "#help sensor-sampling Configure\_or\_query\_the\_way\_a\_sensor\_is\_sampled.");
    (7, line "#help watchdog Check\_that\_the\_server\_is\_still\_alive.");
    (7, line "!help ok 3") ].
Proof. vm_compute. reflexivity. Qed.

Example sampled_reactor :
  map_to_list (_reactor sampled) =
    [ (0, mkStrategy 0 PERIOD ["10"] "an.int" (Some 7)) ] /\
  (SensorModel._observers <$> _sensors sampled !! "an.int") = Some {[ 0 ]}.
Proof. split; vm_compute; reflexivity. Qed.

Lemma send_message_not_client_witness :
  _sock_locks test_device !! 7 = None /\
  wire (send_message test_getpeername 7 (mkMessage INFORM "version" ["0.1"]) test_device)
  = [] /\
  _logger (send_message test_getpeername 7 (mkMessage INFORM "version" ["0.1"]) test_device)
  = [ (LOG_DEBUG, line "#version 0.1");
      (LOG_WARN, "Attempt to send to a socket ('127.0.0.1', 5000) which is no longer a client.") ].
Proof.
  pose proof (send_message_not_client test_getpeername 7
                (mkMessage INFORM "version" ["0.1"]) test_device eq_refl) as H.
  cbv zeta in H. destruct H as (Hw & _ & _ & _ & _ & _ & _ & _ & _ & _ & Hl).
  split; [reflexivity|]. split; [exact Hw | exact Hl].
Defined.




Lemma one_strategy_per_client_and_sensor_witness :
  sampling_invariant sampled /\
  (forall sock n st1 st2,
      armed_for sampled sock n st1 -> armed_for sampled sock n st2 -> st1 = st2).
Proof.
  split; [exact sampling_invariant_sampled|].
  exact (proj1 (one_strategy_per_client_and_sensor test_getpeername
                  test_read_formatted test_params_ok sampled
                  sampling_invariant_sampled)).
Defined.

End Server.

(** ** More on the codec: one line per message, whitespace, normal forms *)

Module CodecFacts.

Import Codec.

(** [Message.copy]: the constructor on the three attributes. *)
Definition copy (m : Message) : KatcpSyntaxError + Message :=
  Message_init (mtype m) (name m) (arguments m).

(** The bytes that would break a line or a field: what [SPECIAL_RE] matches,
    the separating space apart. *)
Definition line_byte (c : ascii) : bool := negb (SPECIAL_RE c) || Ascii.eqb c SPACE.

Fixpoint count_byte (c : ascii) (s : string) : nat :=
  match s with
  | EmptyString => 0
  | String c' s' => (if Ascii.eqb c' c then 1 else 0) + count_byte c s'
  end.

Definition all_whitespace (ws : string) : bool := forallb_string is_whitespace ws.

Lemma count_byte_app c (s t : string) :
  count_byte c (s ++ t) = (count_byte c s + count_byte c t)%nat.
Proof.
  induction s as [|c' s IH]; [now rewrite append_nil|].
  rewrite append_cons. cbn [count_byte]. rewrite IH. lia.
Qed.

Lemma no_whitespace_count s : no_whitespace s = true -> count_byte SPACE s = 0%nat.
Proof.
  unfold no_whitespace. induction s as [|c s IH]; [reflexivity|].
  cbn [forallb_string count_byte]. intros H. apply andb_true_iff in H as [Hc Hs].
  rewrite (IH Hs). unfold is_whitespace in Hc.
  destruct (Ascii.eqb c SPACE); [discriminate | reflexivity].
Qed.

Lemma no_special_line s : no_special s = true -> forallb_string line_byte s = true.
Proof.
  unfold no_special, line_byte. induction s as [|c s IH]; [reflexivity|].
  cbn [forallb_string]. intros H. apply andb_true_iff in H as [Hc Hs].
  now rewrite Hc, (IH Hs).
Qed.

Lemma valid_name_no_special n : valid_name n = true -> no_special n = true.
Proof.
  destruct n as [|c n]; [discriminate|]. unfold valid_name.
  intros H. apply andb_true_iff in H as [_ H].
  unfold no_special. revert H. generalize (String c n). clear.
  induction s as [|c s IH]; [reflexivity|]. cbn [forallb_string].
  intros H. apply andb_true_iff in H as [Hc Hs].
  destruct (isalnum_not_special c Hc) as [_ Hw]. now rewrite Hw, IH.
Qed.

Lemma join_space_line args :
  forallb_string line_byte (join_space (map escape_arg args)) = true /\
  count_byte SPACE (join_space (map escape_arg args)) = Nat.pred (List.length args).
Proof.
  induction args as [|a args [IH1 IH2]]; [split; reflexivity|].
  destruct (escape_arg_clean a) as (_ & Hs & Hw).
  destruct args as [|b args].
  - cbn [map join_space List.length Nat.pred].
    split; [now apply no_special_line | now apply no_whitespace_count].
  - change (join_space (map escape_arg (a :: b :: args))) with
      (escape_arg a ++ String SPACE (join_space (map escape_arg (b :: args)))).
    rewrite forallb_string_app, count_byte_app. cbn [forallb_string count_byte].
    rewrite IH1, IH2, (no_special_line _ Hs), (no_whitespace_count _ Hw).
    split; [reflexivity|]. cbn. lia.
Qed.

Lemma Message_str_line_bytes (m : Message) :
  valid_name (name m) = true -> forallb_string line_byte (Message_str m) = true.
Proof.
  intros Hn. unfold Message_str. cbn [forallb_string].
  rewrite forallb_string_app, (no_special_line _ (valid_name_no_special _ Hn)).
  assert (Hsym : line_byte (TYPE_SYMBOLS (mtype m)) = true)
    by (destruct (mtype m); reflexivity).
  rewrite Hsym. destruct (arguments m) as [|a args]; [reflexivity|].
  destruct (join_space_line (a :: args)) as [H1 _].
  cbn [forallb_string]. now rewrite H1.
Qed.

(** X1. A serialized message is one line of fields: it holds no NUL, LF,
    CR, ESC or TAB, and its only spaces are the separators, one before
    each argument. *)
Theorem Message_str_one_line (m : Message) :
  valid_name (name m) = true ->
  forallb_string line_byte (Message_str m) = true /\
  count_byte SPACE (Message_str m) = List.length (arguments m).
Proof.
  intros Hn. split; [now apply Message_str_line_bytes|].
  unfold Message_str. cbn [count_byte]. rewrite count_byte_app.
  destruct (valid_name_no_whitespace _ Hn) as [_ Hw].
  rewrite (no_whitespace_count _ Hw).
  assert (Hsym : Ascii.eqb (TYPE_SYMBOLS (mtype m)) SPACE = false)
    by (destruct (mtype m); reflexivity).
  rewrite Hsym. destruct (arguments m) as [|a args]; [reflexivity|].
  destruct (join_space_line (a :: args)) as [_ H2].
  cbn [count_byte]. rewrite H2. reflexivity.
Qed.

Lemma Message_str_one_line_witness :
  valid_name (name roundtrip_sample) = true /\
  forallb_string line_byte (Message_str roundtrip_sample) = true /\
  count_byte SPACE (Message_str roundtrip_sample) = 3%nat.
Proof.
  split; [reflexivity|]. exact (Message_str_one_line roundtrip_sample eq_refl).
Defined.

(** *** Whitespace between and after the fields *)

Lemma whitespace_split_from_congr (x y a : string) :
  (forall inws, whitespace_split_from inws x = whitespace_split_from inws y) ->
  forall inws, whitespace_split_from inws (a ++ x) = whitespace_split_from inws (a ++ y).
Proof.
  intros Hxy. induction a as [|c a IH]; intros inws.
  - rewrite !append_nil. apply Hxy.
  - rewrite !append_cons. cbn [whitespace_split_from]. now rewrite !IH.
Qed.

Lemma whitespace_split_from_skip ws b :
  all_whitespace ws = true ->
  whitespace_split_from true (ws ++ b) = whitespace_split_from true b.
Proof.
  unfold all_whitespace. induction ws as [|c ws IH]; intros H.
  - now rewrite append_nil.
  - cbn [forallb_string] in H. apply andb_true_iff in H as [Hc Hs].
    rewrite append_cons. cbn [whitespace_split_from]. rewrite Hc. now apply IH.
Qed.

Lemma whitespace_split_from_run ws b inws :
  ws <> "" -> all_whitespace ws = true ->
  whitespace_split_from inws (ws ++ b) =
  whitespace_split_from inws (String SPACE b).
Proof.
  intros Hne H. destruct ws as [|c ws]; [congruence|].
  unfold all_whitespace in H. cbn [forallb_string] in H.
  apply andb_true_iff in H as [Hc Hs].
  rewrite append_cons. cbn [whitespace_split_from]. rewrite Hc.
  change (is_whitespace SPACE) with true. cbv iota.
  now rewrite (whitespace_split_from_skip ws b Hs).
Qed.

Lemma del_empty_last_head c f fs g gs :
  del_empty_last (f :: fs) = del_empty_last (g :: gs) ->
  del_empty_last (String c f :: fs) = del_empty_last (String c g :: gs).
Proof.
  destruct fs as [|f' fs], gs as [|g' gs]; cbn [del_empty_last].
  - destruct f, g; intros H; congruence.
  - destruct f; intros H; [discriminate|]. injection H as -> <-. reflexivity.
  - destruct g; intros H; [discriminate|]. injection H as <- ->. reflexivity.
  - intros H. injection H as -> ->. reflexivity.
Qed.

Lemma del_empty_last_trailing (a : string) inws :
  a <> "" ->
  del_empty_last (whitespace_split_from inws (a ++ String SPACE "")) =
  del_empty_last (whitespace_split_from inws a).
Proof.
  revert inws. induction a as [|c a IH]; intros inws Hne; [congruence|].
  rewrite append_cons. cbn [whitespace_split_from].
  destruct a as [|c' a'].
  - rewrite append_nil. cbn [whitespace_split_from].
    change (is_whitespace SPACE) with true. cbv iota.
    destruct (is_whitespace c), inws; reflexivity.
  - assert (Hne' : String c' a' <> "") by discriminate.
    pose proof (IH true Hne') as IHt. pose proof (IH false Hne') as IHf.
    pose proof (whitespace_split_from_nonempty true (String c' a' ++ String SPACE "")) as N1.
    pose proof (whitespace_split_from_nonempty true (String c' a')) as N2.
    pose proof (whitespace_split_from_nonempty false (String c' a' ++ String SPACE "")) as N3.
    pose proof (whitespace_split_from_nonempty false (String c' a')) as N4.
    destruct (is_whitespace c).
    + destruct inws; [exact IHt|].
      destruct (whitespace_split_from true (String c' a' ++ String SPACE "")) as [|f fs];
        [congruence|].
      destruct (whitespace_split_from true (String c' a')) as [|g gs]; [congruence|].
      cbn [del_empty_last] in *. now rewrite IHt.
    + destruct (whitespace_split_from false (String c' a' ++ String SPACE "")) as [|f fs];
        [congruence|].
      destruct (whitespace_split_from false (String c' a')) as [|g gs]; [congruence|].
      now apply del_empty_last_head.
Qed.

Lemma parse_Message_str_valid (m : Message) :
  valid_name (name m) = true -> parse (Message_str m) = inr m.
Proof.
  intros Hn. pose proof (whitespace_split_Message_str m Hn) as Hsplit.
  assert (E : exists rest, Message_str m = String (TYPE_SYMBOLS (mtype m)) rest)
    by (eexists; reflexivity).
  destruct E as [rest E]. rewrite E in Hsplit |- *.
  cbn [parse]. rewrite TYPE_SYMBOL_LOOKUP_SYMBOLS. cbv zeta. rewrite Hsplit.
  rewrite del_empty_last_id.
  - cbn [hd tl drop_first]. rewrite parse_args_escape, Message_init_valid, Hn.
    now destruct m.
  - constructor; [discriminate|].
    eapply Forall_impl; [apply escape_args_fields|]. now intros x [Hx _].
Qed.

Lemma parse_first a b :
  a <> "" ->
  parse (a ++ b) =
  match a with
  | EmptyString => inl EmptyMessage
  | String type_char _ =>
      match TYPE_SYMBOL_LOOKUP type_char with
      | None => inl (BadTypeCharacter type_char)
      | Some t =>
          let parts := del_empty_last (whitespace_split (a ++ b)) in
          match parse_args (tl parts) with
          | inl err => inl err
          | inr args => Message_init t (drop_first (hd EmptyString parts)) args
          end
      end
  end.
Proof. destruct a as [|c a]; [congruence|]. intros _. reflexivity. Qed.

(** X2. Between the fields of a line any run of spaces and tabs counts as
    one space, and spaces and tabs at the end of a line are ignored. *)
Theorem parse_whitespace_runs (a ws b : string) :
  a <> "" -> ws <> "" -> all_whitespace ws = true ->
  parse (a ++ ws ++ b) = parse (a ++ String SPACE b) /\
  parse (a ++ ws) = parse a.
Proof.
  intros Ha Hws Hall.
  assert (Hrun : forall b', whitespace_split (a ++ ws ++ b') =
                            whitespace_split (a ++ String SPACE b')).
  { intros b'. unfold whitespace_split. apply whitespace_split_from_congr.
    intros inws. now apply whitespace_split_from_run. }
  split.
  - rewrite !parse_first by exact Ha. cbv zeta. now rewrite Hrun.
  - pose proof (parse_first a "" Ha) as P0. rewrite string_app_empty_r in P0.
    rewrite P0. rewrite <- (string_app_empty_r ws), (parse_first a (ws ++ "") Ha).
    cbv zeta. rewrite Hrun. unfold whitespace_split.
    now rewrite (del_empty_last_trailing a false Ha).
Qed.

Lemma parse_whitespace_runs_witness :
  parse ("?sensor-sampling" ++ String TAB "  " ++ "an.int") =
    parse "?sensor-sampling an.int" /\
  parse ("?sensor-sampling" ++ String TAB "  ") = parse "?sensor-sampling".
Proof.
  apply (parse_whitespace_runs "?sensor-sampling" (String TAB "  ") "an.int");
    [discriminate | discriminate | reflexivity].
Defined.


(** *** Normal forms *)

Lemma TYPE_SYMBOL_LOOKUP_Some c t :
  TYPE_SYMBOL_LOOKUP c = Some t -> c = TYPE_SYMBOLS t.
Proof.
  unfold TYPE_SYMBOL_LOOKUP.
  repeat (case_eqb; [intros [= <-]; reflexivity|]). discriminate.
Qed.

(** X3. What [parse] returns is a message the constructor accepts, of the
    type the first byte of the line names; its serialization is a normal
    form of the line that parses to the same message, and [copy] returns
    an equal message. *)
Theorem parse_normal_form (line : string) (m : Message) :
  parse line = inr m ->
  valid_name (name m) = true /\
  (exists rest, line = String (TYPE_SYMBOLS (mtype m)) rest) /\
  parse (Message_str m) = inr m /\
  copy m = inr m.
Proof.
  intros Hp. destruct line as [|c rest]; [discriminate|]. cbn [parse] in Hp.
  destruct (TYPE_SYMBOL_LOOKUP c) as [t|] eqn:Ht; [|discriminate].
  cbv zeta in Hp.
  destruct (parse_args _) as [err|args]; [discriminate|].
  destruct (Message_init_inr _ _ _ _ Hp) as [-> Hn]. cbn [name mtype] in *.
  split; [exact Hn|]. split; [exists rest; now rewrite (TYPE_SYMBOL_LOOKUP_Some _ _ Ht)|].
  split; [now apply parse_Message_str_valid|].
  unfold copy. cbn [name mtype arguments]. now rewrite Message_init_valid, Hn.
Qed.

Lemma parse_normal_form_witness :
  parse (String "#" ("log" ++ String TAB "a\_b  ")) = inr (mkMessage INFORM "log" ["a b"]) /\
  Message_str (mkMessage INFORM "log" ["a b"]) = "#log a\_b" /\
  parse "#log a\_b" = inr (mkMessage INFORM "log" ["a b"]).
Proof.
  split; [reflexivity|]. split; [reflexivity|].
  exact (proj1 (proj2 (proj2
    (parse_normal_form (String "#" ("log" ++ String TAB "a\_b  "))
       (mkMessage INFORM "log" ["a b"]) eq_refl)))).
Defined.

(** X4. Two messages the constructor accepts have the same serialization
    only if they are the same message. *)
Theorem Message_str_injective (m1 m2 : Message) :
  valid_name (name m1) = true -> valid_name (name m2) = true ->
  (Message_str m1 = Message_str m2 <-> m1 = m2).
Proof.
  intros H1 H2. split; [|now intros ->].
  intros Heq. apply parse_Message_str_valid in H1, H2.
  rewrite Heq in H1. congruence.
Qed.

Lemma Message_str_injective_witness :
  Message_str (mkMessage REQUEST "x" ["a b"]) = "?x a\_b" /\
  Message_str (mkMessage REQUEST "x" ["a"; "b"]) = "?x a b" /\
  (Message_str (mkMessage REQUEST "x" ["a b"]) =
   Message_str (mkMessage REQUEST "x" ["a"; "b"]) <->
   mkMessage REQUEST "x" ["a b"] = mkMessage REQUEST "x" ["a"; "b"]).
Proof.
  split; [reflexivity|]. split; [reflexivity|].
  exact (Message_str_injective (mkMessage REQUEST "x" ["a b"])
           (mkMessage REQUEST "x" ["a"; "b"]) eq_refl eq_refl).
Defined.

End CodecFacts.
(** ** More on the device server *)

Module ServerFacts.

Import Codec Server.
Local Open Scope list_scope.

(** *** Framing does not depend on how the bytes arrive *)

(** The lines one call of [handle_chunk] completes (the waiting chunk
    joined to the first of them) and the tail it keeps. *)
Definition chunk_lines (waiting_chunk chunk : string) : list string * string :=
  let lines := split_lf (replace_cr chunk) in
  match List.removelast lines with
  | [] => ([], waiting_chunk +:+ List.last lines EmptyString)
  | l :: ls => ((waiting_chunk +:+ l) :: ls, List.last lines EmptyString)
  end.

Lemma replace_cr_app (a b : string) :
  replace_cr (a +:+ b) = replace_cr a +:+ replace_cr b.
Proof.
  induction a as [|c a IH]; [now rewrite !append_nil|].
  rewrite append_cons. cbn [replace_cr]. now rewrite IH, append_cons.
Qed.

Lemma split_lf_app (x y : string) :
  split_lf (x +:+ y) =
  List.removelast (split_lf x) ++
  (List.last (split_lf x) EmptyString +:+ hd EmptyString (split_lf y)) ::
  tl (split_lf y).
Proof.
  induction x as [|c x IH].
  - rewrite append_nil. cbn. rewrite append_nil.
    destruct (split_lf y) eqn:E; [now apply split_lf_nonempty in E | reflexivity].
  - rewrite append_cons. cbn [split_lf]. rewrite IH.
    destruct (split_lf x) as [|f fs] eqn:E; [now apply split_lf_nonempty in E|].
    destruct (Ascii.eqb c LF).
    + reflexivity.
    + destruct fs as [|g fs]; [cbn; now rewrite append_cons | reflexivity].
Qed.

Lemma last_app_cons {A} (l : list A) x l' d :
  List.last (l ++ x :: l') d = List.last (x :: l') d.
Proof.
  induction l as [|y l IH]; [reflexivity|].
  rewrite <- IH. cbn [app List.last]. now destruct (l ++ x :: l') eqn:E; [destruct l|].
Qed.


(** *** One message, one line *)

Definition no_line_end (x : string) : bool :=
  forallb_string (fun c => negb (Ascii.eqb c LF) && negb (Ascii.eqb c CR)) x.

Lemma line_byte_no_line_end x :
  forallb_string CodecFacts.line_byte x = true -> no_line_end x = true.
Proof.
  unfold no_line_end. induction x as [|c x IH]; [reflexivity|].
  cbn [forallb_string]. intros H. apply andb_true_iff in H as [Hc Hx].
  rewrite (IH Hx), andb_true_r. unfold CodecFacts.line_byte, SPECIAL_RE in Hc.
  destruct (Ascii.eqb_spec c LF) as [->|]; [discriminate Hc|].
  destruct (Ascii.eqb_spec c CR) as [->|]; [discriminate Hc|]. reflexivity.
Qed.

Lemma replace_cr_line x : no_line_end x = true -> replace_cr x = x.
Proof.
  unfold no_line_end. induction x as [|c x IH]; [reflexivity|].
  cbn [forallb_string replace_cr]. intros H. apply andb_true_iff in H as [Hc Hx].
  apply andb_true_iff in Hc as [_ Hc]. apply negb_true_iff in Hc.
  now rewrite Hc, (IH Hx).
Qed.

Lemma split_lf_line x : no_line_end x = true -> split_lf x = [x].
Proof.
  unfold no_line_end. induction x as [|c x IH]; [reflexivity|].
  cbn [forallb_string split_lf]. intros H. apply andb_true_iff in H as [Hc Hx].
  apply andb_true_iff in Hc as [Hc _]. apply negb_true_iff in Hc.
  now rewrite Hc, (IH Hx).
Qed.

Lemma chunk_lines_line w x :
  no_line_end x = true ->
  chunk_lines w (x +:+ String LF "") = ([w +:+ x], EmptyString).
Proof.
  intros Hx. unfold chunk_lines. cbv zeta.
  rewrite replace_cr_app, (replace_cr_line x Hx), split_lf_app, (split_lf_line x Hx).
  cbn. now rewrite string_app_empty_r.
Qed.

Lemma append_line_end (x y z : string) :
  x +:+ y = z +:+ String LF "" -> y <> EmptyString ->
  exists r, y = r +:+ String LF "" /\ x +:+ r = z.
Proof.
  revert z. induction x as [|c x IH]; intros z Heq Hy.
  - rewrite append_nil in Heq. exists z. now rewrite append_nil.
  - rewrite append_cons in Heq. destruct z as [|c' z].
    + rewrite append_nil in Heq. injection Heq as _ Heq.
      destruct x; [rewrite append_nil in Heq; congruence | discriminate].
    + rewrite append_cons in Heq. injection Heq as -> Heq.
      destruct (IH z Heq Hy) as (r & Hr & Hz). exists r.
      now rewrite append_cons, Hz.
Qed.


(** *** The client registry *)

(** The three registries of [add_socket] and [remove_socket] agree: no
    socket is listed twice, and the sockets listed are those with a
    waiting chunk and those with a send lock. *)
Definition clients_consistent (s : Server) : Prop :=
  NoDup (_socks s) /\
  (forall sock, sock ∈ _socks s <-> is_Some (_waiting_chunks s !! sock)) /\
  (forall sock, sock ∈ _socks s <-> is_Some (_sock_locks s !! sock)).

Ltac fields :=
  unfold with_socks, with_waiting_chunks, with_sock_locks, with_strategies,
    with_sensors, with_reactor, with_allocated, with_closed, with_pending,
    log, transmit in *;
  cbn [_socks _waiting_chunks _sock_locks _strategies _sensors _reactor _logger
       allocated closed wire pending] in *.

(** Two states with the same registries, sockets and log. *)
Definition same_clients (s s' : Server) : Prop :=
  _socks s' = _socks s /\ _waiting_chunks s' = _waiting_chunks s /\
  _sock_locks s' = _sock_locks s /\ closed s' = closed s /\
  wire s' = wire s /\ pending s' = pending s /\ _logger s' = _logger s.

Lemma same_clients_refl s : same_clients s s.
Proof. repeat split. Qed.

Lemma same_clients_trans s1 s2 s3 :
  same_clients s1 s2 -> same_clients s2 s3 -> same_clients s1 s3.
Proof.
  intros (A1 & A2 & A3 & A4 & A5 & A6 & A7) (B1 & B2 & B3 & B4 & B5 & B6 & B7).
  repeat split; congruence.
Qed.

Lemma clients_consistent_ext s s' :
  _socks s' = _socks s -> _waiting_chunks s' = _waiting_chunks s ->
  _sock_locks s' = _sock_locks s ->
  clients_consistent s -> clients_consistent s'.
Proof. unfold clients_consistent. now intros -> -> ->. Qed.

Lemma remove_all_same_clients l s : same_clients s (remove_all l s).
Proof.
  revert s. induction l as [|kv l IH]; intros s; [apply same_clients_refl|].
  unfold remove_all in *. cbn [fold_left].
  eapply same_clients_trans; [|apply IH]. repeat split.
Qed.

Lemma drop_strategies_same_clients sock s : same_clients s (drop_strategies sock s).
Proof.
  unfold drop_strategies. destruct (_strategies s !! sock) as [strategies|];
    [|apply same_clients_refl].
  eapply same_clients_trans; [|apply remove_all_same_clients]. repeat split.
Qed.

Lemma list_remove_spec (x : Sock) (l : list Sock) :
  NoDup l -> NoDup (list_remove x l) /\
  forall y, y ∈ list_remove x l <-> y ∈ l /\ y <> x.
Proof.
  induction l as [|z l IH]; intros Hnd.
  - split; [constructor|]. intros y. cbn. split; [intros H; inversion H | now intros [H _]].
  - apply NoDup_cons in Hnd as [Hz Hnd]. cbn [list_remove].
    destruct (decide (x = z)) as [->|Hxz].
    + split; [exact Hnd|]. intros y. rewrite elem_of_cons. split.
      * intros Hy. split; [now right|]. intros ->. contradiction.
      * intros [[->|Hy] Hne]; [congruence | exact Hy].
    + destruct (IH Hnd) as [IH1 IH2]. split.
      * apply NoDup_cons. split; [|exact IH1]. rewrite IH2. now intros [H _].
      * intros y. rewrite !elem_of_cons, IH2. split.
        -- intros [->|[Hy Hne]]; [split; [now left | congruence] | split; [now right | exact Hne]].
        -- intros [[->|Hy] Hne]; [now left | right; now split].
Qed.

Lemma add_socket_consistent sock s :
  clients_consistent s -> sock ∉ _socks s -> clients_consistent (add_socket sock s).
Proof.
  intros (Hnd & Hc & Hl) Hnew. unfold add_socket, clients_consistent. fields.
  split; [|split].
  - apply NoDup_app. split; [exact Hnd|]. split; [|apply NoDup_singleton].
    intros x Hx Hx'. apply list_elem_of_singleton in Hx'. congruence.
  - intros x. rewrite elem_of_app, list_elem_of_singleton.
    destruct (decide (x = sock)) as [->|Hne].
    + rewrite lookup_insert_eq. split; [eauto | now right].
    + rewrite lookup_insert_ne by congruence. rewrite <- Hc. tauto.
  - intros x. rewrite elem_of_app, list_elem_of_singleton.
    destruct (decide (x = sock)) as [->|Hne].
    + rewrite lookup_insert_eq. split; [eauto | now right].
    + rewrite lookup_insert_ne by congruence. rewrite <- Hl. tauto.
Qed.

Lemma remove_socket_consistent sock s :
  clients_consistent s ->
  let s' := remove_socket sock s in
  clients_consistent s' /\
  (forall x, x ∈ _socks s' <-> x ∈ _socks s /\ x <> sock) /\
  (forall x, x <> sock -> _waiting_chunks s' !! x = _waiting_chunks s !! x) /\
  _waiting_chunks s' !! sock = None /\ _sock_locks s' !! sock = None /\
  closed s' = {[sock]} ∪ closed s /\ wire s' = wire s /\ pending s' = pending s /\
  _strategies s' = _strategies s /\ _reactor s' = _reactor s /\
  _sensors s' = _sensors s /\ allocated s' = allocated s /\ _logger s' = _logger s.
Proof.
  intros (Hnd & Hc & Hl). unfold remove_socket. cbv zeta.
  unfold clients_consistent. case_decide as Hin; fields.
  - destruct (list_remove_spec sock _ Hnd) as [Hnd' Hspec].
    split; [|split; [exact Hspec|]].
    + split; [exact Hnd'|]. split; intros x; rewrite Hspec.
      * destruct (decide (x = sock)) as [->|Hne].
        -- rewrite lookup_delete_eq. split; [now intros [_ ?] | intros [? [=]]].
        -- rewrite lookup_delete_ne by congruence. rewrite <- Hc. tauto.
      * destruct (decide (x = sock)) as [->|Hne].
        -- rewrite lookup_delete_eq. split; [now intros [_ ?] | intros [? [=]]].
        -- rewrite lookup_delete_ne by congruence. rewrite <- Hl. tauto.
    + split; [intros x Hne; now rewrite lookup_delete_ne by congruence|].
      rewrite !lookup_delete_eq. repeat split.
  - split; [now split|]. split.
    + intros x. split; [|now intros [? _]]. intros Hx. split; [exact Hx|]. congruence.
    + split; [reflexivity|].
      assert (Hc' : _waiting_chunks s !! sock = None).
      { destruct (_waiting_chunks s !! sock) eqn:E; [|reflexivity].
        exfalso. apply Hin, Hc. eauto. }
      assert (Hl' : _sock_locks s !! sock = None).
      { destruct (_sock_locks s !! sock) eqn:E; [|reflexivity].
        exfalso. apply Hin, Hl. eauto. }
      repeat split; assumption.
Qed.

(** *** What the sockets took *)

Definition no_socket_error (script : list SendOutcome) : bool :=
  forallb (fun o => match o with SocketError _ => false | _ => true end) script.

(** The bytes a client has been sent so far, in order. *)
Fixpoint received_from (sock : Sock) (w : list (Sock * string)) : string :=
  match w with
  | [] => EmptyString
  | (x, bytes) :: w' =>
      (if decide (x = sock) then bytes else EmptyString) +:+ received_from sock w'
  end.

Definition received (sock : Sock) (s : Server) : string :=
  received_from sock (wire s).

Lemma received_from_app sock w1 w2 :
  received_from sock (w1 ++ w2) = received_from sock w1 +:+ received_from sock w2.
Proof.
  induction w1 as [|[x bytes] w1 IH]; [now rewrite append_nil|].
  cbn [app received_from]. now rewrite IH, string_app_assoc.
Qed.

Lemma string_take_drop k d : string_take k d +:+ string_drop k d = d.
Proof.
  revert d. induction k as [|k IH]; intros d; [now destruct d|].
  destruct d as [|c d]; [reflexivity|]. cbn [string_take string_drop].
  now rewrite append_cons, IH.
Qed.

Lemma send_loop_delivers script data :
  no_socket_error script = true ->
  exists rest, send_loop script data = (None, data, rest) /\
               no_socket_error rest = true.
Proof.
  unfold no_socket_error. revert data.
  induction script as [|o script IH]; intros data Hok.
  - exists []. now destruct data.
  - cbn [forallb] in Hok. apply andb_true_iff in Hok as [Ho Hok].
    destruct data as [|c data]; [exists (o :: script); cbn; now rewrite Ho, Hok|].
    destruct o as [n| |e]; [| |discriminate]; cbn [send_loop].
    + destruct (IH (string_drop (Pos.to_nat n) (String c data)) Hok) as (rest & -> & Hr).
      exists rest. now rewrite string_take_drop.
    + apply IH, Hok.
Qed.

Lemma drop_strategies_strategies sock s x :
  _strategies (drop_strategies sock s) !! x =
  if decide (x = sock) then None else _strategies s !! x.
Proof.
  unfold drop_strategies. destruct (_strategies s !! sock) as [strategies|] eqn:E.
  - fold (remove_all (map_to_list strategies) (with_strategies (delete sock) s)).
    destruct (remove_all_fields (map_to_list strategies)
                (with_strategies (delete sock) s)) as (-> & _).
    fields. case_decide as Hx; [subst; apply lookup_delete_eq|].
    now rewrite lookup_delete_ne by congruence.
  - case_decide as Hx; [now subst | reflexivity].
Qed.

(** Every client with a strategy map is a registered client. *)
Definition strategies_of_clients (s : Server) : Prop :=
  forall sock, is_Some (_strategies s !! sock) -> sock ∈ _socks s.

(** What holds of a device server between two events. *)
Definition server_invariant (s : Server) : Prop :=
  clients_consistent s /\ strategies_of_clients s /\ sampling_invariant s.

(** Two states that differ at most in the bytes sent, the sockets'
    outcomes in store and the log. *)
Definition same_server (s s' : Server) : Prop :=
  _socks s' = _socks s /\ _waiting_chunks s' = _waiting_chunks s /\
  _sock_locks s' = _sock_locks s /\ closed s' = closed s /\
  _strategies s' = _strategies s /\ _reactor s' = _reactor s /\
  _sensors s' = _sensors s /\ allocated s' = allocated s.

Lemma same_server_refl s : same_server s s.
Proof. repeat split. Qed.

Lemma same_server_trans s1 s2 s3 :
  same_server s1 s2 -> same_server s2 s3 -> same_server s1 s3.
Proof.
  intros (A1 & A2 & A3 & A4 & A5 & A6 & A7 & A8) (B1 & B2 & B3 & B4 & B5 & B6 & B7 & B8).
  repeat split; congruence.
Qed.

Lemma server_invariant_ext s s' :
  same_server s s' -> server_invariant s -> server_invariant s'.
Proof.
  intros (H1 & H2 & H3 & H4 & H5 & H6 & H7 & H8) (Hc & Hs & Hi).
  split; [|split].
  - now apply (clients_consistent_ext s).
  - unfold strategies_of_clients. now rewrite H1, H5.
  - apply (sampling_invariant_ext s); [|exact Hi]. now repeat split.
Qed.

(** The end of a client: [remove_socket] followed by the strategy part of
    [on_client_disconnect]. *)
Definition disconnected (sock : Sock) (s : Server) : Server :=
  drop_strategies sock (remove_socket sock s).

Lemma disconnected_invariant sock s :
  server_invariant s ->
  let s' := disconnected sock s in
  server_invariant s' /\
  (forall x, x ∈ _socks s' <-> x ∈ _socks s /\ x <> sock) /\
  _waiting_chunks s' !! sock = None /\ _sock_locks s' !! sock = None /\
  _strategies s' !! sock = None /\ sock ∈ closed s' /\
  (forall n st, ~ armed_for s' sock n st) /\
  (forall x, x <> sock ->
     _waiting_chunks s' !! x = _waiting_chunks s !! x /\
     _strategies s' !! x = _strategies s !! x) /\
  wire s' = wire s /\ pending s' = pending s /\ _logger s' = _logger s.
Proof.
  intros (Hc & Hs & Hi). unfold disconnected. cbv zeta.
  destruct (remove_socket_consistent sock s Hc)
    as (Rc & Rsocks & Rchunks & Rchunk & Rlock & Rclosed & Rwire & Rpend &
        Rstrat & Rreact & Rsens & Ralloc & Rlog).
  cbv zeta in *.
  set (s1 := remove_socket sock s) in *.
  destruct (drop_strategies_same_clients sock s1)
    as (D1 & D2 & D3 & D4 & D5 & D6 & D7).
  assert (Hi1 : sampling_invariant s1)
    by (apply (sampling_invariant_ext s); [now repeat split | exact Hi]).
  destruct (drop_strategies_invariant sock s1 Hi1) as (Hi' & Hnone & Hreact & _).
  split; [split; [|split]|].
  - now apply (clients_consistent_ext s1).
  - intros x. rewrite drop_strategies_strategies, D1, Rsocks.
    case_decide as Hx; [intros [? [=]]|]. rewrite Rstrat. intros Hsome.
    split; [now apply Hs | exact Hx].
  - exact Hi'.
  - rewrite D1, D2, D3, D4, D5, D6, D7.
    split; [exact Rsocks|]. split; [exact Rchunk|]. split; [exact Rlock|].
    split; [exact Hnone|]. split; [rewrite Rclosed; now apply elem_of_union_l, elem_of_singleton|].
    split.
    { intros n st (Hr & Hcl & _). apply Hreact in Hr as [_ Hne]. contradiction. }
    split.
    { intros x Hx. split; [now apply Rchunks|].
      rewrite drop_strategies_strategies, Rstrat. now case_decide. }
    now rewrite Rwire, Rpend, Rlog.
Qed.

Lemma add_socket_invariant client s :
  server_invariant s -> client ∉ _socks s ->
  server_invariant (add_socket client s) /\
  _strategies (add_socket client s) !! client = None.
Proof.
  intros (Hc & Hs & Hi) Hnew. split; [split; [|split]|].
  - now apply add_socket_consistent.
  - intros x Hx. unfold add_socket in *. fields. apply elem_of_app. left. now apply Hs.
  - apply (sampling_invariant_ext s); [|exact Hi]. repeat split.
  - unfold add_socket. fields.
    destruct (_strategies s !! client) eqn:E; [|reflexivity].
    exfalso. apply Hnew, Hs. rewrite E. eauto.
Qed.

(** The first statement of [on_client_connect]: [self._strategies[sock] = {}]. *)
Lemma new_strategies_invariant sock s :
  server_invariant s -> sock ∈ _socks s -> _strategies s !! sock = None ->
  server_invariant (with_strategies (insert sock ∅) s).
Proof.
  intros (Hc & Hs & (I1 & I2 & I3)) Hin Hnone. split; [|split; [|split; [|split]]].
  - apply (clients_consistent_ext s); [reflexivity..|exact Hc].
  - intros x. fields. destruct (decide (x = sock)) as [->|Hne]; [intros _; exact Hin|].
    rewrite lookup_insert_ne by congruence. apply Hs.
  - intros x strategies n st. fields.
    destruct (decide (x = sock)) as [->|Hne].
    + rewrite lookup_insert_eq. intros [= <-]. now rewrite lookup_empty.
    + rewrite lookup_insert_ne by congruence. apply I1.
  - intros id st Hr. fields. destruct (I2 id st Hr) as (H1 & H2 & x & strategies & H3 & H4 & H5).
    split; [exact H1|]. split; [exact H2|]. exists x, strategies.
    split; [exact H3|]. split; [|exact H5].
    rewrite lookup_insert_ne; [exact H4|]. intros <-. congruence.
  - exact I3.
Qed.




(** *** The sensors of a device *)

(** [DeviceServer.add_sensor]. *)
Definition add_sensor (sensor : SensorModel.Sensor) (s : Server) : Server :=
  with_sensors (insert (SensorModel.name sensor) sensor) s.

(** [DeviceServer.get_sensor]; a sensor object is true. *)
Definition get_sensor (sensor_name : string) : M SensorModel.Sensor :=
  fun s =>
    match _sensors s !! sensor_name with
    | Some sensor => (inr sensor, s)
    | None => (inl (ValueError ("Unknown sensor '" +:+ sensor_name +:+ "'.")), s)
    end.

(** [DeviceServer.__init__] with a [setup_sensors] that adds the given
    sensors in turn: no client, no strategy, and the sockets of the
    clients to come with the outcomes [script] has in store. *)
Definition DeviceServer_init (sensors : list SensorModel.Sensor)
    (script : gmap Sock (list SendOutcome)) : Server :=
  fold_left (fun s sensor => add_sensor sensor s) sensors
    (mkServer [] ∅ ∅ ∅ ∅ ∅ [] 0 ∅ [] script).

Lemma add_sensors_fields sensors s :
  let s' := fold_left (fun s sensor => add_sensor sensor s) sensors s in
  _socks s' = _socks s /\ _waiting_chunks s' = _waiting_chunks s /\
  _sock_locks s' = _sock_locks s /\ _strategies s' = _strategies s /\
  _reactor s' = _reactor s /\ allocated s' = allocated s /\
  pending s' = pending s /\ wire s' = wire s /\
  forall n sensor,
    _sensors s' !! n = Some sensor ->
    _sensors s !! n = Some sensor \/ (sensor ∈ sensors /\ SensorModel.name sensor = n).
Proof.
  revert s. induction sensors as [|x sensors IH]; intros s; cbn [fold_left].
  - repeat split. intros n sensor H. now left.
  - destruct (IH (add_sensor x s)) as (H1 & H2 & H3 & H4 & H5 & H6 & H7 & H8 & H9).
    cbv zeta in *. rewrite H1, H2, H3, H4, H5, H6, H7, H8. repeat split.
    intros n sensor Hn. destruct (H9 n sensor Hn) as [H|[H Hname]].
    + unfold add_sensor in H. fields.
      destruct (decide (n = SensorModel.name x)) as [->|Hne].
      * rewrite lookup_insert_eq in H. injection H as ->. right. split; [now left | reflexivity].
      * rewrite lookup_insert_ne in H by congruence. now left.
    + right. split; [now right | exact Hname].
Qed.

Lemma DeviceServer_init_invariant sensors script :
  Forall (fun sensor => SensorModel._observers sensor = ∅) sensors ->
  server_invariant (DeviceServer_init sensors script).
Proof.
  intros Hobs. unfold DeviceServer_init.
  pose proof (add_sensors_fields sensors (mkServer [] ∅ ∅ ∅ ∅ ∅ [] 0 ∅ [] script))
    as (H1 & H2 & H3 & H4 & H5 & H6 & H7 & H8 & H9).
  cbv zeta in *.
  set (s0 := fold_left (fun s sensor => add_sensor sensor s) sensors
               (mkServer [] ∅ ∅ ∅ ∅ ∅ [] 0 ∅ [] script)) in *.
  cbn [_socks _waiting_chunks _sock_locks _strategies _reactor _sensors] in *.
  split; [|split; [|split; [|split]]].
  - split; [rewrite H1; constructor|].
    split; intros x; rewrite H1, ?H2, ?H3, lookup_empty;
      (split; [intros H; now apply not_elem_of_nil in H | intros [? [=]]]).
  - intros x. rewrite H4, lookup_empty. intros [? [=]].
  - intros x strategies n st. rewrite H4, lookup_empty. discriminate.
  - intros id st. rewrite H5, lookup_empty. discriminate.
  - intros n sensor id Hn. rewrite H5.
    destruct (H9 n sensor Hn) as [H|[H _]]; [rewrite lookup_empty in H; discriminate|].
    rewrite Forall_forall in Hobs. rewrite (Hobs sensor H). split.
    + intros Hid. now apply not_elem_of_empty in Hid.
    + intros (st & Hst & _). rewrite lookup_empty in Hst. discriminate.
Qed.

(** X14. A device as [__init__] leaves it, its sensors without observers,
    has no client and meets the invariant of the server; a sensor is
    found by [get_sensor] under its own name as soon as it is added,
    adding it hides no sensor of another name, and [get_sensor] raises
    [ValueError] for a name that was never added. *)
Theorem add_sensor_get_sensor (sensors : list SensorModel.Sensor)
    (script : gmap Sock (list SendOutcome)) :
  (Forall (fun sensor => SensorModel._observers sensor = ∅) sensors ->
   server_invariant (DeviceServer_init sensors script) /\
   _socks (DeviceServer_init sensors script) = []) /\
  (forall sensor s, get_sensor (SensorModel.name sensor) (add_sensor sensor s) =
                    (inr sensor, add_sensor sensor s)) /\
  (forall sensor n s, n <> SensorModel.name sensor ->
                      fst (get_sensor n (add_sensor sensor s)) = fst (get_sensor n s)) /\
  (forall n s, _sensors s !! n = None ->
               get_sensor n s = (inl (ValueError ("Unknown sensor '" +:+ n +:+ "'.")), s)) /\
  (forall n, (forall sensor, sensor ∈ sensors -> SensorModel.name sensor <> n) ->
             fst (get_sensor n (DeviceServer_init sensors script)) =
             inl (ValueError ("Unknown sensor '" +:+ n +:+ "'."))).
Proof.
  split; [|split; [|split; [|split]]].
  - intros Hobs. split; [now apply DeviceServer_init_invariant|].
    unfold DeviceServer_init.
    now destruct (add_sensors_fields sensors (mkServer [] ∅ ∅ ∅ ∅ ∅ [] 0 ∅ [] script))
      as (-> & _).
  - intros sensor s. unfold get_sensor, add_sensor. fields.
    now rewrite lookup_insert_eq.
  - intros sensor n s Hne. unfold get_sensor, add_sensor. fields.
    rewrite lookup_insert_ne by congruence. now destruct (_sensors s !! n).
  - intros n s Hn. unfold get_sensor. now rewrite Hn.
  - intros n Hn. unfold get_sensor, DeviceServer_init.
    destruct (add_sensors_fields sensors (mkServer [] ∅ ∅ ∅ ∅ ∅ [] 0 ∅ [] script))
      as (_ & _ & _ & _ & _ & _ & _ & _ & H9).
    cbv zeta in H9.
    destruct (_sensors _ !! n) as [sensor|] eqn:E; [|reflexivity].
    destruct (H9 n sensor E) as [H|[H Hname]];
      [cbn in H; rewrite lookup_empty in H; discriminate|].
    now apply Hn in H.
Qed.

(** [sorted(self._sensors.iteritems(), key=lambda x: x[0])]. *)
Definition sensor_le (x y : string * SensorModel.Sensor) : Prop :=
  String.leb (fst x) (fst y) = true.

#[local] Instance sensor_le_dec x y : Decision (sensor_le x y).
Proof. unfold sensor_le. apply _. Defined.

#[local] Instance sensor_le_trans : Transitive sensor_le.
Proof. intros x y z. unfold sensor_le. apply string_leb_trans. Qed.

#[local] Instance sensor_le_total : Total sensor_le.
Proof. intros x y. unfold sensor_le. apply String.leb_total. Qed.

Definition sorted_sensors (d : gmap string SensorModel.Sensor)
  : list (string * SensorModel.Sensor) :=
  merge_sort sensor_le (map_to_list d).



(** [":".join(parts)]. *)
Fixpoint join_colon (parts : list string) : string :=
  match parts with
  | [] => EmptyString
  | [x] => x
  | x :: parts' => x +:+ String ":" (join_colon parts')
  end.



Section Writer.

#[local] Set Default Proof Using "Type".

Variable getpeername : Sock -> option string.

#[local] Abbreviation send_message := (Server.send_message getpeername).
#[local] Abbreviation inform := (Server.inform getpeername).
#[local] Abbreviation mass_inform := (Server.mass_inform getpeername).
#[local] Abbreviation inform_each := (Server.inform_each getpeername).
#[local] Abbreviation on_client_connect := (Server.on_client_connect getpeername).
#[local] Abbreviation on_client_disconnect := (Server.on_client_disconnect getpeername).

(** What [send_message] comes to: the state is as before up to the bytes
    sent and the log, or the send failed and the client is gone. *)
Lemma send_message_cases sock msg s :
  same_server s (send_message sock msg s) \/
  exists s1, same_server s s1 /\ is_Some (_sock_locks s !! sock) /\
             send_message sock msg s = disconnected sock s1.
Proof.
  unfold Server.send_message. cbv zeta. fields.
  destruct (_sock_locks s !! sock) as [[]|] eqn:El; [|left; repeat split].
  destruct (send_loop _ _) as [[[e|] taken] rest]; [|left; repeat split].
  right. eexists. split; [|split; [eauto | reflexivity]]. repeat split.
Qed.

Lemma send_message_invariant sock msg s :
  server_invariant s -> server_invariant (send_message sock msg s).
Proof.
  intros HI. destruct (send_message_cases sock msg s) as [Hs | (s1 & Hs & _ & ->)].
  - now apply (server_invariant_ext s).
  - apply disconnected_invariant. now apply (server_invariant_ext s).
Qed.


(** X8. When the socket of a registered client raises an error other
    than [EAGAIN] at the first write, [send_message] returns all the
    same; the client has left every registry, its socket is closed, its
    strategies are dropped and none is armed, no client has received
    anything, the other clients keep their buffers and strategies, and
    the registries stay consistent. *)
Theorem send_message_failure_disconnects (sock : Sock) (msg : Message) (s : Server)
    (e : string) (rest : list SendOutcome) :
  server_invariant s -> sock ∈ _socks s ->
  pending s !! sock = Some (SocketError e :: rest) ->
  let s' := send_message sock msg s in
  server_invariant s' /\
  (forall x, x ∈ _socks s' <-> x ∈ _socks s /\ x <> sock) /\
  _waiting_chunks s' !! sock = None /\ _sock_locks s' !! sock = None /\
  _strategies s' !! sock = None /\ sock ∈ closed s' /\
  (forall n st, ~ armed_for s' sock n st) /\
  (forall x, x <> sock ->
     _waiting_chunks s' !! x = _waiting_chunks s !! x /\
     _strategies s' !! x = _strategies s !! x) /\
  (forall x, received x s' = received x s).
Proof.
  intros HI Hin Hp. pose proof HI as ((_ & _ & Hl) & _ & _).
  apply Hl in Hin as [[] Hlock].
  unfold Server.send_message. cbv zeta. fields. rewrite Hlock, Hp. cbn [default from_option id].
  assert (Hd : exists c d, Message_str msg +:+ String LF "" = String c d)
    by (eexists _, _; reflexivity).
  destruct Hd as (c & d & ->). cbn [send_loop id].
  match goal with
  | |- context [drop_strategies sock (remove_socket sock ?s1)] =>
      fold (disconnected sock s1);
      assert (Hs1 : same_server s s1) by repeat split;
      pose proof (disconnected_invariant sock s1 (server_invariant_ext _ _ Hs1 HI)) as H;
      cbv zeta in H;
      destruct H as (H1 & H2 & H3 & H4 & H5 & H6 & H7 & H8 & H9 & _)
  end.
  split; [exact H1|]. split; [exact H2|]. split; [exact H3|]. split; [exact H4|].
  split; [exact H5|]. split; [exact H6|]. split; [exact H7|]. split; [exact H8|].
  intros x. unfold received. rewrite H9. fields. rewrite received_from_app.
  cbn [received_from]. case_decide; now rewrite !string_app_empty_r.
Qed.

(** *** Sockets that take what they are sent *)

(** No socket has an error other than [EAGAIN] in store. *)
Definition healthy (s : Server) : Prop :=
  forall sock, no_socket_error (default [] (pending s !! sock)) = true.

Definition wire_line (msg : Message) : string := Message_str msg +:+ String LF "".

Lemma send_message_healthy sock msg s :
  healthy s ->
  let s' := send_message sock msg s in
  healthy s' /\ same_server s s' /\
  (forall x, received x s' =
             received x s +:+
             (if decide (x = sock /\ is_Some (_sock_locks s !! sock))
              then wire_line msg else EmptyString)).
Proof.
  intros Hh. cbv zeta. destruct (_sock_locks s !! sock) as [[]|] eqn:El.
  - assert (Hl : is_Some (_sock_locks s !! sock)) by (rewrite El; eauto).
    pose proof (Hh sock) as Hok. revert Hl Hok.
    unfold Server.send_message. cbv zeta. fields. rewrite El. intros Hl Hok.
    destruct (send_loop_delivers _ (Message_str msg +:+ String LF "") Hok)
      as (rest & -> & Hrest).
    split; [|split; [repeat split|]].
    + intros x. fields. destruct (decide (x = sock)) as [->|Hne].
      * now rewrite lookup_insert_eq.
      * rewrite lookup_insert_ne by congruence. apply Hh.
    + intros x. unfold received. fields. rewrite received_from_app.
      cbn [received_from]. rewrite string_app_empty_r.
      destruct (decide (sock = x)) as [->|Hne].
      * rewrite decide_True by (split; [reflexivity | eauto]). reflexivity.
      * rewrite decide_False by (intros [? _]; congruence). reflexivity.
  - unfold Server.send_message. cbv zeta. fields. rewrite El.
    split; [exact Hh|]. split; [repeat split|].
    intros x. unfold received. fields.
    rewrite decide_False by (intros [_ [? [=]]]). now rewrite string_app_empty_r.
Qed.

Lemma inform_each_healthy socks msg s :
  mtype msg = INFORM -> healthy s ->
  (forall sock, sock ∈ socks -> is_Some (_sock_locks s !! sock)) -> NoDup socks ->
  let r := inform_each socks msg s in
  fst r = inr tt /\ healthy (snd r) /\ same_server s (snd r) /\
  (forall x, received x (snd r) =
             received x s +:+ (if decide (x ∈ socks) then wire_line msg else EmptyString)).
Proof.
  intros Hm. revert s. induction socks as [|sock socks IH]; intros s Hh Hl Hnd.
  - cbn. split; [reflexivity|]. split; [exact Hh|]. split; [apply same_server_refl|].
    intros x. rewrite decide_False by apply not_elem_of_nil.
    now rewrite string_app_empty_r.
  - apply NoDup_cons in Hnd as [Hnew Hnd].
    cbn [Server.inform_each]. unfold bind, Server.inform. rewrite Hm. cbn [modify].
    destruct (send_message_healthy sock msg s Hh) as (Hh1 & Hs1 & Hr1). cbv zeta in *.
    set (s1 := send_message sock msg s) in *.
    assert (Hl1 : forall x, x ∈ socks -> is_Some (_sock_locks s1 !! x)).
    { intros x Hx. destruct Hs1 as (_ & _ & -> & _). apply Hl. now right. }
    destruct (IH s1 Hh1 Hl1 Hnd) as (Ho & Hh2 & Hs2 & Hr2).
    split; [exact Ho|]. split; [exact Hh2|].
    split; [eapply same_server_trans; eassumption|].
    intros x. rewrite Hr2, Hr1.
    destruct (decide (x = sock)) as [->|Hne].
    + rewrite decide_True by (split; [reflexivity | apply Hl; now left]).
      rewrite decide_False by exact Hnew. rewrite decide_True by now left.
      now rewrite string_app_empty_r.
    + rewrite decide_False by (intros [? _]; congruence).
      rewrite string_app_empty_r.
      destruct (decide (x ∈ socks)) as [Hx|Hx].
      * now rewrite decide_True by now right.
      * rewrite decide_False; [reflexivity|].
        intros Hx'. apply elem_of_cons in Hx' as [?|?]; congruence.
Qed.


Lemma inform_each_invariant socks msg s :
  mtype msg = INFORM -> server_invariant s ->
  fst (inform_each socks msg s) = inr tt /\
  server_invariant (snd (inform_each socks msg s)) /\
  (forall x, x ∈ _socks (snd (inform_each socks msg s)) -> x ∈ _socks s).
Proof.
  intros Hm. revert s. induction socks as [|sock socks IH]; intros s HI.
  - cbn [Server.inform_each ret fst snd]. split; [reflexivity|]. split; [exact HI|].
    intros x Hx. exact Hx.
  - cbn [Server.inform_each]. unfold bind, Server.inform. rewrite Hm. cbn [modify].
    pose proof (send_message_invariant sock msg s HI) as HI1.
    destruct (IH _ HI1) as (Ho & HI2 & Hsub).
    split; [exact Ho|]. split; [exact HI2|].
    intros x Hx. apply Hsub in Hx.
    destruct (send_message_cases sock msg s) as [Hs | (s1 & Hs & _ & Heq)].
    + destruct Hs as (<- & _). exact Hx.
    + rewrite Heq in Hx.
      pose proof (server_invariant_ext _ _ Hs HI) as HIs1.
      destruct (disconnected_invariant sock s1 HIs1) as (_ & H2 & _).
      apply H2 in Hx as [Hx _]. destruct Hs as (<- & _). exact Hx.
Qed.

(** X9. [mass_inform] refuses a message that is not an inform and sends
    nothing; an inform goes once to every registered client, in the order
    of the client list, and to nobody else, when no socket fails. *)
Theorem mass_inform_reaches_every_client (msg : Message) (s : Server) :
  (mtype msg <> INFORM -> mass_inform msg s = (inl AssertionError, s)) /\
  (mtype msg = INFORM -> clients_consistent s -> healthy s ->
   let r := mass_inform msg s in
   fst r = inr tt /\ healthy (snd r) /\ same_server s (snd r) /\
   (forall x, received x (snd r) =
              received x s +:+
              (if decide (x ∈ _socks s) then wire_line msg else EmptyString)) /\
   wire (snd r) = wire s ++ map (fun sock => (sock, wire_line msg)) (_socks s)).
Proof.
  unfold Server.mass_inform. split.
  - intros Hm. destruct (mtype msg); [reflexivity | reflexivity | congruence].
  - intros Hm (Hnd & _ & Hl) Hh. rewrite Hm. cbv zeta.
    assert (Hlocks : forall sock, sock ∈ _socks s -> is_Some (_sock_locks s !! sock))
      by (intros sock; apply Hl).
    destruct (inform_each_healthy (_socks s) msg s Hm Hh Hlocks Hnd)
      as (H1 & H2 & H3 & H4).
    split; [exact H1|]. split; [exact H2|]. split; [exact H3|]. split; [exact H4|].
    clear H1 H2 H3 H4 Hnd Hl. revert Hlocks Hh. generalize (_socks s) as socks.
    intros socks. revert s. induction socks as [|sock socks IH]; intros s Hlocks Hh.
    + cbn. now rewrite app_nil_r.
    + cbn [Server.inform_each map]. unfold bind, Server.inform. rewrite Hm.
      cbn [modify].
      destruct (send_message_healthy sock msg s Hh) as (Hh1 & Hs1 & _).
      cbv zeta in *.
      assert (Hw : wire (send_message sock msg s) = wire s ++ [(sock, wire_line msg)]).
      { destruct (Hlocks sock) as [[] El]; [now left|].
        pose proof (Hh sock) as Hok.
        unfold Server.send_message. cbv zeta. fields. rewrite El.
        destruct (send_loop_delivers _ (Message_str msg +:+ String LF "") Hok)
          as (rest & -> & _). reflexivity. }
      rewrite IH; [now rewrite Hw, <- app_assoc | | exact Hh1].
      intros x Hx. destruct Hs1 as (_ & _ & -> & _). apply Hlocks. now right.
Qed.

(** *** The events of the loop of [run] *)

(** A client accepted on the listening socket; [addr] is its address as
    [%s] prints it. *)
Definition run_accept (client : Sock) (addr : string) : M unit :=
  m <- Message_inform "client-connected" ["New client connected from " +:+ addr] ;;
  mass_inform m ;;;
  modify (add_socket client) ;;;
  on_client_connect client.

(** A client socket that [select] reports in error, that fails in
    [recv] or that is at end of file. *)
Definition run_client_died (sock : Sock) (reason : string) : M unit :=
  modify (remove_socket sock) ;;; on_client_disconnect sock reason false.



Lemma run_client_died_run sock reason s :
  run_client_died sock reason s = (inr tt, disconnected sock s).
Proof.
  unfold run_client_died, bind, modify. now rewrite on_client_disconnect_run.
Qed.

(** X10. A client that dies (end of file, an error of [recv] or of
    [select]) leaves every registry and has its socket closed; its
    strategies are dropped and none stays armed; nothing is sent; the
    other clients keep their buffers and strategies; and the registries
    stay consistent. *)
Theorem run_client_died_forgets (sock : Sock) (reason : string) (s : Server) :
  server_invariant s ->
  let r := run_client_died sock reason s in
  fst r = inr tt /\ server_invariant (snd r) /\
  (forall x, x ∈ _socks (snd r) <-> x ∈ _socks s /\ x <> sock) /\
  _waiting_chunks (snd r) !! sock = None /\ _sock_locks (snd r) !! sock = None /\
  _strategies (snd r) !! sock = None /\ sock ∈ closed (snd r) /\
  (forall n st, ~ armed_for (snd r) sock n st) /\
  (forall x, x <> sock ->
     _waiting_chunks (snd r) !! x = _waiting_chunks s !! x /\
     _strategies (snd r) !! x = _strategies s !! x) /\
  wire (snd r) = wire s.
Proof.
  intros HI. cbv zeta. rewrite run_client_died_run. cbn [fst snd].
  destruct (disconnected_invariant sock s HI)
    as (H1 & H2 & H3 & H4 & H5 & H6 & H7 & H8 & H9 & _).
  split; [reflexivity|]. repeat (split; [assumption|]). exact H9.
Qed.

Definition client_connected (addr : string) : Message :=
  mkMessage INFORM "client-connected" ["New client connected from " +:+ addr].

Definition version_inform : Message := mkMessage INFORM "version" [version].
Definition build_state_inform : Message := mkMessage INFORM "build-state" [build_state].

Lemma run_accept_run client addr s :
  run_accept client addr s =
  (inr tt,
   send_message client build_state_inform
     (send_message client version_inform
        (with_strategies (insert client ∅)
           (add_socket client
              (snd (inform_each (_socks s) (client_connected addr) s)))))).
Proof.
  unfold run_accept. unfold bind at 1. unfold Message_inform.
  rewrite construct_valid by reflexivity. unfold bind at 1.
  unfold Server.mass_inform at 1. cbn [mtype].
  fold (client_connected addr).
  destruct (inform_each (_socks s) (client_connected addr) s) as [[e|[]] s1] eqn:E.
  - pose proof (f_equal fst E) as E1. cbn [fst] in E1.
    exfalso. revert E1. clear E. generalize (_socks s) as l. intros l. revert s.
    induction l as [|x l IH]; intros s; [discriminate|].
    cbn [Server.inform_each]. unfold bind, Server.inform. cbn [mtype client_connected modify].
    apply IH.
  - cbn [snd]. unfold bind at 1. cbn [modify]. now rewrite on_client_connect_run.
Qed.

Lemma run_accept_invariant client addr s :
  server_invariant s -> client ∉ _socks s ->
  fst (run_accept client addr s) = inr tt /\
  server_invariant (snd (run_accept client addr s)).
Proof.
  intros HI Hnew. rewrite run_accept_run. cbn [fst snd].
  destruct (inform_each_invariant (_socks s) (client_connected addr) s eq_refl HI)
    as (_ & HI1 & Hsub).
  set (s1 := snd (inform_each (_socks s) (client_connected addr) s)) in *.
  assert (Hnew1 : client ∉ _socks s1) by (intros H; apply Hnew, Hsub, H).
  destruct (add_socket_invariant client s1 HI1 Hnew1) as [HI2 Hnone].
  set (s2 := add_socket client s1) in *.
  assert (Hin2 : client ∈ _socks s2)
    by (unfold s2, add_socket; fields; apply elem_of_app; right; now left).
  pose proof (new_strategies_invariant client s2 HI2 Hin2 Hnone) as HI3.
  split; [reflexivity|]. now do 2 apply send_message_invariant.
Qed.








End Writer.

Section Device.

#[local] Set Default Proof Using "Type".

Variable _tb_limit : nat.
Variable format_exception : Exception -> nat -> list string.
Variable getpeername : Sock -> option string.
Variable time_ms : Server -> string.
Variable read_formatted : SensorModel.Sensor -> string * string * string.
Variable strategy_params_ok :
  StrategyKind -> SensorModel.Sensor -> list string -> bool.
Variable _request_handlers : gmap string string.
Variable call_request : string -> Sock -> Message -> M Message.
Variable _inform_handlers : gset string.
Variable call_inform : string -> Sock -> Message -> M unit.
Variable _reply_handlers : gset string.
Variable call_reply : string -> Sock -> Message -> M unit.

#[local] Abbreviation send_message := (Server.send_message getpeername).
#[local] Abbreviation inform := (Server.inform getpeername).
#[local] Abbreviation mass_inform := (Server.mass_inform getpeername).
#[local] Abbreviation inform_each := (Server.inform_each getpeername).
#[local] Abbreviation on_client_connect := (Server.on_client_connect getpeername).
#[local] Abbreviation on_client_disconnect := (Server.on_client_disconnect getpeername).
#[local] Abbreviation handle_message :=
  (Server.handle_message _tb_limit format_exception getpeername _request_handlers
     call_request _inform_handlers call_inform _reply_handlers call_reply).
#[local] Abbreviation feed_codec :=
  (Server.feed_codec _tb_limit format_exception getpeername time_ms _request_handlers
     call_request _inform_handlers call_inform _reply_handlers call_reply).
#[local] Abbreviation feed_lines :=
  (Server.feed_lines _tb_limit format_exception getpeername time_ms _request_handlers
     call_request _inform_handlers call_inform _reply_handlers call_reply).
#[local] Abbreviation handle_lines :=
  (Server.handle_lines _tb_limit format_exception getpeername time_ms _request_handlers
     call_request _inform_handlers call_inform _reply_handlers call_reply).
#[local] Abbreviation handle_chunk :=
  (Server.handle_chunk _tb_limit format_exception getpeername time_ms _request_handlers
     call_request _inform_handlers call_inform _reply_handlers call_reply).

Lemma handle_chunk_chunk_lines sock chunk s :
  handle_chunk sock chunk s =
  (feed_lines sock
     (List.filter nonempty (fst (chunk_lines (partial_buffer sock s) chunk))) ;;;
   modify (retain sock (snd (chunk_lines (partial_buffer sock s) chunk)))) s.
Proof.
  unfold Server.handle_chunk, chunk_lines. cbv zeta. fold (partial_buffer sock s).
  destruct (List.removelast (split_lf (replace_cr chunk))) as [|l ls]; cbn [fst snd].
  - reflexivity.
  - unfold bind at 1. rewrite handle_lines_first. unfold bind.
    destruct (feed_lines sock _ s) as [[e|[]] s1]; [reflexivity|].
    cbn [ret]. now rewrite append_nil.
Qed.

(** X5. [handle_chunk] feeds the codec the non-empty lines of
    [chunk_lines] and keeps its tail; and the lines and the tail of a
    stretch of bytes are the same whether it arrives in one chunk or cut
    in two at any place, the second chunk meeting the tail of the first. *)
Theorem framing_independent_of_chunking (w a b : string) :
  chunk_lines w (a +:+ b) =
    (fst (chunk_lines w a) ++ fst (chunk_lines (snd (chunk_lines w a)) b),
     snd (chunk_lines (snd (chunk_lines w a)) b)) /\
  forall sock chunk s,
    handle_chunk sock chunk s =
    (feed_lines sock
       (List.filter nonempty (fst (chunk_lines (partial_buffer sock s) chunk))) ;;;
     modify (retain sock (snd (chunk_lines (partial_buffer sock s) chunk)))) s.
Proof.
  split; [|apply handle_chunk_chunk_lines].
  unfold chunk_lines. cbv zeta. rewrite replace_cr_app, split_lf_app.
  destruct (split_lf (replace_cr b)) as [|hb tb] eqn:Eb;
    [now apply split_lf_nonempty in Eb|].
  cbn [hd tl].
  set (ia := List.removelast (split_lf (replace_cr a))).
  set (la := List.last (split_lf (replace_cr a)) EmptyString).
  destruct tb as [|hb' tb].
  - rewrite removelast_app by discriminate. rewrite last_app_cons.
    cbn [List.removelast List.last]. rewrite app_nil_r.
    destruct ia as [|l ls]; cbn [fst snd]; rewrite ?app_nil_r;
      [now rewrite string_app_assoc | reflexivity].
  - rewrite removelast_app by discriminate. rewrite last_app_cons.
    change (List.removelast ((la +:+ hb) :: hb' :: tb))
      with ((la +:+ hb) :: List.removelast (hb' :: tb)).
    change (List.removelast (hb :: hb' :: tb)) with (hb :: List.removelast (hb' :: tb)).
    change (List.last ((la +:+ hb) :: hb' :: tb) EmptyString)
      with (List.last (hb' :: tb) EmptyString).
    change (List.last (hb :: hb' :: tb) EmptyString)
      with (List.last (hb' :: tb) EmptyString).
    destruct ia as [|l ls]; cbn [fst snd app];
      [now rewrite string_app_assoc | reflexivity].
Qed.

(** X6. The bytes of a serialized message and a line feed, arriving in
    one chunk or completing what the buffer holds, make [handle_chunk]
    dispatch exactly that message and leave the buffer empty. *)
Theorem handle_chunk_dispatches_line (sock : Sock) (chunk : string) (m : Message)
    (s : Server) :
  valid_name (name m) = true ->
  partial_buffer sock s +:+ chunk = Message_str m +:+ String LF "" ->
  chunk <> EmptyString ->
  handle_chunk sock chunk s =
  (handle_message sock m ;;; modify (retain sock EmptyString)) s.
Proof.
  intros Hn Heq Hne.
  destruct (append_line_end _ _ _ Heq Hne) as (r & -> & Hr).
  pose proof (CodecFacts.Message_str_line_bytes m Hn) as Hline.
  rewrite <- Hr, forallb_string_app in Hline.
  apply andb_true_iff in Hline as [_ Hline].
  apply line_byte_no_line_end in Hline.
  rewrite handle_chunk_chunk_lines, (chunk_lines_line _ r Hline), Hr.
  cbn [fst snd List.filter].
  assert (Hs : nonempty (Message_str m) = true) by reflexivity. rewrite Hs.
  cbn [Server.feed_lines]. unfold Server.feed_codec.
  rewrite (CodecFacts.parse_Message_str_valid m Hn). unfold bind, ret.
  destruct (handle_message sock m s) as [[e|[]] s1]; reflexivity.
Qed.

(** *** The invariant of the server along its run *)

#[local] Abbreviation request_sensor_sampling :=
  (Server.request_sensor_sampling getpeername read_formatted strategy_params_ok).
#[local] Abbreviation request_help := (Server.request_help getpeername _request_handlers).
#[local] Abbreviation emit := (Server.emit getpeername read_formatted).
#[local] Abbreviation set_sampling :=
  (Server.set_sampling getpeername read_formatted strategy_params_ok).
#[local] Abbreviation handle_request :=
  (Server.handle_request _tb_limit format_exception getpeername _request_handlers
     call_request).

(** What a message on the socket of a client, or the end of the client,
    makes the loop of [run] do. *)
Inductive Event :=
| Accepted (client : Sock) (addr : string)
| Died (sock : Sock) (reason : string)
| Received (sock : Sock) (chunk : string).

(** [chunk] is what [recv] returned, empty at end of file and when
    [recv] raised. *)
Definition run_event (ev : Event) : M unit :=
  match ev with
  | Accepted client addr => run_accept getpeername client addr
  | Died sock reason => run_client_died getpeername sock reason
  | Received sock chunk =>
      match chunk with
      | EmptyString => run_client_died getpeername sock "Socket EOF"
      | _ => handle_chunk sock chunk
      end
  end.

Fixpoint run_events (evs : list Event) : M unit :=
  match evs with
  | [] => ret tt
  | ev :: evs' => run_event ev ;;; run_events evs'
  end.













(** *** The built-in requests keep the invariant *)







(** *** The requests that list sensors and clients *)

(** Modelled from the spec: the type name and the formatted parameters
    [Sensor.__init__] obtains from the type objects of [kattypes.py]. *)
Variable sensor_stype : SensorModel.Sensor -> string.
Variable sensor_formatted_params : SensorModel.Sensor -> list string.

(** [[str(part) for part in client.getpeername()]], [None] when it raises
    [socket.error]; and [repr(client)]. *)
Variable peername_parts : Sock -> option (list string).
Variable repr : Sock -> string.

(** The sensor object filed under a name, as it is now. *)
Definition sensor_object (n : string) : M SensorModel.Sensor :=
  fun s => match _sensors s !! n with
           | Some sensor => (inr sensor, s)
           | None => (inl KeyError, s)
           end.

(** The arguments of a [#sensor-list] and of a [#sensor-value] inform. *)
Definition sensor_list_arguments (n : string) (sensor : SensorModel.Sensor)
  : list string :=
  n :: SensorModel.description sensor :: SensorModel.units sensor ::
    sensor_stype sensor :: sensor_formatted_params sensor.

Definition sensor_value_arguments (n : string) (sensor : SensorModel.Sensor)
  : list string :=
  let '(timestamp_ms, status, value) := read_formatted sensor in
  [timestamp_ms; "1"; n; status; value].

(** The loops of [request_sensor_list] and [request_sensor_value] over the
    sorted items; each sensor is read when its turn comes. *)
Fixpoint inform_sensor_each (iname : string)
    (args : string -> SensorModel.Sensor -> list string)
    (sock : Sock) (names : list string) : M unit :=
  match names with
  | [] => ret tt
  | n :: names' =>
      (sensor <- sensor_object n ;;
       m <- Message_inform iname (args n sensor) ;;
       inform sock m) ;;;
      inform_sensor_each iname args sock names'
  end.

(** [request_sensor_list]. *)
Definition request_sensor_list (sock : Sock) (msg : Message) : M Message :=
  fun s =>
    match arguments msg with
    | [] =>
        (inform_sensor_each "sensor-list" sensor_list_arguments sock
           (fst <$> sorted_sensors (_sensors s)) ;;;
         fun s' => Message_reply "sensor-list" ["ok"; str_of_nat (size (_sensors s'))] s') s
    | n :: _ =>
        match _sensors s !! n with
        | Some sensor =>
            ((m <- Message_inform "sensor-list" (sensor_list_arguments n sensor) ;;
              inform sock m) ;;;
             Message_reply "sensor-list" ["ok"; "1"]) s
        | None => Message_reply "sensor-list" ["fail"; "Unknown sensor name."] s
        end
    end.

(** [request_sensor_value]. *)
Definition request_sensor_value (sock : Sock) (msg : Message) : M Message :=
  fun s =>
    match arguments msg with
    | [] =>
        (inform_sensor_each "sensor-value" sensor_value_arguments sock
           (fst <$> sorted_sensors (_sensors s)) ;;;
         fun s' => Message_reply "sensor-value" ["ok"; str_of_nat (size (_sensors s'))] s') s
    | n :: _ =>
        match _sensors s !! n with
        | Some sensor =>
            ((m <- Message_inform "sensor-value" (sensor_value_arguments n sensor) ;;
              inform sock m) ;;;
             Message_reply "sensor-value" ["ok"; "1"]) s
        | None => Message_reply "sensor-value" ["fail"; "Unknown sensor name."] s
        end
    end.

(** The address [request_client_list] reports for a client. *)
Definition client_addr (client : Sock) : string :=
  match peername_parts client with
  | Some parts => join_colon parts
  | None => repr client
  end.

Fixpoint inform_client_each (sock : Sock) (clients : list Sock) : M unit :=
  match clients with
  | [] => ret tt
  | client :: clients' =>
      (m <- Message_inform "client-list" [client_addr client] ;; inform sock m) ;;;
      inform_client_each sock clients'
  end.

(** [request_client_list]. *)
Definition request_client_list (sock : Sock) (msg : Message) : M Message :=
  fun s =>
    let clients := get_sockets s in
    let num_clients := List.length clients in
    (inform_client_each sock clients ;;;
     Message_reply "client-list" ["ok"; str_of_nat num_clients]) s.













End Device.

(** *** A device with the sensor of the sampling tests and two clients *)

Definition test_address : string := "('127.0.0.1', 5000)".

(** What the sockets have in store: client 7 takes everything, at first a
    few bytes at a time; the third send to client 9 fails. *)
Definition test_script : gmap Sock (list SendOutcome) :=
  {[ 7 := [Sent 10; Eagain; Sent 200; Sent 200; Sent 5; Eagain; Sent 4] ]}.

Definition failing_script : gmap Sock (list SendOutcome) :=
  <[ 9 := [Sent 200; Sent 200; SocketError "Broken pipe"] ]> test_script.

Definition new_device : Server := DeviceServer_init [SensorModel.an_int] test_script.

Definition one_client : Server :=
  snd (run_accept test_getpeername 7 test_address new_device).

Definition two_clients : Server :=
  snd (run_accept test_getpeername 9 test_address
         (snd (run_accept test_getpeername 7 test_address
                 (DeviceServer_init [SensorModel.an_int] failing_script)))).

Definition test_events : list Event :=
  [ Accepted 7 test_address;
    Received 7 ("?sensor-sampling an.int event" +:+ String LF "?wat");
    Accepted 9 test_address;
    Received 7 ("chdog" +:+ String CR (String LF "!bogus"));
    Received 9 ("?help" +:+ String LF "");
    Died 9 "Client socket died";
    Received 7 "" ].

Definition test_run_events : list Event -> M unit :=
  run_events 2 test_format_exception test_getpeername test_time_ms
    test_request_handlers test_call_request ∅ test_call_none ∅ test_call_none.

Lemma an_int_unobserved :
  Forall (fun sensor => SensorModel._observers sensor = ∅) [SensorModel.an_int].
Proof. repeat constructor. Qed.

Lemma server_invariant_new_device : server_invariant new_device.
Proof. apply DeviceServer_init_invariant, an_int_unobserved. Qed.



Lemma server_invariant_one_client : server_invariant one_client.
Proof.
  apply run_accept_invariant; [apply server_invariant_new_device|].
  apply not_elem_of_nil.
Qed.

Lemma server_invariant_two_clients : server_invariant two_clients.
Proof.
  assert (H7 : server_invariant
                 (snd (run_accept test_getpeername 7 test_address
                         (DeviceServer_init [SensorModel.an_int] failing_script)))).
  { apply run_accept_invariant; [|apply not_elem_of_nil].
    apply DeviceServer_init_invariant, an_int_unobserved. }
  apply run_accept_invariant; [exact H7|].
  assert (Hs : _socks (snd (run_accept test_getpeername 7 test_address
                              (DeviceServer_init [SensorModel.an_int] failing_script)))
               = [7]) by (vm_compute; reflexivity).
  rewrite Hs. intros Hin. apply list_elem_of_singleton in Hin. discriminate.
Qed.


Example two_clients_received :
  _socks two_clients = [7; 9] /\
  received 7 two_clients =
    "#version device_stub-0.1" +:+ String LF "#build-state name-0.1" +:+
    String LF "#client-connected New\_client\_connected\_from\_('127.0.0.1',\_5000)" +:+
    String LF "" /\
  received 9 two_clients =
    "#version device_stub-0.1" +:+ String LF "#build-state name-0.1" +:+ String LF "" /\
  pending two_clients !! 9 = Some [SocketError "Broken pipe"].
Proof. split; [|split; [|split]]; vm_compute; reflexivity. Qed.

Example chunk_lines_examples :
  chunk_lines "?wat" ("chdog" +:+ String CR (String LF "!bogus")) =
    (["?watchdog"; ""], "!bogus") /\
  chunk_lines "" ("?a" +:+ String LF "?b") = (["?a"], "?b") /\
  chunk_lines "?a" "" = ([], "?a").
Proof. repeat split. Qed.

Lemma handle_chunk_dispatches_line_witness :
  valid_name "watchdog" = true /\
  partial_buffer 7 (snd (test_handle_chunk 7 "?wat" one_client)) = "?wat" /\
  test_handle_chunk 7 ("chdog" +:+ String LF "")
    (snd (test_handle_chunk 7 "?wat" one_client)) =
  (handle_message 2 test_format_exception test_getpeername test_request_handlers
     test_call_request ∅ test_call_none ∅ test_call_none 7
     (mkMessage REQUEST "watchdog" []) ;;;
   modify (retain 7 EmptyString))
    (snd (test_handle_chunk 7 "?wat" one_client)).
Proof.
  split; [reflexivity|]. split; [vm_compute; reflexivity|].
  apply (handle_chunk_dispatches_line 2 test_format_exception test_getpeername
           test_time_ms test_request_handlers test_call_request ∅ test_call_none
           ∅ test_call_none 7 ("chdog" +:+ String LF "")
           (mkMessage REQUEST "watchdog" []));
    [reflexivity | vm_compute; reflexivity | discriminate].
Defined.


Lemma send_message_failure_disconnects_witness :
  pending two_clients !! 9 = Some [SocketError "Broken pipe"] /\
  _socks (send_message test_getpeername 9 (mkMessage INFORM "log" ["a b"]) two_clients)
    = [7] /\
  server_invariant
    (send_message test_getpeername 9 (mkMessage INFORM "log" ["a b"]) two_clients) /\
  _strategies
    (send_message test_getpeername 9 (mkMessage INFORM "log" ["a b"]) two_clients)
    !! 9 = None.
Proof.
  split; [vm_compute; reflexivity|]. split; [vm_compute; reflexivity|].
  assert (Hin : 9 ∈ _socks two_clients).
  { assert (Hs : _socks two_clients = [7; 9]) by (vm_compute; reflexivity).
    rewrite Hs. apply elem_of_cons. right. apply elem_of_cons. now left. }
  assert (Hp : pending two_clients !! 9 = Some [SocketError "Broken pipe"])
    by (vm_compute; reflexivity).
  pose proof (send_message_failure_disconnects test_getpeername 9
                (mkMessage INFORM "log" ["a b"]) two_clients "Broken pipe" []
                server_invariant_two_clients Hin Hp) as H.
  cbv zeta in H. destruct H as (H1 & _ & _ & _ & H5 & _).
  split; [exact H1 | exact H5].
Defined.

Lemma run_client_died_forgets_witness :
  server_invariant two_clients /\
  _socks (snd (run_client_died test_getpeername 7 "Socket EOF" two_clients)) = [9] /\
  server_invariant (snd (run_client_died test_getpeername 7 "Socket EOF" two_clients)) /\
  wire (snd (run_client_died test_getpeername 7 "Socket EOF" two_clients)) =
    wire two_clients.
Proof.
  split; [exact server_invariant_two_clients|]. split; [vm_compute; reflexivity|].
  pose proof (run_client_died_forgets test_getpeername 7 "Socket EOF" two_clients
                server_invariant_two_clients) as H.
  cbv zeta in H. destruct H as (_ & H2 & _ & _ & _ & _ & _ & _ & _ & H10).
  split; [exact H2 | exact H10].
Defined.





Example test_events_outcome :
  _socks (snd (test_run_events test_events
                 (DeviceServer_init [SensorModel.an_int] failing_script))) = [] /\
  closed (snd (test_run_events test_events
                 (DeviceServer_init [SensorModel.an_int] failing_script))) = {[7; 9]} /\
  _reactor (snd (test_run_events test_events
                   (DeviceServer_init [SensorModel.an_int] failing_script))) = ∅.
Proof. split; [|split]; vm_compute; reflexivity. Qed.

(** *** The enumerating requests on a device with two sensors and two clients *)

Definition a_bool : SensorModel.Sensor :=
  {| SensorModel._sensor_type := SensorModel.BOOLEAN; SensorModel._observers := ∅;
     SensorModel._timestamp := 12345%float; SensorModel._status := SensorModel.NOMINAL;
     SensorModel._value := SensorModel.VBool true; SensorModel._kattype := SensorModel.Bool;
     SensorModel.name := "a.bool"; SensorModel.description := "A boolean.";
     SensorModel.units := ""; SensorModel.params := [] |}.

Definition test_peername_parts (sock : Sock) : option (list string) :=
  if decide (sock = 7) then Some ["127.0.0.1"; "5000"] else None.

Definition test_repr (sock : Sock) : string := "<socket " +:+ str_of_nat sock +:+ ">".

Definition test_stype (sensor : SensorModel.Sensor) : string :=
  match SensorModel._sensor_type sensor with
  | SensorModel.INTEGER => "integer"
  | SensorModel.BOOLEAN => "boolean"
  | _ => "string"
  end.

Definition test_formatted_params (sensor : SensorModel.Sensor) : list string :=
  match SensorModel._sensor_type sensor with
  | SensorModel.INTEGER => ["-4"; "3"]
  | _ => []
  end.

Definition two_sensors : Server :=
  snd (run_accept test_getpeername 9 test_address
         (snd (run_accept test_getpeername 7 test_address
                 (DeviceServer_init [SensorModel.an_int; a_bool] test_script)))).

Example mass_inform_example :
  mass_inform test_getpeername (mkMessage REQUEST "log" ["a b"]) two_sensors =
    (inl AssertionError, two_sensors) /\
  fst (mass_inform test_getpeername (mkMessage INFORM "log" ["a b"]) two_sensors) = inr tt /\
  wire (snd (mass_inform test_getpeername (mkMessage INFORM "log" ["a b"]) two_sensors)) =
    wire two_sensors ++ [(7, "#log a\_b" +:+ String LF ""); (9, "#log a\_b" +:+ String LF "")].
Proof. split; [|split]; vm_compute; reflexivity. Qed.

Example request_sensor_value_example :
  fst (request_sensor_value test_getpeername test_read_formatted 9
         (mkMessage REQUEST "sensor-value" []) two_sensors) =
    inr (mkMessage REPLY "sensor-value" ["ok"; "2"]) /\
  received 9 (snd (request_sensor_value test_getpeername test_read_formatted 9
                     (mkMessage REQUEST "sensor-value" []) two_sensors)) =
    received 9 two_sensors +:+
    "#sensor-value 12345000 1 a.bool nominal 3" +:+ String LF
    "#sensor-value 12345000 1 an.int nominal 3" +:+ String LF "" /\
  fst (request_sensor_value test_getpeername test_read_formatted 9
         (mkMessage REQUEST "sensor-value" ["a.float"]) two_sensors) =
    inr (mkMessage REPLY "sensor-value" ["fail"; "Unknown sensor name."]).
Proof. split; [|split]; vm_compute; reflexivity. Qed.

Example request_sensor_list_example :
  fst (request_sensor_list test_getpeername test_stype test_formatted_params 9
         (mkMessage REQUEST "sensor-list" []) two_sensors) =
    inr (mkMessage REPLY "sensor-list" ["ok"; "2"]) /\
  received 9 (snd (request_sensor_list test_getpeername test_stype test_formatted_params 9
                     (mkMessage REQUEST "sensor-list" []) two_sensors)) =
    received 9 two_sensors +:+
    "#sensor-list a.bool A\_boolean. \@ boolean" +:+ String LF
    "#sensor-list an.int An\_integer. count integer -4 3" +:+ String LF "".
Proof. split; vm_compute; reflexivity. Qed.

Example request_client_list_example :
  fst (request_client_list test_getpeername test_peername_parts test_repr 9
         (mkMessage REQUEST "client-list" []) two_sensors) =
    inr (mkMessage REPLY "client-list" ["ok"; "2"]) /\
  received 9 (snd (request_client_list test_getpeername test_peername_parts test_repr 9
                     (mkMessage REQUEST "client-list" []) two_sensors)) =
    received 9 two_sensors +:+
    "#client-list 127.0.0.1:5000" +:+ String LF
    "#client-list <socket\_9>" +:+ String LF "".
Proof. split; vm_compute; reflexivity. Qed.

End ServerFacts.

(** ** The device logger *)

Module Logger.

Import Codec Server.
Local Open Scope list_scope.
Local Open Scope Z_scope.

(** [ALL, TRACE, DEBUG, INFO, WARN, ERROR, FATAL, OFF = range(8)]. *)
Definition ALL : Z := 0.
Definition TRACE : Z := 1.
Definition DEBUG : Z := 2.
Definition INFO : Z := 3.
Definition WARN : Z := 4.
Definition ERROR : Z := 5.
Definition FATAL : Z := 6.
Definition OFF : Z := 7.

Definition LEVELS : list string :=
  ["all"; "trace"; "debug"; "info"; "warn"; "error"; "fatal"; "off"]%string.

(** [PYTHON_LEVEL], with the values of the constants of [logging]. *)
Definition PYTHON_LEVEL (level : Z) : option Z :=
  if level =? TRACE then Some 0
  else if level =? DEBUG then Some 10
  else if level =? INFO then Some 20
  else if level =? WARN then Some 30
  else if level =? ERROR then Some 40
  else if level =? FATAL then Some 50
  else None.

(** [l[i]] on a Python list: a negative index counts from the end, an
    index out of range raises [IndexError]. *)
Definition list_getitem {A} (l : list A) (i : Z) : option A :=
  let n := Z.of_nat (List.length l) in
  if 0 <=? i then nth_error l (Z.to_nat i)
  else if - n <=? i then nth_error l (Z.to_nat (n + i))
  else None.

(** [l.index(x)]: the first position of [x]. *)
Fixpoint list_index (x : string) (l : list string) : option nat :=
  match l with
  | [] => None
  | y :: l' => if String.eqb y x then Some O else option_map S (list_index x l')
  end.

(** A [DeviceLogger]; the records its Python logger has received through
    [log(level, msg)] are kept with it. *)
Record DeviceLogger := mkDeviceLogger {
  _log_level : Z;
  _root_logger_name : string;
  _python_logger : option (list (Z * string))
}.

(** [DeviceLogger.__init__]. *)
Definition DeviceLogger_init (root_logger : string)
    (python_logger : option (list (Z * string))) : DeviceLogger :=
  mkDeviceLogger WARN root_logger python_logger.

Definition IndexError : Exception := OtherException "IndexError".

(** [level_name]. *)
Definition level_name (level : option Z) (lg : DeviceLogger) : Exception + string :=
  match list_getitem LEVELS (default (_log_level lg) level) with
  | Some n => inr n
  | None => inl IndexError
  end.

(** [level_from_name]. *)
Definition level_from_name (n : string) : Exception + Z :=
  match list_index n LEVELS with
  | Some i => inr (Z.of_nat i)
  | None => inl (ValueError ("Unknown logging level name '" +:+ n +:+ "'"))
  end.

(** [set_log_level] and [set_log_level_by_name]. *)
Definition set_log_level (level : Z) (lg : DeviceLogger) : DeviceLogger :=
  mkDeviceLogger level (_root_logger_name lg) (_python_logger lg).

Definition set_log_level_by_name (n : string) (lg : DeviceLogger)
  : Exception + DeviceLogger :=
  match level_from_name n with
  | inl e => inl e
  | inr level => inr (set_log_level level lg)
  end.

(** [DeviceServer.request_log_level]; [str(e)] of the [ValueError] is its
    text. *)
Definition request_log_level (msg : Message) (lg : DeviceLogger)
  : (Exception + Message) * DeviceLogger :=
  let after_set :=
    match arguments msg with
    | [] => inr lg
    | n :: _ =>
        match set_log_level_by_name n lg with
        | inl (ValueError text) => inl (FailReply text)
        | inl e => inl e
        | inr lg' => inr lg'
        end
    end in
  match after_set with
  | inl e => (inl e, lg)
  | inr lg' =>
      match level_name None lg' with
      | inl e => (inl e, lg')
      | inr n =>
          match Message_init REPLY "log-level" ["ok"; n]%string with
          | inl e => (inl (SyntaxError e), lg')
          | inr reply => (inr reply, lg')
          end
      end
  end.

Section Logging.

Variable getpeername : Sock -> option string.

(** [str(int(time.time() * 1000.0))] as read in a given state, and
    [str(int(timestamp * 1000.0))] for a given timestamp. *)
Variable time_ms : Server -> string.
Variable timestamp_ms : float -> string.

(** [_log_msg] with its optional timestamp. *)
Definition _log_msg (level_name msg name : string) (timestamp : option float)
  : M Message :=
  match timestamp with
  | None => Server._log_msg time_ms level_name msg name
  | Some ts => Message_inform "log" [level_name; timestamp_ms ts; name; msg]
  end.

Definition python_log (level : Z) (msg : string) (lg : DeviceLogger) : DeviceLogger :=
  mkDeviceLogger (_log_level lg) (_root_logger_name lg)
    (option_map (fun records => records ++ [(level, msg)]) (_python_logger lg)).

(** [DeviceLogger.log] on a device server and its logger. *)
Definition log (level : Z) (msg : string) (name : option string)
    (timestamp : option float) (d : Server * DeviceLogger)
  : (Exception + unit) * (Server * DeviceLogger) :=
  let '(s, lg) := d in
  let logged :=
    match _python_logger lg with
    | None => inr lg
    | Some _ =>
        match PYTHON_LEVEL level with
        | Some python_level => inr (python_log python_level msg lg)
        | None => inl KeyError
        end
    end in
  match logged with
  | inl e => (inl e, (s, lg))
  | inr lg1 =>
      if _log_level lg1 <=? level then
        let name := default (_root_logger_name lg1) name in
        match level_name (Some level) lg1 with
        | inl e => (inl e, (s, lg1))
        | inr lname =>
            let '(r, s1) :=
              (m <- _log_msg lname msg name timestamp ;;
               Server.mass_inform getpeername m) s in
            (r, (s1, lg1))
        end
      else (inr tt, (s, lg1))
  end.

(** [trace], [debug], [info], [warn], [error] and [fatal]. *)
Definition trace := log TRACE.
Definition debug := log DEBUG.
Definition info := log INFO.
Definition warn := log WARN.
Definition error := log ERROR.
Definition fatal := log FATAL.

Lemma level_cases (l : Z) :
  0 <= l < 8 -> l = 0 \/ l = 1 \/ l = 2 \/ l = 3 \/ l = 4 \/ l = 5 \/ l = 6 \/ l = 7.
Proof. lia. Qed.

Lemma list_index_Some x l i :
  list_index x l = Some i -> nth_error l i = Some x /\ (i < List.length l)%nat.
Proof.
  revert i. induction l as [|y l IH]; intros i; [discriminate|].
  cbn [list_index]. destruct (String.eqb_spec y x) as [->|_].
  - intros [= <-]. split; [reflexivity | cbn; lia].
  - destruct (list_index x l) as [j|]; [|discriminate]. intros [= <-].
    destruct (IH j eq_refl) as [H1 H2]. split; [exact H1 | cbn; lia].
Qed.

Lemma list_index_LEVELS n i :
  list_index n LEVELS = Some i -> nth_error LEVELS i = Some n /\ (i < 8)%nat.
Proof. apply list_index_Some. Qed.

Lemma list_index_None n :
  n ∉ LEVELS -> list_index n LEVELS = None.
Proof.
  generalize LEVELS as l. induction l as [|y l IH]; intros Hn; [reflexivity|].
  apply not_elem_of_cons in Hn as [Hne Hn]. cbn [list_index].
  destruct (String.eqb_spec y n) as [->|_]; [congruence|]. now rewrite IH.
Qed.

(** X18. The eight level names and the level numbers 0 to 7 translate
    into each other; [level_from_name] raises [ValueError] for any other
    name; and [level_name] reads a negative level from the end of the
    list and raises [IndexError] beyond eight. *)
Theorem level_names_round_trip (lg : DeviceLogger) :
  (forall l, 0 <= l < 8 ->
     exists n, level_name (Some l) lg = inr n /\ level_from_name n = inr l) /\
  (forall n l, level_from_name n = inr l ->
     0 <= l < 8 /\ level_name (Some l) lg = inr n) /\
  (forall n, n ∉ LEVELS ->
     level_from_name n =
     inl (ValueError ("Unknown logging level name '" +:+ n +:+ "'"))) /\
  (forall l, -8 <= l < 0 -> level_name (Some l) lg = level_name (Some (l + 8)) lg) /\
  (forall l, l < -8 \/ 8 <= l -> level_name (Some l) lg = inl IndexError).
Proof.
  split; [|split; [|split; [|split]]].
  - intros l Hl.
    destruct (level_cases l Hl) as [->|[->|[->|[->|[->|[->|[->| ->]]]]]]];
      eexists; split; reflexivity.
  - intros n l. unfold level_from_name.
    destruct (list_index n LEVELS) as [i|] eqn:E; [|discriminate].
    intros [= <-]. destruct (list_index_LEVELS n i E) as [Hn Hi].
    split; [lia|]. unfold level_name, list_getitem. cbn [default from_option id].
    destruct (Z.leb_spec (0) (Z.of_nat i)); [|lia]. now rewrite Nat2Z.id, Hn.
  - intros n Hn. unfold level_from_name. now rewrite list_index_None.
  - intros l Hl. unfold level_name, list_getitem. cbn [default from_option id List.length LEVELS].
    destruct (Z.leb_spec (0) (l)); [lia|]. destruct (Z.leb_spec (- Z.of_nat 8) (l)); [|lia].
    destruct (Z.leb_spec (0) (l + 8)); [|lia].
    now replace (Z.of_nat 8 + l) with (l + 8) by lia.
  - intros l Hl. unfold level_name, list_getitem. cbn [default from_option id List.length LEVELS].
    destruct (Z.leb_spec (0) (l)).
    + assert (Hb : (8 <= Z.to_nat l)%nat) by lia.
      destruct (nth_error LEVELS (Z.to_nat l)) eqn:E; [|reflexivity].
      assert (Hlt : (Z.to_nat l < List.length LEVELS)%nat)
        by (apply nth_error_Some; congruence).
      cbn in Hlt. lia.
    + destruct (Z.leb_spec (- Z.of_nat 8) (l)); [lia | reflexivity].
Qed.

(** X19. [?log-level] without an argument replies with the name of the
    current level and changes nothing; with one of the eight names it
    sets that level and replies with it; with any other name it fails
    with the text of the [ValueError] and leaves the level as it was. *)
Theorem request_log_level_sets (msg : Message) (lg : DeviceLogger) :
  (arguments msg = [] -> 0 <= _log_level lg < 8 ->
     exists n, nth_error LEVELS (Z.to_nat (_log_level lg)) = Some n /\
       request_log_level msg lg = (inr (mkMessage REPLY "log-level" ["ok"%string; n]), lg)) /\
  (forall n rest l, arguments msg = n :: rest -> level_from_name n = inr l ->
     request_log_level msg lg =
       (inr (mkMessage REPLY "log-level" ["ok"%string; n]), set_log_level l lg)) /\
  (forall n rest, arguments msg = n :: rest -> n ∉ LEVELS ->
     request_log_level msg lg =
       (inl (FailReply ("Unknown logging level name '" +:+ n +:+ "'")), lg)).
Proof.
  unfold request_log_level. split; [|split].
  - intros -> Hl. unfold level_name, list_getitem. cbn [default from_option id].
    destruct (Z.leb_spec (0) (_log_level lg)); [|lia].
    destruct (level_cases _ Hl) as [->|[->|[->|[->|[->|[->|[->| ->]]]]]]];
      eexists; split; reflexivity.
  - intros n rest l -> Hl. unfold set_log_level_by_name. rewrite Hl.
    unfold level_from_name in Hl.
    destruct (list_index n LEVELS) as [i|] eqn:E; [|discriminate].
    injection Hl as <-. destruct (list_index_LEVELS n i E) as [Hn Hi].
    unfold level_name, list_getitem, set_log_level. cbn [default from_option id _log_level].
    destruct (Z.leb_spec (0) (Z.of_nat i)); [|lia]. now rewrite Nat2Z.id, Hn.
  - intros n rest -> Hn. unfold set_log_level_by_name, level_from_name.
    now rewrite list_index_None.
Qed.


End Logging.

(** A logger with a Python logger behind it, on the device of the tests
    with its one client. *)
Definition test_timestamp_ms (timestamp : float) : string := "1000".

Definition test_logger : DeviceLogger := DeviceLogger_init "root" (Some []).


Example log_below_threshold :
  wire (fst (snd (log test_getpeername test_time_ms test_timestamp_ms INFO "disk full"
                    None None (connected, test_logger)))) = wire connected /\
  _python_logger
    (snd (snd (log test_getpeername test_time_ms test_timestamp_ms INFO "disk full"
                 None None (connected, test_logger)))) = Some [(20, "disk full")].
Proof. split; vm_compute; reflexivity. Qed.

End Logger.

(** ** The command names the metaclass derives from method names *)

Module Metaclass.

Import Codec.

(** [s.replace("_", "-")]. *)
Fixpoint replace_underscores (s : string) : string :=
  match s with
  | EmptyString => EmptyString
  | String c s' =>
      String (if Ascii.eqb c "_" then "-"%char else c) (replace_underscores s')
  end.

(** [convert]: [name[len(prefix):].replace("_", "-")]. *)
Definition convert (prefix name : string) : string :=
  replace_underscores (Server.string_drop (String.length prefix) name).

(** The three tables of [DeviceMetaclass.__init__]. *)
Inductive Table := RequestHandlers | InformHandlers | ReplyHandlers.

(** The body of the loop over [dir(mcs)] for a callable attribute: the
    table its name selects and the command name it is filed under. *)
Definition handler_entry (name : string) : option (Table * string) :=
  if String.prefix "request_" name then Some (RequestHandlers, convert "request_" name)
  else if String.prefix "inform_" name then Some (InformHandlers, convert "inform_" name)
  else if String.prefix "reply_" name then Some (ReplyHandlers, convert "reply_" name)
  else None.

(** What may follow the first byte of a Python identifier. *)
Definition identifier_byte (c : ascii) : bool := isalnum c || Ascii.eqb c "_".

Definition identifier_tail (s : string) : bool := forallb_string identifier_byte s.

Lemma string_drop_app (p a : string) :
  Server.string_drop (String.length p) (p ++ a) = a.
Proof.
  induction p as [|c p IH]; [rewrite append_nil; now destruct a|].
  rewrite append_cons. cbn. exact IH.
Qed.

Lemma convert_app p a : convert p (p ++ a) = replace_underscores a.
Proof. unfold convert. now rewrite string_drop_app. Qed.

Lemma identifier_byte_not_dash c : identifier_byte c = true -> Ascii.eqb c "-" = false.
Proof.
  unfold identifier_byte. intros H. destruct (Ascii.eqb_spec c "-") as [->|]; [|reflexivity].
  discriminate H.
Qed.

Lemma replace_underscores_injective a b :
  identifier_tail a = true -> identifier_tail b = true ->
  replace_underscores a = replace_underscores b -> a = b.
Proof.
  unfold identifier_tail. revert b.
  induction a as [|x a IH]; intros [|y b] Ha Hb Heq; try discriminate; [reflexivity|].
  cbn [forallb_string] in Ha, Hb.
  apply andb_true_iff in Ha as [Hx Ha]. apply andb_true_iff in Hb as [Hy Hb].
  cbn [replace_underscores] in Heq. injection Heq as Hc Heq.
  rewrite (IH b Ha Hb Heq). f_equal.
  apply identifier_byte_not_dash in Hx, Hy.
  destruct (Ascii.eqb_spec x "_") as [->|Hx'], (Ascii.eqb_spec y "_") as [->|Hy'];
    subst;
    first [ reflexivity
          | now rewrite Ascii.eqb_refl in Hx
          | now rewrite Ascii.eqb_refl in Hy ].
Qed.

Lemma replace_underscores_name_chars a :
  identifier_tail a = true ->
  forallb_string name_char (replace_underscores a) = true.
Proof.
  unfold identifier_tail. induction a as [|c a IH]; [reflexivity|].
  cbn [forallb_string replace_underscores]. intros H.
  apply andb_true_iff in H as [Hc Ha]. rewrite (IH Ha), andb_true_r.
  unfold identifier_byte in Hc. unfold name_char.
  destruct (Ascii.eqb c "_"); [reflexivity|]. now rewrite orb_false_r in Hc; rewrite Hc.
Qed.

Lemma prefix_app (p a : string) : String.prefix p (p ++ a) = true.
Proof.
  induction p as [|c p IH]; [now destruct a|].
  rewrite append_cons. cbn [String.prefix].
  destruct (Ascii.ascii_dec c c); [exact IH | congruence].
Qed.

Lemma handler_entry_prefixes a :
  handler_entry ("request_" ++ a) = Some (RequestHandlers, replace_underscores a) /\
  handler_entry ("inform_" ++ a) = Some (InformHandlers, replace_underscores a) /\
  handler_entry ("reply_" ++ a) = Some (ReplyHandlers, replace_underscores a).
Proof.
  unfold handler_entry. rewrite !prefix_app, !convert_app.
  split; [reflexivity|]. split; reflexivity.
Qed.

(** X21. A callable attribute whose name is one of the three prefixes
    followed by identifier bytes is filed in the table of its prefix,
    under what follows the prefix with every underscore turned into a
    dash; two such methods of one table never share a command name; and
    the command name is one a message can carry exactly when what follows
    the prefix starts with a letter. *)
Theorem convert_command_names (prefix a b : string) :
  identifier_tail a = true -> identifier_tail b = true ->
  (handler_entry ("request_" ++ a) = Some (RequestHandlers, replace_underscores a) /\
   handler_entry ("inform_" ++ a) = Some (InformHandlers, replace_underscores a) /\
   handler_entry ("reply_" ++ a) = Some (ReplyHandlers, replace_underscores a)) /\
  convert prefix (prefix ++ a) = replace_underscores a /\
  (convert prefix (prefix ++ a) = convert prefix (prefix ++ b) <-> a = b) /\
  (valid_name (convert prefix (prefix ++ a)) = true <->
   exists c r, a = String c r /\ isalpha c = true).
Proof.
  intros Ha Hb. split; [apply handler_entry_prefixes|].
  rewrite !convert_app. split; [reflexivity|]. split.
  - split; [now apply replace_underscores_injective | now intros ->].
  - pose proof (replace_underscores_name_chars a Ha) as Hn.
    destruct a as [|c r]; [split; [discriminate | intros (? & ? & [=] & _)]|].
    cbn [replace_underscores] in *. unfold valid_name. rewrite Hn, andb_true_r.
    split.
    + intros Hc. exists c, r. split; [reflexivity|].
      destruct (Ascii.eqb c "_"); [discriminate Hc | exact Hc].
    + intros (c' & r' & [= <- <-] & Hc).
      destruct (Ascii.eqb_spec c "_") as [->|]; [discriminate Hc | exact Hc].
Qed.

Lemma convert_command_names_witness :
  (handler_entry "request_sensor_sampling" = Some (RequestHandlers, "sensor-sampling") /\
   handler_entry "inform_sensor_sampling" = Some (InformHandlers, "sensor-sampling") /\
   handler_entry "reply_sensor_sampling" = Some (ReplyHandlers, "sensor-sampling")) /\
  convert "request_" "request_sensor_sampling" = "sensor-sampling" /\
  (convert "request_" "request_sensor_sampling" = convert "request_" "request_sensor_list" <->
   "sensor_sampling" = "sensor_list") /\
  (valid_name (convert "request_" "request_sensor_sampling") = true <->
   exists c r, "sensor_sampling" = String c r /\ isalpha c = true).
Proof.
  exact (convert_command_names "request_" "sensor_sampling" "sensor_list"
           eq_refl eq_refl).
Defined.

Example handler_entry_examples :
  handler_entry "request_sensor_sampling" = Some (RequestHandlers, "sensor-sampling") /\
  handler_entry "inform_log" = Some (InformHandlers, "log") /\
  handler_entry "reply_help" = Some (ReplyHandlers, "help") /\
  handler_entry "handle_request" = None /\
  handler_entry "request_" = Some (RequestHandlers, "") /\
  valid_name "" = false.
Proof. repeat split. Qed.

End Metaclass.

(** ** The observer set of a sensor *)

Module SensorFacts.

Import SensorModel.


End SensorFacts.
